(** * control-hub/client: the execution agent ([main.py])

    A shallow embedding of the agent's three components and the proofs of
    the properties its specification states about them:

    - [ExecutionTracker]: the in-memory ledger of execution identifiers;
    - [CodeExecutor]: the runner that executes one program in a child
      process ([_run_in_process]);
    - [AgentService]: the event handler, the dispatch pipeline and the
      service loop with its shutdown sequence.

    Python sets are finite sets ([gset]); an identifier is what
    [execution.get("id")] yields, a string or [None]. *)

From Stdlib Require Import ZArith Lia.
From stdpp Require Import base decidable option list gmap sets strings pretty.

Set Warnings "-clear-no-such-hyp".

(** ** Python values shared by the components *)

(** [execution.get("id")]: a string, or [None] when the key is absent. *)
Abbreviation ident := (option string).

(** The classes of exception the source tells apart: [except Exception]
    catches the first two, [except subprocess.TimeoutExpired] only the
    second; the third stands for exceptions that derive from
    [BaseException] alone ([asyncio.CancelledError], [KeyboardInterrupt]). *)
Inductive exn_class : Type :=
| ExceptionClass
| TimeoutExpiredClass
| BaseExceptionClass.

Record exn : Type := Exn { exn_cls : exn_class; exn_msg : string }.

(** [isinstance(e, Exception)] *)
Definition is_Exception (e : exn) : bool :=
  match exn_cls e with
  | ExceptionClass | TimeoutExpiredClass => true
  | BaseExceptionClass => false
  end.

(** [isinstance(e, subprocess.TimeoutExpired)] *)
Definition is_TimeoutExpired (e : exn) : bool :=
  match exn_cls e with
  | TimeoutExpiredClass => true
  | _ => false
  end.

(** A call either returns a value or raises. *)
Inductive result (A : Type) : Type :=
| Ok (a : A)
| Raise (e : exn).
Arguments Ok {A} a.
Arguments Raise {A} e.

(** ** ExecutionTracker *)

Module ExecutionTracker.

Record t : Type := Build {
  executed_tasks : gset ident;
  active_executions : gset ident
}.

(** [__init__] *)
Definition init : t :=
  {| executed_tasks := ∅; active_executions := ∅ |}.

Definition is_executed (self : t) (execution_id : ident) : bool :=
  bool_decide (execution_id ∈ executed_tasks self).

Definition mark_executed (self : t) (execution_id : ident) : t :=
  {| executed_tasks := {[execution_id]} ∪ executed_tasks self;
     active_executions := active_executions self |}.

Definition add_active (self : t) (execution_id : ident) : t * bool :=
  let was_empty := bool_decide (size (active_executions self) = 0) in
  ({| executed_tasks := executed_tasks self;
      active_executions := {[execution_id]} ∪ active_executions self |},
   was_empty).

Definition remove_active (self : t) (execution_id : ident) : t * bool :=
  let self' :=
    if bool_decide (execution_id ∈ active_executions self)
    then {| executed_tasks := executed_tasks self;
            active_executions := active_executions self ∖ {[execution_id]} |}
    else self in
  (self', bool_decide (size (active_executions self') = 0)).

Definition count_active (self : t) : nat :=
  size (active_executions self).

End ExecutionTracker.

(** ** Records of the backend *)

(** The [Computer] record; [status] is 0 (Offline), 1 (Running) or 2 (Idle). *)
Record Computer : Type := {
  c_id : string;
  c_name : string;
  c_ip : string;
  c_mac : string;
  c_status : Z
}.

(** The [record] of a realtime event, read with [dict.get]: a key may be
    absent, and [get] then yields [None]. *)
Record Execution : Type := {
  rec_id : ident;
  rec_completed : option bool;
  rec_executable : option string
}.

Record RealtimeEvent : Type := {
  action : string;
  record : Execution
}.

(** Truth value of [execution.get("completed")]. *)
Definition truthy (v : option bool) : bool :=
  match v with
  | Some b => b
  | None => false
  end.

(** What an awaited call of the backend client or of the runner yields. *)
Inductive value : Type :=
| VNone
| VStr (s : string)
| VComputer (c : Computer)
| VExecution (e : Execution)
| VCallable (h : nat).

(** [f"{execution_id}"] *)
Definition str_ident (i : ident) : string :=
  match i with
  | Some s => s
  | None => "None"
  end.

(** The awaited calls that leave the agent: the backend client, the
    runner, the unsubscribe handle and [asyncio.sleep]. *)
Inductive call : Type :=
| UpdateComputer (computer_id : string) (status : Z)
| UpdateExecution (execution_id : ident) (logs : value) (completed : option bool)
| ExecuteCode (code : option string) (execution_id : ident)
| SubscribeToExecutions (computer_id : string)
| CallUnsubscribe (unsubscribe : value)
| Sleep (seconds : Z).

(** What an observer of the agent sees, in order. *)
Inductive effect : Type :=
| ECall (c : call)
| EPrint (s : string)
| EMarkExecuted (i : ident)
| EAddActive (i : ident)
| ERemoveActive (i : ident)
| ECreateTask (i : ident).

(** ** The agent's state and its coroutines *)

(** The fields of [AgentService] that change, the tasks handed to
    [asyncio.create_task] (by their arguments, oldest first) and the
    actions performed so far (oldest first). *)
Record agent : Type := Agent {
  tracker : ExecutionTracker.t;
  computer : option Computer;
  spawned : list (Execution * ident);
  trace : list effect
}.

Definition emit (a : effect) (s : agent) : agent :=
  {| tracker := tracker s; computer := computer s;
     spawned := spawned s; trace := trace s ++ [a] |}.

Definition with_tracker (t : ExecutionTracker.t) (s : agent) : agent :=
  {| tracker := t; computer := computer s;
     spawned := spawned s; trace := trace s |}.

(** An [async def] body: it runs on the agent's state without interruption
    ([Atomic]) up to the next [await] of a call that leaves the agent, where
    the event loop may run other coroutines before the call's result comes
    back. [Hang] is a loop that has used up its fuel. *)
Inductive prog (A : Type) : Type :=
| Ret (a : A)
| Throw (e : exn)
| Atomic {X : Type} (f : agent -> agent * X) (k : X -> prog A)
| Await (c : call) (k : result value -> prog A)
| Hang.
Arguments Ret {A} a.
Arguments Throw {A} e.
Arguments Atomic {A X} f k.
Arguments Await {A} c k.
Arguments Hang {A}.

Fixpoint prog_bind {A B : Type} (f : A -> prog B) (p : prog A) : prog B :=
  match p with
  | Ret a => f a
  | Throw e => Throw e
  | Atomic g k => Atomic g (fun x => prog_bind f (k x))
  | Await c k => Await c (fun r => prog_bind f (k r))
  | Hang => Hang
  end.

#[export] Instance prog_mret : MRet prog := @Ret.
#[export] Instance prog_mbind : MBind prog := @prog_bind.

(** [try: p], with the exception, if one is raised, as a value. *)
Fixpoint attempt {A : Type} (p : prog A) : prog (result A) :=
  match p with
  | Ret a => Ret (Ok a)
  | Throw e => Ret (Raise e)
  | Atomic g k => Atomic g (fun x => attempt (k x))
  | Await c k => Await c (fun r => attempt (k r))
  | Hang => Hang
  end.

(** [except Exception as e: h e], applied to a raised [e]. *)
Definition except_Exception {A : Type} (h : exn -> prog A) (e : exn) : prog A :=
  if is_Exception e then h e else Throw e.

(** [try: p except Exception as e: h e] *)
Definition try_except {A : Type} (p : prog A) (h : exn -> prog A) : prog A :=
  r ← attempt p;
  match r with
  | Ok a => Ret a
  | Raise e => except_Exception h e
  end.

(** [try: p finally: fin] *)
Definition try_finally {A : Type} (p : prog A) (fin : prog unit) : prog A :=
  r ← attempt p;
  fin;;
  match r with
  | Ok a => Ret a
  | Raise e => Throw e
  end.

(** [await c] *)
Definition await (c : call) : prog value :=
  Await c (fun r => match r with Ok v => Ret v | Raise e => Throw e end).

Definition atomic {X : Type} (f : agent -> agent * X) : prog X :=
  Atomic f Ret.

Definition print (s : string) : prog unit :=
  atomic (fun st => (emit (EPrint s) st, tt)).

Definition TypeError (msg : string) : exn := Exn ExceptionClass msg.

(** ** DatabaseClient *)

Module DatabaseClient.

(** [update_computer(computer_id, {"status": status})]; the reply is
    turned into a [Computer], which raises [TypeError] when it is not a
    record of that kind. *)
Definition update_computer (computer_id : string) (status : Z) : prog Computer :=
  v ← await (UpdateComputer computer_id status);
  match v with
  | VComputer c => Ret c
  | _ => Throw (TypeError "type object argument after ** must be a mapping")
  end.

(** [update_execution(execution_id, data)], [data] holding [logs] and,
    when [completed] is not [None], [completed]. *)
Definition update_execution (execution_id : ident) (logs : value)
    (completed : option bool) : prog value :=
  await (UpdateExecution execution_id logs completed).

Definition subscribe_to_executions (computer_id : string) : prog value :=
  await (SubscribeToExecutions computer_id).

End DatabaseClient.

(** ** AgentService *)

Module AgentService.

(** The methods of [self.tracker], run on the agent's state. *)
Definition is_executed (i : ident) : prog bool :=
  atomic (fun st => (st, ExecutionTracker.is_executed (tracker st) i)).

Definition mark_executed (i : ident) : prog unit :=
  atomic (fun st =>
    (emit (EMarkExecuted i)
       (with_tracker (ExecutionTracker.mark_executed (tracker st) i) st), tt)).

Definition add_active (i : ident) : prog bool :=
  atomic (fun st =>
    let '(t, was_empty) := ExecutionTracker.add_active (tracker st) i in
    (emit (EAddActive i) (with_tracker t st), was_empty)).

Definition remove_active (i : ident) : prog bool :=
  atomic (fun st =>
    let '(t, now_empty) := ExecutionTracker.remove_active (tracker st) i in
    (emit (ERemoveActive i) (with_tracker t st), now_empty)).

Definition count_active : prog nat :=
  atomic (fun st => (st, ExecutionTracker.count_active (tracker st))).

(** [self.computer] *)
Definition get_computer : prog (option Computer) :=
  atomic (fun st => (st, computer st)).

(** [self.computer = c] *)
Definition set_computer (c : Computer) : prog unit :=
  atomic (fun st =>
    ({| tracker := tracker st; computer := Some c;
        spawned := spawned st; trace := trace st |}, tt)).

(** [self.computer["id"]] *)
Definition self_computer_id : prog string :=
  c ← get_computer;
  match c with
  | Some c => Ret (c_id c)
  | None => Throw (TypeError "'NoneType' object is not subscriptable")
  end.

(** [asyncio.create_task(self.process_execution(execution, execution_id))] *)
Definition create_task (execution : Execution) (execution_id : ident) : prog unit :=
  atomic (fun st =>
    (emit (ECreateTask execution_id)
       {| tracker := tracker st; computer := computer st;
          spawned := spawned st ++ [(execution, execution_id)];
          trace := trace st |}, tt)).

Definition update_computer_status (status : Z) : prog unit :=
  try_except
    (cid ← self_computer_id;
     c ← DatabaseClient.update_computer cid status;
     set_computer c;;
     print ("💻 Computer status updated to: " +:+ pretty status))
    (fun e => print ("❌ Failed to update computer status: " +:+ exn_msg e)).

Definition handle_execution (event : RealtimeEvent) : prog unit :=
  let execution := record event in
  let execution_id := rec_id execution in
  executed ← is_executed execution_id;
  if (executed : bool) then Ret tt else
  mark_executed execution_id;;
  if truthy (rec_completed execution) then Ret tt else
  create_task execution execution_id.

Definition process_execution (execution : Execution) (execution_id : ident)
    : prog unit :=
  is_first_task ← add_active execution_id;
  (if (is_first_task : bool) then update_computer_status 1 else Ret tt);;
  n ← count_active;
  print ("🚀 Executing task: " +:+ str_ident execution_id
         +:+ " (Active tasks: " +:+ pretty n +:+ ")");;
  DatabaseClient.update_execution execution_id
    (VStr "🔄 Execution started...
") None;;
  let code := rec_executable execution in
  logs ← await (ExecuteCode code execution_id);
  DatabaseClient.update_execution execution_id logs (Some true);;
  is_last_task ← remove_active execution_id;
  (if (is_last_task : bool) then update_computer_status 2 else Ret tt);;
  n ← count_active;
  print ("✅ Task completed: " +:+ str_ident execution_id
         +:+ " (Remaining tasks: " +:+ pretty n +:+ ")").

(** [while True: await asyncio.sleep(60 * 60)]: the loop has no exit of
    its own; [fuel] bounds the number of sleeps that return. *)
Fixpoint service_loop (fuel : nat) : prog unit :=
  match fuel with
  | O => Hang
  | S fuel' => await (Sleep (60 * 60));; service_loop fuel'
  end.

(** The [except Exception as e] clause of [run]. *)
Definition run_except (e : exn) : prog unit :=
  print ("❌ Error: " +:+ exn_msg e).

(** The [finally] clause of [run]; [unsubscribe] is the local of that
    name when it is bound (['unsubscribe' in locals()]). *)
Definition run_finally (unsubscribe : option value) : prog unit :=
  c ← get_computer;
  match c with
  | Some c => DatabaseClient.update_computer (c_id c) 0;; Ret tt
  | None => Ret tt
  end;;
  match unsubscribe with
  | Some u =>
      try_except
        (await (CallUnsubscribe u);;
         print "🔌 Unsubscribed from executions")
        (fun e => print ("❌ Error unsubscribing: " +:+ exn_msg e))
  | None => Ret tt
  end.

(** [run]. The [try] body is split where the local [unsubscribe] is
    bound: an exception before that point reaches the [finally] clause
    with the local unbound, one after it with the local bound. *)
Definition run (fuel : nat) : prog unit :=
  r ← attempt
        (print "🔌 Connecting to server and subscribing to executions...";;
         cid ← self_computer_id;
         DatabaseClient.subscribe_to_executions cid);
  match r with
  | Raise e =>
      try_finally (except_Exception run_except e) (run_finally None)
  | Ok unsubscribe =>
      try_finally
        (try_except
           (print "✅ Subscription active. Waiting for executions...";;
            service_loop fuel)
           run_except)
        (run_finally (Some unsubscribe))
  end.

End AgentService.

(** ** Running coroutines *)

(** How the run of one coroutine ends: it returns, it raises, or its loop
    is out of fuel. *)
Inductive outcome (A : Type) : Type :=
| Returned (a : A)
| Raised (e : exn)
| Diverged.
Arguments Returned {A} a.
Arguments Raised {A} e.
Arguments Diverged {A}.

(** The calls among the actions of a trace, in order. *)
Definition calls (tr : list effect) : list call :=
  omap (fun a => match a with ECall c => Some c | _ => None end) tr.

(** The environment of a coroutine that runs alone: the reply to an
    awaited call, given what the agent has done so far. *)
Definition env : Type := list effect -> call -> result value.

(** The environment that answers the calls, in order, with [replies], and
    with [None] once they are used up. *)
Definition replies_env (replies : list (result value)) : env :=
  fun tr _ => default (Ok VNone) (replies !! length (calls tr)).

(** One coroutine run alone. Every call is recorded when it is made. *)
Fixpoint exec {A : Type} (p : prog A) (ev : env) (st : agent)
    : agent * outcome A :=
  match p with
  | Ret a => (st, Returned a)
  | Throw e => (st, Raised e)
  | Atomic f k => let '(st', x) := f st in exec (k x) ev st'
  | Await c k => exec (k (ev (trace st) c)) ev (emit (ECall c) st)
  | Hang => (st, Diverged)
  end.

(** A task of the event loop. *)
Inductive task : Type :=
| Created (p : prog unit)
| Waiting (c : call) (k : result value -> prog unit)
| Finished (r : outcome unit).

(** A coroutine runs until its next [await]. *)
Fixpoint run_sync (p : prog unit) (st : agent) : agent * task :=
  match p with
  | Ret a => (st, Finished (Returned a))
  | Throw e => (st, Finished (Raised e))
  | Atomic f k => let '(st', x) := f st in run_sync (k x) st'
  | Await c k => (emit (ECall c) st, Waiting c k)
  | Hang => (st, Finished Diverged)
  end.

(** The event loop gives control to a task: a new task starts, a waiting
    task gets the reply [r] to its call. *)
Definition resume (r : result value) (t : task) (st : agent) : agent * task :=
  match t with
  | Created p => run_sync p st
  | Waiting c k => run_sync (k r) st
  | Finished o => (st, t)
  end.

(** The agent and the tasks created so far; the task at position [j] is
    the one of [spawned] at position [j]. *)
Record system : Type := System {
  sys_agent : agent;
  sys_tasks : list task
}.

(** The tasks that [asyncio.create_task] has been handed and that are not
    yet in the list. *)
Definition with_new_tasks (st : agent) (tasks : list task) : list task :=
  tasks ++ map (fun '(e, i) => Created (AgentService.process_execution e i))
               (drop (length tasks) (spawned st)).

(** What the event loop does next: the subscription delivers an event to
    [handle_execution], or a task is given control. *)
Inductive label : Type :=
| Deliver (event : RealtimeEvent)
| Resume (j : nat) (r : result value).

Definition step (sys : system) (l : label) : system :=
  match l with
  | Deliver event =>
      let '(st, _) := run_sync (AgentService.handle_execution event) (sys_agent sys) in
      {| sys_agent := st; sys_tasks := with_new_tasks st (sys_tasks sys) |}
  | Resume j r =>
      match sys_tasks sys !! j with
      | Some t =>
          let '(st, t') := resume r t (sys_agent sys) in
          {| sys_agent := st;
             sys_tasks := with_new_tasks st (<[j := t']> (sys_tasks sys)) |}
      | None => sys
      end
  end.

Definition steps (sys : system) (ls : list label) : system :=
  foldl step sys ls.

(** [AgentService.__init__], then [initialize] when [c] is a record. *)
Definition init_agent (c : option Computer) : agent :=
  {| tracker := ExecutionTracker.init; computer := c; spawned := []; trace := [] |}.

Definition init_system (c : option Computer) : system :=
  {| sys_agent := init_agent c; sys_tasks := [] |}.

(** The identifiers dispatched so far. *)
Definition dispatched (sys : system) : list ident :=
  (spawned (sys_agent sys)).*2.

(** ** CodeExecutor *)

Module CodeExecutor.

(** What one invocation does to the host, in order. *)
Inductive os_event : Type :=
| OsPrint (s : string)
| OsOpen (path : string)
| OsWrite (path : string) (code : string)
| OsPopen (path : string)
| OsCommunicate (timeout : option Z)
| OsKill
| OsExists (path : string)
| OsUnlink (path : string).

(** The host: the paths that exist, and what was done so far. *)
Record host : Type := Host {
  files : gset string;
  os_trace : list os_event
}.

(** What the host answers during one invocation. The child's output is
    bytes; [decode] is [bytes.decode('utf-8')]. *)
Record world : Type := World {
  tempdir : string;
  open_result : result unit;
  write_result : result unit;
  popen_result : result unit;
  communicate_result : result (list Byte.byte * list Byte.byte);
  returncode : Z;
  decode : list Byte.byte -> result string;
  unlink_result : result unit
}.

(** A computation on the host that returns or raises. *)
Record R (A : Type) : Type := MkR { runR : host -> result A * host }.
Arguments MkR {A} runR.
Arguments runR {A} r h.

#[export] Instance R_ret : MRet R := fun A a => MkR (fun h => (Ok a, h)).
#[export] Instance R_bind : MBind R := fun A B f m =>
  MkR (fun h =>
    match runR m h with
    | (Ok a, h') => runR (f a) h'
    | (Raise e, h') => (Raise e, h')
    end).

Definition raise {A : Type} (e : exn) : R A := MkR (fun h => (Raise e, h)).

(** The outcome of [m] as a value. *)
Definition attemptR {A : Type} (m : R A) : R (result A) :=
  MkR (fun h => let '(r, h') := runR m h in (Ok r, h')).

(** [try: m finally: fin] *)
Definition finallyR {A : Type} (m : R A) (fin : R unit) : R A :=
  r ← attemptR m;
  fin;;
  match r with
  | Ok a => mret a
  | Raise e => raise e
  end.

Definition log (ev : os_event) : R unit :=
  MkR (fun h => (Ok tt, {| files := files h; os_trace := os_trace h ++ [ev] |})).

(** An operation of the host whose outcome the world decides. *)
Definition host_op {A : Type} (ev : os_event) (r : result A) : R A :=
  log ev;; match r with Ok a => mret a | Raise e => raise e end.

Definition set_files (f : gset string -> gset string) : R unit :=
  MkR (fun h => (Ok tt, {| files := f (files h); os_trace := os_trace h |})).

Definition LF : string := String (Ascii.ascii_of_nat 10) EmptyString.

(** The truth value of a [str]. *)
Definition nonempty (s : string) : bool :=
  match s with
  | EmptyString => false
  | String _ _ => true
  end.

Fixpoint ends_with_slash (s : string) : bool :=
  match s with
  | EmptyString => false
  | String c EmptyString => bool_decide (c = Ascii.ascii_of_nat 47)
  | String _ s' => ends_with_slash s'
  end.

(** [os.path.join(a, b)] for a [b] that does not start with a slash. *)
Definition os_path_join (a b : string) : string :=
  if nonempty a && negb (ends_with_slash a) then a +:+ "/" +:+ b else a +:+ b.

(** [f"{timeout}"] *)
Definition str_timeout (timeout : option Z) : string :=
  match timeout with
  | Some t => pretty t
  | None => "None"
  end.

(** The text built from a finished child: its standard output, the
    [Errors:] part when it wrote to standard error, the exit-code note
    when it exited with a code other than 0. *)
Definition compose_output (stdout_str stderr_str : string) (rc : Z) : string :=
  let output := stdout_str in
  let output :=
    if nonempty stderr_str then
      (if nonempty output then output +:+ LF +:+ LF else output)
      +:+ "Errors:" +:+ LF +:+ stderr_str
    else output in
  if bool_decide (rc ≠ 0%Z)
  then output +:+ LF +:+ LF +:+ "Process exited with code " +:+ pretty rc
  else output.

Section Invocation.

Variable w : world.
Variable code : option string.
Variable execution_id : ident.
Variable timeout : option Z.

Definition temp_filename : string :=
  os_path_join (tempdir w) ("exec_" +:+ str_ident execution_id +:+ ".py").

(** [with open(temp_filename, 'w', encoding='utf-8') as temp_file:
    temp_file.write(code)]: opening creates the file; writing [None]
    raises [TypeError]. *)
Definition write_code : R unit :=
  host_op (OsOpen temp_filename) (open_result w);;
  set_files (fun fs => {[temp_filename]} ∪ fs);;
  match code with
  | Some c => host_op (OsWrite temp_filename c) (write_result w)
  | None => raise (TypeError "write() argument must be str, not None")
  end.

(** The [try] body up to the binding of the local [process]. *)
Definition spawn : R unit :=
  write_code;;
  host_op (OsPopen temp_filename) (popen_result w).

(** The [try] body from [process.communicate] on. *)
Definition collect : R string :=
  '(stdout, stderr) ← host_op (OsCommunicate timeout) (communicate_result w);
  stdout_str ← (match decode w stdout with Ok s => mret s | Raise e => raise e end);
  stderr_str ← (match decode w stderr with Ok s => mret s | Raise e => raise e end);
  mret (compose_output stdout_str stderr_str (returncode w)).

(** The [except] clauses, for an exception [e] raised in the [try]
    body; [process] tells whether the local of that name is bound. *)
Definition handlers (process : option unit) (e : exn) : R string :=
  if is_TimeoutExpired e then
    match process with
    | Some _ =>
        log OsKill;;
        mret ("Execution timed out after " +:+ str_timeout timeout +:+ " seconds.")
    | None =>
        raise (Exn ExceptionClass
                 "cannot access local variable 'process' where it is not associated with a value")
    end
  else if is_Exception e then
    mret ("Error executing code: " +:+ exn_msg e)
  else raise e.

(** The [finally] clause. *)
Definition cleanup : R unit :=
  log (OsExists temp_filename);;
  present ← MkR (fun h => (Ok (bool_decide (temp_filename ∈ files h)), h));
  if (present : bool) then
    r ← attemptR (host_op (OsUnlink temp_filename) (unlink_result w);;
                  set_files (fun fs => fs ∖ {[temp_filename]}));
    match r with
    | Ok _ => mret tt
    | Raise e =>
        if is_Exception e
        then log (OsPrint ("Error deleting temporary file: " +:+ exn_msg e))
        else raise e
    end
  else mret tt.

(** The [try] statement without its [finally] clause. The body is
    split where the local [process] is bound. *)
Definition try_clauses : R string :=
  r ← attemptR spawn;
  match r with
  | Raise e => handlers None e
  | Ok process =>
      r' ← attemptR collect;
      match r' with
      | Ok output => mret output
      | Raise e => handlers (Some process) e
      end
  end.

Definition _run_in_process : R string :=
  log (OsPrint ("🔄 Executing code in temporary file: " +:+ temp_filename));;
  finallyR try_clauses cleanup.

End Invocation.

End CodeExecutor.

(** ** CodeExecutor: the calls that no [try] protects *)

(** [CodeExecutor] above takes three calls of [_run_in_process] to return:
    [tempfile.gettempdir()], [print] and [process.kill()]. In the source
    none of them is protected: [gettempdir] and the first [print] come
    before the [try] statement, [kill] is called inside an [except] clause,
    and the second [print] inside the [except] clause of the [finally]
    clause. Here they can raise as well. *)
Module Unprotected.
Import CodeExecutor.

(** What these calls answer. When [gettempdir] returns, it returns
    [tempdir] of the world. *)
Record calls : Type := Calls {
  gettempdir_result : result unit;
  print_result : string -> result unit;
  kill_result : result unit
}.

Section Invocation.

Variable u : calls.
Variable w : world.
Variable code : option string.
Variable execution_id : ident.
Variable timeout : option Z.

Definition print (s : string) : R unit :=
  host_op (OsPrint s) (print_result u s).

(** The [except] clauses, for an exception [e] raised in the [try]
    body; [process] tells whether the local of that name is bound. An
    exception raised inside a clause is not handled by the clauses that
    follow it. *)
Definition handlers (process : option unit) (e : exn) : R string :=
  if is_TimeoutExpired e then
    match process with
    | Some _ =>
        host_op OsKill (kill_result u);;
        mret ("Execution timed out after " +:+ str_timeout timeout +:+ " seconds.")
    | None =>
        raise (Exn ExceptionClass
                 "cannot access local variable 'process' where it is not associated with a value")
    end
  else if is_Exception e then
    mret ("Error executing code: " +:+ exn_msg e)
  else raise e.

(** The [finally] clause. *)
Definition cleanup : R unit :=
  log (OsExists (temp_filename w execution_id));;
  present ← MkR (fun h =>
               (Ok (bool_decide (temp_filename w execution_id ∈ files h)), h));
  if (present : bool) then
    r ← attemptR (host_op (OsUnlink (temp_filename w execution_id)) (unlink_result w);;
                  set_files (fun fs => fs ∖ {[temp_filename w execution_id]}));
    match r with
    | Ok _ => mret tt
    | Raise e =>
        if is_Exception e
        then print ("Error deleting temporary file: " +:+ exn_msg e)
        else raise e
    end
  else mret tt.

(** The [try] statement without its [finally] clause; the [try] body is
    that of [CodeExecutor]. *)
Definition try_clauses : R string :=
  r ← attemptR (spawn w code execution_id);
  match r with
  | Raise e => handlers None e
  | Ok process =>
      r' ← attemptR (collect w timeout);
      match r' with
      | Ok output => mret output
      | Raise e => handlers (Some process) e
      end
  end.

Definition _run_in_process : R string :=
  match gettempdir_result u with Ok _ => mret tt | Raise e => raise e end;;
  print ("🔄 Executing code in temporary file: " +:+ temp_filename w execution_id);;
  finallyR try_clauses cleanup.

End Invocation.

End Unprotected.

(** ** NetworkUtils *)

Module NetworkUtils.

(** One lowercase hexadecimal digit, as [%x] prints it. *)
Definition hex_digit (d : N) : Ascii.ascii :=
  if (d <? 10)%N then Ascii.ascii_of_N (48 + d) else Ascii.ascii_of_N (87 + d).

(** The last [k] hexadecimal digits of [n], most significant first, in
    front of [acc]. *)
Fixpoint hex_digits (k : nat) (n : N) (acc : string) : string :=
  match k with
  | O => acc
  | S k' => hex_digits k' (n / 16)%N (String (hex_digit (n mod 16)%N) acc)
  end.

(** The number of hexadecimal digits of [n]; [0] has one. *)
Definition hex_length (n : N) : nat :=
  S (N.to_nat (N.log2 n / 4)).

(** ['%0{width}x' % n]: the hexadecimal digits of [n], padded with zeros
    on the left to [width] digits. *)
Definition format_0x (width : nat) (n : N) : string :=
  hex_digits (max width (hex_length n)) n "".

(** [s[i:i+2]] *)
Definition slice2 (s : string) (i : nat) : string :=
  String.substring i 2 s.

(** [sep.join(parts)] *)
Fixpoint join (sep : string) (parts : list string) : string :=
  match parts with
  | [] => ""
  | [p] => p
  | p :: rest => p +:+ sep +:+ join sep rest
  end.

(** [c.upper()] for a character of ASCII. *)
Definition upper_char (c : Ascii.ascii) : Ascii.ascii :=
  let n := Ascii.N_of_ascii c in
  if ((97 <=? n) && (n <=? 122))%N then Ascii.ascii_of_N (n - 32) else c.

(** [s.upper()] for a string of ASCII. *)
Fixpoint upper (s : string) : string :=
  match s with
  | EmptyString => EmptyString
  | String c s' => String (upper_char c) (upper s')
  end.

(** [get_mac], as a function of what [uuid.getnode()] returns. *)
Definition get_mac (node : N) : option string :=
  if negb (N.land (N.shiftr node 40) 1 =? 0)%N then None
  else
    Some (upper (join ":" (map (slice2 (format_0x 12 node)) [0; 2; 4; 6; 8; 10]))).

End NetworkUtils.

(** ** Start-up: [NetworkUtils.get_local_ip], [AgentService.initialize], [main] *)

Module Startup.

(** What the process does before the service runs, in order. *)
Inductive io_event : Type :=
| IoGetenv (name : string)
| IoPrint (s : string)
| IoGetFirst
| IoSocket
| IoConnect (address : string) (port : Z)
| IoGetsockname
| IoClose
| IoGetnode
| IoUpdate (computer_id : string) (ip : string) (mac : option string) (status : Z).

(** What the environment, the network and the backend answer. *)
Record world : Type := World {
  getenv_TOKEN : option string;
  get_first_result : result value;
  socket_result : result unit;
  connect_result : result unit;
  getsockname_result : result (string * Z);
  close_result : result unit;
  getnode : N;
  update_result : string -> string -> option string -> Z -> result value
}.

(** The field [computer] of the agent and what was done so far. *)
Record process : Type := Process {
  self_computer : option Computer;
  io_trace : list io_event
}.

(** A computation of the start-up that returns or raises. *)
Record M (A : Type) : Type := MkM { runM : process -> result A * process }.
Arguments MkM {A} runM.
Arguments runM {A} m p.

#[export] Instance M_ret : MRet M := fun A a => MkM (fun p => (Ok a, p)).
#[export] Instance M_bind : MBind M := fun A B f m =>
  MkM (fun p =>
    match runM m p with
    | (Ok a, p') => runM (f a) p'
    | (Raise e, p') => (Raise e, p')
    end).

Definition raise {A : Type} (e : exn) : M A := MkM (fun p => (Raise e, p)).

(** [try: m finally: fin] *)
Definition finallyM {A : Type} (m : M A) (fin : M unit) : M A :=
  MkM (fun p =>
    let '(r, p1) := runM m p in
    match runM fin p1 with
    | (Ok _, p2) => (r, p2)
    | (Raise e, p2) => (Raise e, p2)
    end).

Definition log (ev : io_event) : M unit :=
  MkM (fun p =>
    (Ok tt, {| self_computer := self_computer p; io_trace := io_trace p ++ [ev] |})).

(** An operation whose outcome the world decides. *)
Definition io {A : Type} (ev : io_event) (r : result A) : M A :=
  log ev;; match r with Ok a => mret a | Raise e => raise e end.

(** [self.computer = c] *)
Definition set_computer (c : Computer) : M unit :=
  MkM (fun p => (Ok tt, {| self_computer := Some c; io_trace := io_trace p |})).

(** [self.computer[key]] *)
Definition self_computer_item {A : Type} (key : Computer -> A) : M A :=
  MkM (fun p =>
    match self_computer p with
    | Some c => (Ok (key c), p)
    | None => (Raise (TypeError "'NoneType' object is not subscriptable"), p)
    end).

(** The reply of the backend as a [Computer] record. *)
Definition as_Computer (reply : value) : M Computer :=
  match reply with
  | VComputer c => mret c
  | _ => raise (TypeError "type object argument after ** must be a mapping")
  end.

Section Start.

Variable w : world.

(** [NetworkUtils.get_local_ip] *)
Definition get_local_ip : M string :=
  io IoSocket (socket_result w);;
  finallyM
    (io (IoConnect "8.8.8.8" 80) (connect_result w);;
     sockname ← io IoGetsockname (getsockname_result w);
     mret (sockname.1))
    (io IoClose (close_result w)).

(** [NetworkUtils.get_mac], reading the node of the host. *)
Definition get_mac : M (option string) :=
  log IoGetnode;; mret (NetworkUtils.get_mac (getnode w)).

(** [DatabaseClient.get_computer] *)
Definition get_computer : M Computer :=
  reply ← io IoGetFirst (get_first_result w);
  as_Computer reply.

(** [DatabaseClient.update_computer] with the data that [initialize]
    sends. *)
Definition update_computer (computer_id ip : string) (mac : option string)
    (status : Z) : M Computer :=
  reply ← io (IoUpdate computer_id ip mac status)
             (update_result w computer_id ip mac status);
  as_Computer reply.

(** [AgentService.initialize] *)
Definition initialize : M unit :=
  c ← get_computer;
  set_computer c;;
  ip ← get_local_ip;
  mac ← get_mac;
  computer_id ← self_computer_item c_id;
  c' ← update_computer computer_id ip mac 2;
  set_computer c';;
  name ← self_computer_item c_name;
  ip' ← self_computer_item c_ip;
  log (IoPrint ("📟 Agent initialized for computer: " +:+ name
                +:+ " (" +:+ ip' +:+ ")")).

(** How [main] ends: what the start-up did, the agent when one was
    constructed, with the state in which [main] left it, and the outcome
    of [main]. *)
Record ending : Type := Ending {
  startup : process;
  service : option agent;
  outcome_of_main : outcome unit
}.

(** [main]; [fuel] and [ev] are those of [AgentService.run]. *)
Definition main (fuel : nat) (ev : env) : ending :=
  let p0 := {| self_computer := None; io_trace := [IoGetenv "TOKEN"] |} in
  if match getenv_TOKEN w with
     | Some TOKEN => CodeExecutor.nonempty TOKEN
     | None => false
     end
  then
    match runM initialize p0 with
    | (Ok _, p) =>
        let '(st, o) := exec (AgentService.run fuel) ev (init_agent (self_computer p)) in
        {| startup := p; service := Some st; outcome_of_main := o |}
    | (Raise e, p) =>
        {| startup := p; service := Some (init_agent (self_computer p));
           outcome_of_main := Raised e |}
    end
  else
    {| startup :=
         {| self_computer := None;
            io_trace := io_trace p0
                        ++ [IoPrint "❌ ERROR: TOKEN environment variable is not set"] |};
       service := None;
       outcome_of_main := Returned tt |}.

End Start.

End Startup.

(** * Notions used in the statements *)

(** ** The ledger *)

(** The reading of [remove_active]'s result that requires the call itself
    to take the last identifier out. *)
Definition returns_true_only_when_emptying
    (self : ExecutionTracker.t) (i : ident) : Prop :=
  (ExecutionTracker.remove_active self i).2 = true ↔
  i ∈ ExecutionTracker.active_executions self
  ∧ ExecutionTracker.active_executions self ∖ {[i]} = ∅
  ∧ ExecutionTracker.active_executions self ≠ ∅.

Definition executed (st : agent) : gset ident :=
  ExecutionTracker.executed_tasks (tracker st).

Definition active (st : agent) : gset ident :=
  ExecutionTracker.active_executions (tracker st).

(** ** The runner *)

Module RunnerSpec.
Import CodeExecutor.

(** The host after some more events. *)
Definition logged (evs : list os_event) (h : host) : host :=
  {| files := files h; os_trace := os_trace h ++ evs |}.

(** The child was started: the file was written and [Popen] returned. *)
Definition started (w : world) (code : option string) : Prop :=
  open_result w = Ok tt ∧ is_Some code ∧ write_result w = Ok tt
  ∧ popen_result w = Ok tt.

(** Deleting the file raises nothing but an [Exception], as [os.unlink]
    does. *)
Definition cleanup_quiet (w : world) : Prop :=
  ∀ e, unlink_result w = Raise e → is_Exception e = true.

End RunnerSpec.

(** ** Tasks and the ledger *)

(** What a step of the task dispatched for [i] may do to the agent: it
    leaves the executed set and the created tasks alone, and adds at most
    [i] to the active set. *)
Definition frame (i : ident) (st st' : agent) : Prop :=
  executed st' = executed st
  ∧ spawned st' = spawned st
  ∧ active st' ⊆ active st ∪ {[i]}.

(** Every step of the coroutine [p] stays within [frame i]. *)
Fixpoint confined {A : Type} (i : ident) (p : prog A) : Prop :=
  match p with
  | Atomic f k => (∀ st, frame i st (f st).1) ∧ (∀ x, confined i (k x))
  | Await c k => ∀ r, confined i (k r)
  | Ret _ | Throw _ | Hang => True
  end.

Definition task_confined (i : ident) (t : task) : Prop :=
  match t with
  | Created p => confined i p
  | Waiting c k => ∀ r, confined i (k r)
  | Finished _ => True
  end.

(** The invariant of the event loop: there is one task per call of
    [create_task], working for the identifier it was created with; no
    identifier was dispatched twice; dispatched and active identifiers are
    marked executed. *)
Definition sys_inv (sys : system) : Prop :=
  Forall2 (fun t d => task_confined d.2 t) (sys_tasks sys) (spawned (sys_agent sys))
  ∧ NoDup (dispatched sys)
  ∧ (∀ i, i ∈ dispatched sys → i ∈ executed (sys_agent sys))
  ∧ active (sys_agent sys) ⊆ executed (sys_agent sys).

(** The agent after [handle_execution], case by case. *)
Definition handled (event : RealtimeEvent) (st : agent) : agent :=
  let execution := record event in
  let i := rec_id execution in
  if ExecutionTracker.is_executed (tracker st) i then st
  else
    let st1 :=
      emit (EMarkExecuted i)
        (with_tracker (ExecutionTracker.mark_executed (tracker st) i) st) in
    if truthy (rec_completed execution) then st1
    else
      emit (ECreateTask i)
        {| tracker := tracker st1; computer := computer st1;
           spawned := spawned st1 ++ [(execution, i)]; trace := trace st1 |}.

(** ** The dispatch pipeline run alone *)

(** The calls that write the two updates of an execution. *)
Definition started_write (i : ident) : call :=
  UpdateExecution i (VStr "🔄 Execution started...
") None.

Definition result_write (i : ident) (logs : value) : call :=
  UpdateExecution i logs (Some true).

(** The pipeline for [execution] gets as far as its result write and
    takes the identifier out of the active set. *)
Definition pipeline_completes (execution : Execution) (i : ident)
    (ev : env) (st : agent) : Prop :=
  let st' := (exec (AgentService.process_execution execution i) ev st).1 in
  ∃ new, trace st' = trace st ++ new
         ∧ (∃ logs, ECall (result_write i logs) ∈ new)
         ∧ ERemoveActive i ∈ new.

(** Status writes raise nothing but an [Exception]. *)
Definition status_writes_raise_exceptions (ev : env) : Prop :=
  ∀ tr cid status e,
    ev tr (UpdateComputer cid status) = Raise e → is_Exception e = true.

(** The writes of the execution and the runner return. *)
Definition execution_calls_return (ev : env) : Prop :=
  ∀ tr c,
    match c with
    | UpdateExecution _ _ _ | ExecuteCode _ _ => ∃ v, ev tr c = Ok v
    | _ => True
    end.

(** The events that [ls] delivers to the handler. *)
Definition delivered (ls : list label) : list RealtimeEvent :=
  omap (fun l => match l with Deliver event => Some event | Resume _ _ => None end) ls.

(** * Sample inputs *)

Module Sample.

Definition machine : Computer :=
  {| c_id := "c1"; c_name := "lab-1"; c_ip := "10.0.0.7";
     c_mac := "00:11:22:33:44:55"; c_status := 2 |}.

Definition job (id : ident) (completed : option bool) : RealtimeEvent :=
  {| action := "create";
     record := {| rec_id := id; rec_completed := completed;
                  rec_executable := Some "print('hello')" |} |}.

Definition cancelled : exn := Exn BaseExceptionClass "CancelledError".
Definition unreachable : exn := Exn ExceptionClass "network is unreachable".
Definition timed_out : exn :=
  Exn TimeoutExpiredClass "Command timed out after 1 seconds".

(** A host that does what it is asked and decodes bytes as they are. *)
Definition obliging (out err : string) (rc : Z) : CodeExecutor.world :=
  {| CodeExecutor.tempdir := "/tmp";
     CodeExecutor.open_result := Ok tt;
     CodeExecutor.write_result := Ok tt;
     CodeExecutor.popen_result := Ok tt;
     CodeExecutor.communicate_result :=
       Ok (String.list_byte_of_string out, String.list_byte_of_string err);
     CodeExecutor.returncode := rc;
     CodeExecutor.decode := fun b => Ok (String.string_of_list_byte b);
     CodeExecutor.unlink_result := Ok tt |}.

(** The same host with a child that outlives the timeout. *)
Definition sleepy : CodeExecutor.world :=
  {| CodeExecutor.tempdir := "/tmp";
     CodeExecutor.open_result := Ok tt;
     CodeExecutor.write_result := Ok tt;
     CodeExecutor.popen_result := Ok tt;
     CodeExecutor.communicate_result := Raise timed_out;
     CodeExecutor.returncode := 0;
     CodeExecutor.decode := fun b => Ok (String.string_of_list_byte b);
     CodeExecutor.unlink_result := Ok tt |}.

(** A host on which the file cannot be deleted. *)
Definition sticky : CodeExecutor.world :=
  {| CodeExecutor.tempdir := "/tmp";
     CodeExecutor.open_result := Ok tt;
     CodeExecutor.write_result := Ok tt;
     CodeExecutor.popen_result := Ok tt;
     CodeExecutor.communicate_result := Ok ([], []);
     CodeExecutor.returncode := 0;
     CodeExecutor.decode := fun b => Ok (String.string_of_list_byte b);
     CodeExecutor.unlink_result := Raise (Exn ExceptionClass "Permission denied") |}.

Definition empty_host : CodeExecutor.host :=
  {| CodeExecutor.files := ∅; CodeExecutor.os_trace := [] |}.

End Sample.

(** * Notions used in further statements *)

(** ** Hardware addresses *)

(** The hexadecimal digit of [n] at position [k], counted from the least
    significant one. *)
Fixpoint nibble (k : nat) (n : N) : N :=
  match k with
  | O => (n mod 16)%N
  | S k' => nibble k' (n / 16)%N
  end.

(** One uppercase hexadecimal digit. *)
Definition HEX (d : N) : Ascii.ascii :=
  if (d <? 10)%N then Ascii.ascii_of_N (48 + d) else Ascii.ascii_of_N (55 + d).

(** The octet of [n] at position [k], counted from the least significant
    one, as two uppercase hexadecimal digits. *)
Definition octet_text (n : N) (k : nat) : string :=
  String (HEX (nibble (2 * k + 1) n)) (String (HEX (nibble (2 * k) n)) "").

(** ** Hosts of the runner *)

(** A call of the host that, when it raises, raises an [Exception] that is
    not [TimeoutExpired]. *)
Definition raises_plainly {A : Type} (r : result A) : Prop :=
  ∀ e, r = Raise e → exn_cls e = ExceptionClass.

(** A host whose calls raise nothing but [Exception]s, and
    [TimeoutExpired] from [communicate] only. *)
Definition ordinary_host (w : CodeExecutor.world) : Prop :=
  raises_plainly (CodeExecutor.open_result w)
  ∧ raises_plainly (CodeExecutor.write_result w)
  ∧ raises_plainly (CodeExecutor.popen_result w)
  ∧ (∀ e, CodeExecutor.communicate_result w = Raise e → is_Exception e = true)
  ∧ (∀ b, raises_plainly (CodeExecutor.decode w b))
  ∧ RunnerSpec.cleanup_quiet w.

(** The invocation gets as far as [process.kill()]: the child was started
    and [communicate] raised [TimeoutExpired]. *)
Definition kill_reached (w : CodeExecutor.world) (code : option string) : bool :=
  match CodeExecutor.open_result w, code, CodeExecutor.write_result w,
        CodeExecutor.popen_result w, CodeExecutor.communicate_result w with
  | Ok _, Some _, Ok _, Ok _, Raise e => is_TimeoutExpired e
  | _, _, _, _, _ => false
  end.

(** The line that [_run_in_process] prints first. *)
Definition announcement (w : CodeExecutor.world) (execution_id : ident) : string :=
  "🔄 Executing code in temporary file: "
  +:+ CodeExecutor.temp_filename w execution_id.

(** The calls that no [try] protects all return. *)
Definition all_return (u : Unprotected.calls) : Prop :=
  Unprotected.gettempdir_result u = Ok tt
  ∧ (∀ s, Unprotected.print_result u s = Ok tt)
  ∧ Unprotected.kill_result u = Ok tt.

(** What an invocation adds to the trace of the host. *)
Definition invocation_trace (w : CodeExecutor.world) (code : option string)
    (execution_id : ident) (timeout : option Z) (h : CodeExecutor.host)
    : list CodeExecutor.os_event :=
  drop (length (CodeExecutor.os_trace h))
    (CodeExecutor.os_trace
       (CodeExecutor.runR
          (CodeExecutor._run_in_process w code execution_id timeout) h).2).

(** ** Backends *)

(** Every status write returns the record of the machine. *)
Definition status_writes_return (ev : env) : Prop :=
  ∀ tr cid status, ∃ c, ev tr (UpdateComputer cid status) = Ok (VComputer c).

(** One of the three calls that the pipeline of [execution] awaits between
    [add_active] and [remove_active] raises [e], and the ones before it
    return. *)
Definition pipeline_call_raises (ev : env) (execution : Execution) (i : ident)
    (e : exn) : Prop :=
  (∀ tr, ev tr (started_write i) = Raise e)
  ∨ (∀ tr, ∃ v, ev tr (started_write i) = Ok v)
    ∧ ((∀ tr, ev tr (ExecuteCode (rec_executable execution) i) = Raise e)
       ∨ (∀ tr, ∃ v, ev tr (ExecuteCode (rec_executable execution) i) = Ok v)
         ∧ (∀ tr logs, ev tr (result_write i logs) = Raise e)).

(** ** Deliveries *)

(** The events of [evs] whose identifier is neither in [seen] nor carried
    by an earlier event of [evs]. *)
Fixpoint first_events (seen : gset ident) (evs : list RealtimeEvent)
    : list RealtimeEvent :=
  match evs with
  | [] => []
  | event :: evs' =>
      let i := rec_id (record event) in
      if bool_decide (i ∈ seen) then first_events seen evs'
      else event :: first_events ({[i]} ∪ seen) evs'
  end.

(** The arguments of the task that [handle_execution] creates for an
    event. *)
Definition task_arguments (event : RealtimeEvent) : Execution * ident :=
  (record event, rec_id (record event)).

(** ** Status transitions *)

(** The active set that the adds and removes of a trace produce. *)
Definition active_at (tr : list effect) : gset ident :=
  foldl (fun A a =>
           match a with
           | EAddActive i => {[i]} ∪ A
           | ERemoveActive i => A ∖ {[i]}
           | _ => A
           end) ∅ tr.

(** The status that is due after the actions of [tr]: Running (1) right
    after an add to an empty active set, Idle (2) right after a remove
    that has left the active set empty, none otherwise. *)
Definition due (tr : list effect) : option Z :=
  match last tr with
  | Some (EAddActive _) =>
      if bool_decide (active_at (removelast tr) = ∅) then Some 1%Z else None
  | Some (ERemoveActive _) =>
      if bool_decide (active_at tr = ∅) then Some 2%Z else None
  | _ => None
  end.

(** The action [a] that follows [tr] is a write of the status [s] exactly
    when [s] is due after [tr]. *)
Definition follows_due (tr : list effect) (a : effect) : Prop :=
  ∀ s, due tr = Some s ↔ ∃ cid, a = ECall (UpdateComputer cid s).

(** Every action of [tr] follows what is due before it. *)
Definition disciplined (tr : list effect) : Prop :=
  ∀ tr1 a tr2, tr = tr1 ++ a :: tr2 → follows_due tr1 a.

(** The ledger agrees with the trace, and the agent has its record. *)
Definition sound (st : agent) : Prop :=
  active st = active_at (trace st) ∧ computer st ≠ None.

(** A state between two steps of the event loop. *)
Definition settled (st : agent) : Prop :=
  sound st ∧ due (trace st) = None.

(** What an uninterrupted step may do: nothing to the trace, or one
    action that is no call, when no status is due. *)
Definition quiet_step (st st' : agent) : Prop :=
  sound st'
  ∧ (trace st' = trace st
     ∨ ∃ a, trace st' = trace st ++ [a]
            ∧ due (trace st) = None ∧ ∀ c, a ≠ ECall c).

(** The coroutine [p], started in [st] and resumed after each [await] in
    any settled state, takes only quiet steps, awaits a call only when the
    call follows what is due, and ends in [Q] or, raising, in [Qe]. *)
Fixpoint wp {A : Type} (p : prog A) (st : agent)
    (Q : A -> agent -> Prop) (Qe : exn -> agent -> Prop) : Prop :=
  match p with
  | Ret a => Q a st
  | Throw e => Qe e st
  | Hang => due (trace st) = None
  | Atomic f k => quiet_step st (f st).1 ∧ wp (k (f st).2) (f st).1 Q Qe
  | Await c k =>
      follows_due (trace st) (ECall c)
      ∧ ∀ r st', settled st' → wp (k r) st' Q Qe
  end.

(** The coroutine ends with no status due. *)
Definition ends_settled {A : Type} (p : prog A) (st : agent) : Prop :=
  wp p st (fun _ st' => settled st') (fun _ st' => settled st').

Definition task_disciplined (t : task) : Prop :=
  match t with
  | Created p => ∀ st, settled st → ends_settled p st
  | Waiting c k => ∀ r st, settled st → ends_settled (k r) st
  | Finished _ => True
  end.

(** The invariant of the event loop for the status writes. *)
Definition status_inv (sys : system) : Prop :=
  settled (sys_agent sys)
  ∧ disciplined (trace (sys_agent sys))
  ∧ Forall task_disciplined (sys_tasks sys).

(** ** Removals from the active set *)

(** Every uninterrupted step of the coroutine [p] only adds to the trace,
    and what it adds removes no identifier but [i] from the active set. *)
Fixpoint removes_own {A : Type} (i : ident) (p : prog A) : Prop :=
  match p with
  | Atomic f k =>
      (∀ st, ∃ new, trace (f st).1 = trace st ++ new
                    ∧ ∀ i', ERemoveActive i' ∈ new → i' = i)
      ∧ ∀ x, removes_own i (k x)
  | Await c k => ∀ r, removes_own i (k r)
  | Ret _ | Throw _ | Hang => True
  end.

Definition task_removes_own (i : ident) (t : task) : Prop :=
  match t with
  | Created p => removes_own i p
  | Waiting c k => ∀ r, removes_own i (k r)
  | Finished _ => True
  end.

(** Every task removes its own identifier only. *)
Definition own_inv (sys : system) : Prop :=
  Forall2 (fun t d => task_removes_own d.2 t)
    (sys_tasks sys) (spawned (sys_agent sys)).

(** The task at position [j], dispatched for [i], has ended with [i] still
    in the active set. *)
Definition stuck (sys : system) (j : nat) (i : ident) : Prop :=
  (∃ o, sys_tasks sys !! j = Some (Finished o))
  ∧ dispatched sys !! j = Some i
  ∧ i ∈ active (sys_agent sys).

(** ** Start-up *)

(** What [get_local_ip] returns or raises: it depends on the world
    alone. *)
Definition local_ip (w : Startup.world) : result string :=
  (Startup.runM (Startup.get_local_ip w)
     {| Startup.self_computer := None; Startup.io_trace := [] |}).1.

(** The writes to the backend among the events of the start-up, by their
    arguments. *)
Definition updates (tr : list Startup.io_event)
    : list (string * string * option string * Z) :=
  omap (λ ev, match ev with
              | Startup.IoUpdate cid ip mac status => Some (cid, ip, mac, status)
              | _ => None
              end) tr.

(** The token is set and not empty. *)
Definition has_token (w : Startup.world) : Prop :=
  ∃ TOKEN, Startup.getenv_TOKEN w = Some TOKEN ∧ TOKEN ≠ EmptyString.

(** The process when [main] is entered, after [os.getenv]. *)
Definition entered : Startup.process :=
  {| Startup.self_computer := None;
     Startup.io_trace := [Startup.IoGetenv "TOKEN"] |}.

(** * Further sample inputs *)

Module Sample2.

(** A host on which the interpreter cannot be started. *)
Definition no_interpreter : CodeExecutor.world :=
  {| CodeExecutor.tempdir := "/tmp";
     CodeExecutor.open_result := Ok tt;
     CodeExecutor.write_result := Ok tt;
     CodeExecutor.popen_result :=
       Raise (Exn ExceptionClass "[Errno 2] No such file or directory");
     CodeExecutor.communicate_result := Ok ([], []);
     CodeExecutor.returncode := 0;
     CodeExecutor.decode := fun b => Ok (String.string_of_list_byte b);
     CodeExecutor.unlink_result := Ok tt |}.

(** A host whose child exits with code 3 after writing bytes that are not
    UTF-8 to its standard output. *)
Definition garbled : CodeExecutor.world :=
  {| CodeExecutor.tempdir := "/tmp";
     CodeExecutor.open_result := Ok tt;
     CodeExecutor.write_result := Ok tt;
     CodeExecutor.popen_result := Ok tt;
     CodeExecutor.communicate_result := Ok ([Byte.xff], []);
     CodeExecutor.returncode := 3;
     CodeExecutor.decode := fun b =>
       match b with
       | [] => Ok ""
       | _ => Raise (Exn ExceptionClass "'utf-8' codec can't decode byte 0xff")
       end;
     CodeExecutor.unlink_result := Ok tt |}.

(** A backend that returns the machine's record for every status write
    and a text for everything else. *)
Definition healthy : env :=
  fun _ c =>
    match c with
    | UpdateComputer _ _ => Ok (VComputer Sample.machine)
    | _ => Ok (VStr "ok")
    end.

(** A backend that takes status writes and refuses the writes of
    executions. *)
Definition read_only : env :=
  fun _ c =>
    match c with
    | UpdateComputer _ _ => Ok (VComputer Sample.machine)
    | UpdateExecution _ _ _ => Raise Sample.unreachable
    | _ => Ok (VStr "ok")
    end.

(** A process that may not signal its child. *)
Definition unkillable : Unprotected.calls :=
  {| Unprotected.gettempdir_result := Ok tt;
     Unprotected.print_result := fun _ => Ok tt;
     Unprotected.kill_result :=
       Raise (Exn ExceptionClass "[Errno 1] Operation not permitted") |}.

(** A backend on which the Running write returns the record of the
    machine under another identifier. *)
Definition renaming : env :=
  fun _ c =>
    match c with
    | UpdateComputer _ 1 =>
        Ok (VComputer {| c_id := "c2"; c_name := "lab-1"; c_ip := "10.0.0.7";
                         c_mac := "00:11:22:33:44:55"; c_status := 1 |})
    | UpdateComputer _ _ => Ok (VComputer Sample.machine)
    | _ => Ok (VStr "ok")
    end.

(** A host with a token, a network and a backend that stores what it is
    sent. *)
Definition online : Startup.world :=
  {| Startup.getenv_TOKEN := Some "secret";
     Startup.get_first_result := Ok (VComputer Sample.machine);
     Startup.socket_result := Ok tt;
     Startup.connect_result := Ok tt;
     Startup.getsockname_result := Ok ("192.168.1.20", 54321%Z);
     Startup.close_result := Ok tt;
     Startup.getnode := 0x001122aabbcc;
     Startup.update_result := fun cid ip mac status =>
       Ok (VComputer {| c_id := cid; c_name := "lab-1"; c_ip := ip;
                        c_mac := default "" mac; c_status := status |}) |}.

(** The same host without a route to the outside. *)
Definition offline : Startup.world :=
  {| Startup.getenv_TOKEN := Some "secret";
     Startup.get_first_result := Ok (VComputer Sample.machine);
     Startup.socket_result := Ok tt;
     Startup.connect_result := Raise Sample.unreachable;
     Startup.getsockname_result := Ok ("0.0.0.0", 0%Z);
     Startup.close_result := Ok tt;
     Startup.getnode := 0x001122aabbcc;
     Startup.update_result := fun _ _ _ _ => Raise Sample.unreachable |}.

(** The same host started without a token. *)
Definition tokenless : Startup.world :=
  {| Startup.getenv_TOKEN := None;
     Startup.get_first_result := Ok (VComputer Sample.machine);
     Startup.socket_result := Ok tt;
     Startup.connect_result := Ok tt;
     Startup.getsockname_result := Ok ("192.168.1.20", 54321%Z);
     Startup.close_result := Ok tt;
     Startup.getnode := 0x001122aabbcc;
     Startup.update_result := fun _ _ _ _ => Ok (VComputer Sample.machine) |}.

End Sample2.

(** * Properties *)

(** ** The ledger *)

Module TrackerFacts.
Import ExecutionTracker.

Lemma size_zero_empty (X : gset ident) : size X = 0 ↔ X = ∅.
Proof. rewrite size_empty_iff. by unfold_leibniz. Qed.

Lemma difference_singleton_empty (X : gset ident) (i : ident) :
  X ∖ {[i]} = ∅ ↔ X ⊆ {[i]}.
Proof.
  split.
  - intros H j Hj. destruct (decide (j = i)) as [->|Hne]; [set_solver|].
    assert (j ∈ X ∖ {[i]}) as Hd by set_solver.
    rewrite H in Hd. set_solver.
  - intros H. apply set_eq. intros j. set_solver.
Qed.

Lemma remove_active_active (self : t) (i : ident) :
  active_executions (remove_active self i).1 = active_executions self ∖ {[i]}.
Proof.
  unfold remove_active; simpl. case_bool_decide; simpl; [done|].
  set_solver.
Qed.

Lemma remove_active_executed (self : t) (i : ident) :
  executed_tasks (remove_active self i).1 = executed_tasks self.
Proof. unfold remove_active; simpl. by case_bool_decide. Qed.

Lemma remove_active_result (self : t) (i : ident) :
  (remove_active self i).2 = bool_decide (active_executions self ∖ {[i]} = ∅).
Proof.
  rewrite <- remove_active_active. unfold remove_active; simpl.
  apply bool_decide_ext, size_zero_empty.
Qed.

Lemma add_active_result (self : t) (i : ident) :
  (add_active self i).2 = bool_decide (active_executions self = ∅).
Proof. apply bool_decide_ext, size_zero_empty. Qed.

End TrackerFacts.

(** C2, as stated, fails on the empty ledger: [remove_active] answers
    [True] although the identifier was not there and nothing was
    removed. *)
Lemma remove_active_on_empty_returns_true :
  ¬ returns_true_only_when_emptying ExecutionTracker.init (Some "e1").
Proof.
  unfold returns_true_only_when_emptying.
  intros [H _]. destruct H as (Hin & _); [by vm_compute|].
  by apply not_elem_of_empty in Hin.
Qed.

(** C2, amended: [remove_active] takes [execution_id] out of the active
    set when it is there and changes nothing else, and it returns [True]
    exactly when the active set is empty right after the call, that is,
    when the set held no identifier other than [execution_id] before it.
    On an empty set the answer is therefore [True]; with an absent
    identifier while others remain it is [False]. *)
Theorem remove_active_true_iff_empty_after (self : ExecutionTracker.t) (i : ident) :
  let '(self', was_last) := ExecutionTracker.remove_active self i in
  ExecutionTracker.active_executions self'
    = ExecutionTracker.active_executions self ∖ {[i]}
  ∧ ExecutionTracker.executed_tasks self' = ExecutionTracker.executed_tasks self
  ∧ (was_last = true ↔ ExecutionTracker.active_executions self' = ∅)
  ∧ (was_last = true ↔ ExecutionTracker.active_executions self ⊆ {[i]})
  ∧ (ExecutionTracker.active_executions self = ∅ → was_last = true)
  ∧ (∀ j, j ≠ i → j ∈ ExecutionTracker.active_executions self → was_last = false).
Proof.
  pose proof (TrackerFacts.remove_active_active self i) as Ha.
  pose proof (TrackerFacts.remove_active_executed self i) as He.
  pose proof (TrackerFacts.remove_active_result self i) as Hr.
  destruct (ExecutionTracker.remove_active self i) as [self' was_last].
  simpl in *. subst was_last. rewrite Ha.
  split; [done|]. split; [done|].
  split; [by rewrite bool_decide_eq_true|].
  split; [rewrite bool_decide_eq_true; apply TrackerFacts.difference_singleton_empty|].
  split; [intros ->; apply bool_decide_eq_true; set_solver|].
  intros j Hne Hj. apply bool_decide_eq_false. set_solver.
Qed.

(** The amended statement at a ledger with two active identifiers. *)
Lemma remove_active_true_iff_empty_after_witness :
  (ExecutionTracker.remove_active
     (ExecutionTracker.Build {[Some "a"; Some "b"]} {[Some "a"; Some "b"]})
     (Some "a")).2 = false.
Proof.
  pose proof (remove_active_true_iff_empty_after
    (ExecutionTracker.Build {[Some "a"; Some "b"]} {[Some "a"; Some "b"]})
    (Some "a")) as H.
  destruct (ExecutionTracker.remove_active _ _) as [self' was_last].
  destruct H as (_ & _ & _ & _ & _ & H).
  apply (H (Some "b")); [done | vm_compute; reflexivity].
Defined.

(** ** The runner *)

Module RunnerFacts.
Import CodeExecutor RunnerSpec.

Ltac unfold_R :=
  unfold finallyR, host_op, attemptR, log, set_files, raise,
    mbind, R_bind, mret, R_ret; simpl.

Lemma finallyR_run {A : Type} (m : R A) (fin : R unit) (h : host) :
  runR (finallyR m fin) h =
    let '(r, h1) := runR m h in
    let '(c, h2) := runR fin h1 in
    (match c with Ok _ => r | Raise e => Raise e end, h2).
Proof.
  unfold_R. destruct (runR m h) as [r h1].
  destruct (runR fin h1) as [[[]|e] h2]; [by destruct r|done].
Qed.

Lemma log_then {A : Type} (ev : os_event) (m : R A) (h : host) :
  runR (log ev;; m) h = runR m (logged [ev] h).
Proof. done. Qed.

Section Invocation.

Variable w : world.
Variable code : option string.
Variable execution_id : ident.
Variable timeout : option Z.

Let path := temp_filename w execution_id.

(** What the [finally] clause does, case by case. *)
Lemma cleanup_spec (h : host) :
  runR (cleanup w execution_id) h =
    if bool_decide (path ∈ files h) then
      match unlink_result w with
      | Ok _ =>
          (Ok tt, {| files := files h ∖ {[path]};
                     os_trace := os_trace h ++ [OsExists path; OsUnlink path] |})
      | Raise e =>
          if is_Exception e then
            (Ok tt, logged [OsExists path; OsUnlink path;
                            OsPrint ("Error deleting temporary file: " +:+ exn_msg e)] h)
          else (Raise e, logged [OsExists path; OsUnlink path] h)
      end
    else (Ok tt, logged [OsExists path] h).
Proof.
  unfold cleanup, logged. unfold_R. fold path.
  case_bool_decide; simpl; [|done].
  destruct (unlink_result w) as [[]|e]; simpl.
  - by rewrite <- !app_assoc.
  - destruct (is_Exception e); simpl; by rewrite <- !app_assoc.
Qed.

(** [_run_in_process] is its [try] clauses followed by the [finally]
    clause, whose exception, if any, replaces the outcome. *)
Lemma run_in_process_unfold (h : host) :
  runR (_run_in_process w code execution_id timeout) h =
    let '(r, h1) :=
      runR (try_clauses w code execution_id timeout)
           (logged [OsPrint ("🔄 Executing code in temporary file: " +:+ path)] h) in
    let '(c, h2) := runR (cleanup w execution_id) h1 in
    (match c with Ok _ => r | Raise e => Raise e end, h2).
Proof.
  unfold _run_in_process. rewrite log_then, finallyR_run. done.
Qed.

Lemma spawn_started (h : host) :
  started w code →
  ∃ c, code = Some c ∧
  runR (spawn w code execution_id) h =
    (Ok tt, {| files := {[path]} ∪ files h;
               os_trace := os_trace h ++ [OsOpen path; OsWrite path c; OsPopen path] |}).
Proof.
  intros (Ho & [c ->] & Hw & Hp). exists c. split; [done|].
  unfold spawn, write_code. unfold_R. fold path.
  rewrite Ho, Hw, Hp. simpl. by rewrite <- !app_assoc.
Qed.

(** The [try] clauses when the child finished and its output decodes. *)
Lemma try_clauses_completed (h : host) out err out_s err_s :
  started w code →
  communicate_result w = Ok (out, err) →
  decode w out = Ok out_s →
  decode w err = Ok err_s →
  ∃ c, code = Some c ∧
  runR (try_clauses w code execution_id timeout) h =
    (Ok (compose_output out_s err_s (returncode w)),
     {| files := {[path]} ∪ files h;
        os_trace := os_trace h ++ [OsOpen path; OsWrite path c; OsPopen path;
                                   OsCommunicate timeout] |}).
Proof.
  intros Hs Hc Ho He. destruct (spawn_started h Hs) as (c & Hcode & Hsp).
  exists c. split; [done|].
  unfold try_clauses, collect.
  unfold mbind at 1. unfold R_bind at 1. cbn [runR].
  unfold attemptR at 1. cbn [runR]. rewrite Hsp.
  unfold_R. rewrite Hc. simpl. rewrite Ho. simpl. rewrite He. simpl.
  by rewrite <- !app_assoc.
Qed.

(** The [try] clauses when [communicate] raised [TimeoutExpired]. *)
Lemma try_clauses_timed_out (h : host) e :
  started w code →
  communicate_result w = Raise e →
  is_TimeoutExpired e = true →
  ∃ c, code = Some c ∧
  runR (try_clauses w code execution_id timeout) h =
    (Ok ("Execution timed out after " +:+ str_timeout timeout +:+ " seconds."),
     {| files := {[path]} ∪ files h;
        os_trace := os_trace h ++ [OsOpen path; OsWrite path c; OsPopen path;
                                   OsCommunicate timeout; OsKill] |}).
Proof.
  intros Hs Hc He. destruct (spawn_started h Hs) as (c & Hcode & Hsp).
  exists c. split; [done|].
  unfold try_clauses, collect, handlers.
  unfold mbind at 1. unfold R_bind at 1. cbn [runR].
  unfold attemptR at 1. cbn [runR]. rewrite Hsp.
  unfold_R. rewrite Hc. simpl. rewrite He. simpl.
  by rewrite <- !app_assoc.
Qed.

(** After the [try] clauses of a started child the file is there, so
    the [finally] clause tries to delete it. *)
Lemma cleanup_after_start (h : host) :
  cleanup_quiet w →
  path ∈ files h →
  ∃ h', runR (cleanup w execution_id) h = (Ok tt, h')
        ∧ (unlink_result w = Ok tt → path ∉ files h').
Proof.
  intros Hq Hin. rewrite cleanup_spec, bool_decide_true by done.
  destruct (unlink_result w) as [[]|e] eqn:Hu.
  - eexists; split; [done|]. intros _. simpl. set_solver.
  - rewrite (Hq e) by done. eexists; split; [done|]. done.
Qed.

End Invocation.
End RunnerFacts.

Lemma append_assoc (s1 s2 s3 : string) : (s1 +:+ s2) +:+ s3 = s1 +:+ s2 +:+ s3.
Proof.
  induction s1 as [|c s1 IH]; [done|].
  change (String c ((s1 +:+ s2) +:+ s3) = String c (s1 +:+ s2 +:+ s3)).
  by rewrite IH.
Qed.

Lemma append_empty_r (s : string) : s +:+ "" = s.
Proof.
  induction s as [|c s IH]; [done|].
  change (String c (s +:+ "") = String c s). by rewrite IH.
Qed.

Section RunnerTheorems.

Import CodeExecutor.

(** C6: when the child was started, finished and its output decodes, the
  text returned is the decoded standard output; then, when standard
  error is not empty, the [Errors:] part with the decoded standard error,
  set off by an empty line when standard output is not empty; then, when
  the exit code is not 0, the note with the exit code. A silent run with
  exit code 0 returns exactly the standard output; a run that writes to
  standard error and exits with 1 returns the standard output, the
  [Errors:] part and the note that names 1. *)
Theorem run_in_process_result_composition
  (w : world) (code : option string) (execution_id : ident)
  (timeout : option Z) (h : host) (out err : list Byte.byte) (out_s err_s : string) :
RunnerSpec.started w code →
communicate_result w = Ok (out, err) →
decode w out = Ok out_s →
decode w err = Ok err_s →
RunnerSpec.cleanup_quiet w →
let separator := if nonempty out_s then LF +:+ LF else "" in
let errors := if nonempty err_s then separator +:+ "Errors:" +:+ LF +:+ err_s else "" in
let note :=
  if bool_decide (returncode w ≠ 0%Z)
  then LF +:+ LF +:+ "Process exited with code " +:+ pretty (returncode w)
  else "" in
(runR (_run_in_process w code execution_id timeout) h).1
  = Ok (out_s +:+ errors +:+ note)
∧ (err_s = "" → returncode w = 0%Z →
   (runR (_run_in_process w code execution_id timeout) h).1 = Ok out_s)
∧ (err_s ≠ "" → returncode w = 1%Z →
   (runR (_run_in_process w code execution_id timeout) h).1
     = Ok (out_s +:+ separator +:+ "Errors:" +:+ LF +:+ err_s
           +:+ LF +:+ LF +:+ "Process exited with code 1")).
Proof.
intros Hs Hc Ho He Hq separator errors note.
assert ((runR (_run_in_process w code execution_id timeout) h).1
        = Ok (out_s +:+ errors +:+ note)) as Hmain.
{ rewrite RunnerFacts.run_in_process_unfold.
  destruct (RunnerFacts.try_clauses_completed w code execution_id timeout
              (RunnerSpec.logged [OsPrint ("🔄 Executing code in temporary file: " +:+ temp_filename w execution_id)] h) out err out_s err_s Hs Hc Ho He)
    as (c & _ & ->).
  edestruct (RunnerFacts.cleanup_after_start w execution_id) as (h' & -> & _);
    [done| |].
  { simpl. set_solver. }
  simpl. f_equal. unfold compose_output, errors, note, separator.
  destruct (nonempty err_s), (nonempty out_s), (bool_decide (returncode w ≠ 0%Z));
    rewrite ?append_assoc, ?append_empty_r; done. }
split; [done|]. split.
- intros -> Hrc. rewrite Hmain. unfold note, errors. rewrite Hrc. simpl.
  by rewrite append_empty_r.
- intros Hne Hrc. rewrite Hmain. unfold note, errors. rewrite Hrc. simpl.
  destruct err_s; [done|]. simpl. by rewrite ?append_assoc.
Qed.

(** C7: when the child was started and [communicate] raises
  [TimeoutExpired], the child is killed, right after [communicate] and
  once, and the text returned is the one sentence that names the timeout
  in seconds: nothing of what the child wrote is part of it. *)
Theorem run_in_process_timeout
  (w : world) (code : option string) (execution_id : ident) (t : Z)
  (h : host) (e : exn) :
RunnerSpec.started w code →
communicate_result w = Raise e →
is_TimeoutExpired e = true →
RunnerSpec.cleanup_quiet w →
let path := temp_filename w execution_id in
let '(r, h') := runR (_run_in_process w code execution_id (Some t)) h in
r = Ok ("Execution timed out after " +:+ pretty t +:+ " seconds.")
∧ ∃ c after,
    code = Some c
    ∧ os_trace h' =
        os_trace h
        ++ [OsPrint ("🔄 Executing code in temporary file: " +:+ path);
            OsOpen path; OsWrite path c; OsPopen path;
            OsCommunicate (Some t); OsKill; OsExists path; OsUnlink path]
        ++ after
    ∧ OsKill ∉ after.
Proof.
intros Hs Hc He Hq path.
rewrite RunnerFacts.run_in_process_unfold.
destruct (RunnerFacts.try_clauses_timed_out w code execution_id (Some t)
            (RunnerSpec.logged [OsPrint ("🔄 Executing code in temporary file: " +:+ temp_filename w execution_id)] h) e Hs Hc He)
  as (c & Hcode & ->).
rewrite RunnerFacts.cleanup_spec, bool_decide_true by (simpl; set_solver).
fold path. unfold RunnerSpec.logged. simpl.
destruct (unlink_result w) as [[]|e'] eqn:Hu.
- split; [done|]. exists c, []. split; [done|]. split; [|by apply not_elem_of_nil].
  simpl. by rewrite <- !app_assoc.
- rewrite (Hq e') by done. split; [done|].
  exists c, [OsPrint ("Error deleting temporary file: " +:+ exn_msg e')].
  split; [done|]. split; [simpl; by rewrite <- !app_assoc|].
  rewrite list_elem_of_singleton. done.
Qed.

(** C8: whatever the host answers, the [finally] clause runs after the
  [try] clauses: it asks whether the file exists and, exactly when it
  does, tries to delete it. An [Exception] raised by the deletion is
  printed and changes nothing of what the invocation returns; when the
  deletion returns the file is gone, so that a file is left behind only
  by a deletion that raised. *)
Theorem run_in_process_cleanup
  (w : world) (code : option string) (execution_id : ident)
  (timeout : option Z) (h : host) :
let path := temp_filename w execution_id in
let '(r_try, h_try) :=
  runR (log (OsPrint ("🔄 Executing code in temporary file: " +:+ path));;
        try_clauses w code execution_id timeout) h in
let '(r, h') := runR (_run_in_process w code execution_id timeout) h in
(∃ after, os_trace h' = os_trace h_try ++ OsExists path :: after
          ∧ (path ∈ files h_try → ∃ after', after = OsUnlink path :: after')
          ∧ (path ∉ files h_try → after = []))
∧ (∀ e, path ∈ files h_try → unlink_result w = Raise e → is_Exception e = true →
     r = r_try
     ∧ os_trace h' =
         os_trace h_try
         ++ [OsExists path; OsUnlink path;
             OsPrint ("Error deleting temporary file: " +:+ exn_msg e)])
∧ (unlink_result w = Ok tt → r = r_try ∧ path ∉ files h')
∧ (path ∈ files h' → ∃ e, unlink_result w = Raise e).
Proof.
intros path. rewrite RunnerFacts.log_then, RunnerFacts.run_in_process_unfold.
fold path.
destruct (runR (try_clauses w code execution_id timeout) _) as [r_try h_try].
rewrite RunnerFacts.cleanup_spec. fold path.
case_bool_decide as Hin.
- destruct (unlink_result w) as [[]|e] eqn:Hu.
  + split; [exists [OsUnlink path]; split; [done|]; split; [eauto|done]|].
    split; [done|]. split; [intros _; split; [by destruct r_try|simpl; set_solver]|].
    simpl. set_solver.
  + destruct (is_Exception e) eqn:He; unfold RunnerSpec.logged; simpl.
    * split; [eexists; split; [done|]; split; [eauto|done]|].
      split; [intros e' _ [= <-] _; split; [by destruct r_try|done]|].
      split; [done|eauto].
    * split; [eexists; split; [done|]; split; [eauto|done]|].
      split; [intros e' _ [= <-] He'; congruence|].
      split; [done|eauto].
- unfold RunnerSpec.logged; simpl.
  split; [exists []; split; [done|]; split; [done|done]|].
  split; [done|]. split; [intros _; split; [by destruct r_try|done]|done].
Qed.

(** C6 at a child that prints to both streams and exits with code 1. *)
Lemma run_in_process_result_composition_witness :
(runR (_run_in_process (Sample.obliging "partial" "boom" 1)
         (Some "import sys") (Some "e1") None) Sample.empty_host).1
= Ok ("partial" +:+ LF +:+ LF +:+ "Errors:" +:+ LF +:+ "boom"
      +:+ LF +:+ LF +:+ "Process exited with code 1").
Proof.
edestruct (run_in_process_result_composition
             (Sample.obliging "partial" "boom" 1) (Some "import sys") (Some "e1")
             None Sample.empty_host) as (_ & _ & H).
- repeat split; try reflexivity. by eexists.
- reflexivity.
- reflexivity.
- reflexivity.
- intros e He. discriminate He.
- apply H; [discriminate|reflexivity].
Defined.

(** C7 at a child that outlives a timeout of one second. *)
Lemma run_in_process_timeout_witness :
(runR (_run_in_process Sample.sleepy (Some "import time") (Some "e1")
         (Some 1%Z)) Sample.empty_host).1
= Ok "Execution timed out after 1 seconds.".
Proof.
pose proof (run_in_process_timeout Sample.sleepy (Some "import time")
              (Some "e1") 1 Sample.empty_host Sample.timed_out) as H.
destruct (runR _ _) as [r h']. simpl. apply H.
- repeat split; try reflexivity. by eexists.
- reflexivity.
- reflexivity.
- intros e He. discriminate He.
Defined.

(** C8 at a host on which the file cannot be deleted: the file is left
  behind, and the failure is the last thing printed. *)
Lemma run_in_process_cleanup_witness :
let '(r, h') :=
  runR (_run_in_process Sample.sticky (Some "pass") (Some "e1") None)
    Sample.empty_host in
r = Ok "" ∧ last (os_trace h')
            = Some (OsPrint "Error deleting temporary file: Permission denied").
Proof.
pose proof (run_in_process_cleanup Sample.sticky (Some "pass") (Some "e1") None
              Sample.empty_host) as H.
cbv zeta in H.
destruct (runR (log _;; _) _) as [r_try h_try] eqn:Htry.
destruct (runR (_run_in_process _ _ _ _) _) as [r h'].
destruct H as (_ & H & _).
destruct (H (Exn ExceptionClass "Permission denied")) as [-> ->];
  [|reflexivity|reflexivity|].
- injection Htry as _ <-. vm_compute. reflexivity.
- injection Htry as <- <-. split; reflexivity.
Defined.

End RunnerTheorems.

(** ** Coroutines that stay within their frame *)

Module AgentFacts.
Import AgentService.

Lemma frame_refl (i : ident) (st : agent) : frame i st st.
Proof. unfold frame. set_solver. Qed.

Lemma frame_trans (i : ident) (st1 st2 st3 : agent) :
  frame i st1 st2 → frame i st2 st3 → frame i st1 st3.
Proof.
  unfold frame. intros (He1 & Hs1 & Ha1) (He2 & Hs2 & Ha2).
  split; [congruence|]. split; [congruence|]. set_solver.
Qed.

Lemma frame_emit (i : ident) (a : effect) (st : agent) : frame i st (emit a st).
Proof. unfold frame, emit, executed, active. simpl. set_solver. Qed.

Lemma confined_bind {A B : Type} (i : ident) (p : prog A) (f : A → prog B) :
  confined i p → (∀ a, confined i (f a)) → confined i (p ≫= f).
Proof.
  intros Hp Hf. induction p as [a|e|X g k IH|c k IH|]; simpl in *.
  - apply Hf.
  - done.
  - destruct Hp as [Hg Hk]. split; [done|]. intros x. by apply IH.
  - intros r. by apply IH.
  - done.
Qed.

Lemma confined_attempt {A : Type} (i : ident) (p : prog A) :
  confined i p → confined i (attempt p).
Proof.
  intros Hp. induction p as [a|e|X g k IH|c k IH|]; simpl in *.
  - done.
  - done.
  - destruct Hp as [Hg Hk]. split; [done|]. intros x. by apply IH.
  - intros r. by apply IH.
  - done.
Qed.

Lemma confined_try_except {A : Type} (i : ident) (p : prog A) (h : exn → prog A) :
  confined i p → (∀ e, confined i (h e)) → confined i (try_except p h).
Proof.
  intros Hp Hh. unfold try_except. apply confined_bind.
  - by apply confined_attempt.
  - intros [a|e]; [done|]. unfold except_Exception. by destruct (is_Exception e).
Qed.

Lemma confined_atomic {X : Type} (i : ident) (f : agent → agent * X) :
  (∀ st, frame i st (f st).1) → confined i (atomic f).
Proof. intros Hf. simpl. done. Qed.

Lemma confined_await (i : ident) (c : call) : confined i (await c).
Proof. simpl. by intros [v|e]. Qed.

Lemma confined_print (i : ident) (s : string) : confined i (print s).
Proof. apply confined_atomic. intros st. apply frame_emit. Qed.

Lemma confined_count_active (i : ident) : confined i count_active.
Proof. apply confined_atomic. intros st. apply frame_refl. Qed.

Lemma confined_add_active (i : ident) : confined i (add_active i).
Proof.
  apply confined_atomic. intros st. unfold frame, executed, active. simpl.
  set_solver.
Qed.

Lemma confined_remove_active (i : ident) : confined i (remove_active i).
Proof.
  apply confined_atomic. intros st. unfold frame, executed, active.
  pose proof (TrackerFacts.remove_active_active (tracker st) i) as Ha.
  pose proof (TrackerFacts.remove_active_executed (tracker st) i) as He.
  destruct (ExecutionTracker.remove_active (tracker st) i) as [t b].
  simpl in *. rewrite Ha, He. set_solver.
Qed.

Lemma confined_update_computer_status (i : ident) (status : Z) :
  confined i (update_computer_status status).
Proof.
  apply confined_try_except; [|intros e; apply confined_print].
  apply confined_bind.
  { apply confined_bind; [apply confined_atomic; intros st; apply frame_refl|].
    by intros [c|]. }
  intros cid. apply confined_bind.
  { apply confined_bind; [apply confined_await|]. by intros []. }
  intros c. apply confined_bind; [|intros _; apply confined_print].
  apply confined_atomic. intros st. unfold frame, executed, active. simpl.
  set_solver.
Qed.

Lemma confined_process_execution (execution : Execution) (i : ident) :
  confined i (process_execution execution i).
Proof.
  unfold process_execution.
  apply confined_bind; [apply confined_add_active|]. intros first.
  apply confined_bind.
  { destruct first; [apply confined_update_computer_status|done]. }
  intros _. apply confined_bind; [apply confined_count_active|]. intros n.
  apply confined_bind; [apply confined_print|]. intros _.
  apply confined_bind; [apply confined_await|]. intros _.
  apply confined_bind; [apply confined_await|]. intros logs.
  apply confined_bind; [apply confined_await|]. intros _.
  apply confined_bind; [apply confined_remove_active|]. intros last.
  apply confined_bind.
  { destruct last; [apply confined_update_computer_status|done]. }
  intros _. apply confined_bind; [apply confined_count_active|]. intros n'.
  apply confined_print.
Qed.

(** Running a confined coroutine to its next [await] stays in the frame
    and leaves a confined task. *)
Lemma run_sync_confined (i : ident) (p : prog unit) (st : agent) :
  confined i p →
  frame i st (run_sync p st).1 ∧ task_confined i (run_sync p st).2.
Proof.
  revert st. induction p as [a|e|X g k IH|c k IH|]; intros st Hp; simpl in *.
  - split; [apply frame_refl|done].
  - split; [apply frame_refl|done].
  - destruct Hp as [Hg Hk]. specialize (Hg st).
    destruct (g st) as [st' x]. simpl in Hg.
    destruct (IH x st' (Hk x)) as [Hf Ht].
    split; [by eapply frame_trans|done].
  - split; [apply frame_emit|done].
  - split; [apply frame_refl|done].
Qed.

Lemma resume_confined (i : ident) (r : result value) (t : task) (st : agent) :
  task_confined i t →
  frame i st (resume r t st).1 ∧ task_confined i (resume r t st).2.
Proof.
  destruct t as [p|c k|o]; simpl; intros Ht.
  - by apply run_sync_confined.
  - apply run_sync_confined, Ht.
  - split; [apply frame_refl|done].
Qed.

End AgentFacts.

(** ** The event loop *)

Module LoopFacts.
Import AgentService AgentFacts.

Lemma handle_execution_run (event : RealtimeEvent) (st : agent) :
  run_sync (handle_execution event) st = (handled event st, Finished (Returned tt)).
Proof.
  unfold handle_execution, handled. simpl.
  destruct (ExecutionTracker.is_executed _ _); simpl; [done|].
  by destruct (truthy _).
Qed.

Lemma with_new_tasks_none (st : agent) (tasks : list task) :
  length tasks = length (spawned st) → with_new_tasks st tasks = tasks.
Proof.
  intros Hlen. unfold with_new_tasks.
  rewrite drop_ge by lia. simpl. apply app_nil_r.
Qed.

Lemma with_new_tasks_one (st : agent) (tasks : list task) ds e i :
  length tasks = length ds →
  spawned st = ds ++ [(e, i)] →
  with_new_tasks st tasks = tasks ++ [Created (process_execution e i)].
Proof.
  intros Hlen Hs. unfold with_new_tasks.
  rewrite Hs, Hlen, drop_app_length. done.
Qed.

Lemma step_deliver (sys : system) (event : RealtimeEvent) :
  step sys (Deliver event) =
    {| sys_agent := handled event (sys_agent sys);
       sys_tasks := with_new_tasks (handled event (sys_agent sys)) (sys_tasks sys) |}.
Proof. unfold step. by rewrite handle_execution_run. Qed.

Lemma handled_executed (event : RealtimeEvent) (st : agent) :
  executed (handled event st) = {[rec_id (record event)]} ∪ executed st.
Proof.
  unfold handled, executed, ExecutionTracker.is_executed.
  case_bool_decide as Hin; simpl; [set_solver|].
  by destruct (truthy _).
Qed.

Lemma handled_active (event : RealtimeEvent) (st : agent) :
  active (handled event st) = active st.
Proof.
  unfold handled, active. destruct (ExecutionTracker.is_executed _ _); [done|].
  by destruct (truthy _).
Qed.

(** A marked identifier makes the handler a no-op. *)
Lemma handled_marked (event : RealtimeEvent) (st : agent) :
  rec_id (record event) ∈ executed st → handled event st = st.
Proof.
  intros Hin. unfold handled, ExecutionTracker.is_executed.
  by rewrite bool_decide_true.
Qed.

Lemma handled_spawned (event : RealtimeEvent) (st : agent) :
  spawned (handled event st) =
    if ExecutionTracker.is_executed (tracker st) (rec_id (record event))
       || truthy (rec_completed (record event))
    then spawned st
    else spawned st ++ [(record event, rec_id (record event))].
Proof.
  unfold handled. destruct (ExecutionTracker.is_executed _ _); [done|].
  by destruct (truthy _).
Qed.

Lemma init_inv (c : option Computer) : sys_inv (init_system c).
Proof.
  unfold sys_inv, dispatched, executed, active. simpl.
  split; [constructor|]. split; [constructor|]. set_solver.
Qed.

Lemma step_inv (sys : system) (l : label) : sys_inv sys → sys_inv (step sys l).
Proof.
  intros (Htasks & Hnd & Hdisp & Hact). destruct l as [event|j r].
  - rewrite step_deliver. unfold sys_inv, dispatched. simpl.
    pose proof (Forall2_length _ _ _ Htasks) as Hlen.
    rewrite handled_executed, handled_active, handled_spawned.
    unfold ExecutionTracker.is_executed. fold (executed (sys_agent sys)).
    case_bool_decide as Hin; simpl.
    { rewrite with_new_tasks_none
        by (rewrite handled_spawned; unfold ExecutionTracker.is_executed;
            fold (executed (sys_agent sys)); by rewrite bool_decide_true).
      split; [done|]. split; [done|]. set_solver. }
    destruct (truthy _) eqn:Hc; simpl.
    { rewrite with_new_tasks_none
        by (rewrite handled_spawned, Hc, orb_true_r; done).
      split; [done|]. split; [done|]. set_solver. }
    rewrite (with_new_tasks_one _ _ (spawned (sys_agent sys)) (record event)
               (rec_id (record event)))
      by (try done; rewrite handled_spawned; unfold ExecutionTracker.is_executed;
          fold (executed (sys_agent sys)); by rewrite bool_decide_false, Hc).
    split.
    { apply Forall2_app; [done|]. constructor; [|constructor].
      simpl. apply confined_process_execution. }
    rewrite fmap_app. simpl. split.
    { apply NoDup_app. split; [done|]. split; [|apply NoDup_singleton].
      intros i Hi ->%list_elem_of_singleton. apply Hin, Hdisp, Hi. }
    split; [|set_solver].
    intros i [Hi| ->%list_elem_of_singleton]%elem_of_app; [|set_solver].
    apply elem_of_union_r, Hdisp, Hi.
  - unfold step. destruct (sys_tasks sys !! j) as [t|] eqn:Hj; [|done].
    destruct (Forall2_lookup_l _ _ _ _ _ Htasks Hj) as ([e i] & Hd & Hconf).
    simpl in Hconf.
    destruct (resume_confined i r t (sys_agent sys) Hconf) as [Hf Ht].
    destruct (resume r t (sys_agent sys)) as [st t']. simpl in Hf, Ht.
    destruct Hf as (He & Hs & Ha).
    pose proof (Forall2_length _ _ _ Htasks) as Hlen.
    rewrite with_new_tasks_none by (rewrite length_insert, Hs; done).
    unfold sys_inv, dispatched. simpl. rewrite Hs, He.
    split.
    { rewrite <- (list_insert_id _ _ _ Hd). by apply Forall2_insert. }
    split; [done|]. split; [done|].
    assert (i ∈ executed (sys_agent sys)).
    { apply Hdisp. unfold dispatched. apply list_elem_of_fmap.
      exists (e, i). split; [done|]. by eapply list_elem_of_lookup_2. }
    set_solver.
Qed.

Lemma steps_snoc (sys : system) (ls : list label) (l : label) :
  steps sys (ls ++ [l]) = step (steps sys ls) l.
Proof. unfold steps. by rewrite foldl_app. Qed.

Lemma steps_app (sys : system) (ls1 ls2 : list label) :
  steps sys (ls1 ++ ls2) = steps (steps sys ls1) ls2.
Proof. unfold steps. by rewrite foldl_app. Qed.

Lemma steps_inv (sys : system) (ls : list label) :
  sys_inv sys → sys_inv (steps sys ls).
Proof.
  induction ls as [|l ls IH] using rev_ind; [done|].
  intros Hinv. rewrite steps_snoc. by apply step_inv, IH.
Qed.

(** A step changes the tasks created and the executed set only through
    the handler. *)
Lemma step_executed (sys : system) (l : label) :
  sys_inv sys →
  executed (sys_agent (step sys l)) =
    match l with
    | Deliver event => {[rec_id (record event)]} ∪ executed (sys_agent sys)
    | Resume _ _ => executed (sys_agent sys)
    end.
Proof.
  intros (Htasks & _). destruct l as [event|j r].
  - rewrite step_deliver. simpl. apply handled_executed.
  - unfold step. destruct (sys_tasks sys !! j) as [t|] eqn:Hj; [|done].
    destruct (Forall2_lookup_l _ _ _ _ _ Htasks Hj) as ([e i] & Hd & Hconf).
    destruct (resume_confined i r t (sys_agent sys) Hconf) as [Hf _].
    destruct (resume r t (sys_agent sys)) as [st t']. simpl in *.
    by destruct Hf as (He & _).
Qed.

Lemma step_dispatched_resume (sys : system) (j : nat) (r : result value) :
  sys_inv sys → dispatched (step sys (Resume j r)) = dispatched sys.
Proof.
  intros (Htasks & _). unfold step, dispatched.
  destruct (sys_tasks sys !! j) as [t|] eqn:Hj; [|done].
  destruct (Forall2_lookup_l _ _ _ _ _ Htasks Hj) as ([e i] & Hd & Hconf).
  destruct (resume_confined i r t (sys_agent sys) Hconf) as [Hf _].
  destruct (resume r t (sys_agent sys)) as [st t']. simpl in *.
  destruct Hf as (_ & Hs & _). by rewrite Hs.
Qed.

Lemma steps_executed_mono (sys : system) (ls : list label) :
  sys_inv sys → executed (sys_agent sys) ⊆ executed (sys_agent (steps sys ls)).
Proof.
  intros Hinv. induction ls as [|l ls IH] using rev_ind; [done|].
  rewrite steps_snoc, step_executed by by apply steps_inv.
  destruct l; set_solver.
Qed.

(** The executed set of a run is the set of identifiers delivered. *)
Lemma steps_executed (c : option Computer) (ls : list label) (i : ident) :
  i ∈ executed (sys_agent (steps (init_system c) ls))
  ↔ ∃ event, event ∈ delivered ls ∧ rec_id (record event) = i.
Proof.
  induction ls as [|l ls IH] using rev_ind.
  - unfold executed. simpl. split; [set_solver|].
    intros (event & Hin & _). by apply elem_of_nil in Hin.
  - rewrite steps_snoc, step_executed by apply steps_inv, init_inv.
    unfold delivered in *. rewrite omap_app. destruct l as [event|j r]; simpl.
    + rewrite elem_of_union, IH, elem_of_singleton. split.
      * intros [-> |(ev & Hin & <-)]; [exists event|exists ev];
          (split; [|done]); rewrite elem_of_app; [right|left]; [|done].
        by apply list_elem_of_singleton.
      * intros (ev & [Hin| ->%list_elem_of_singleton]%elem_of_app & <-);
          [right; eauto|by left].
    + rewrite app_nil_r. apply IH.
Qed.

(** Once an identifier was delivered, delivering it again changes
    nothing, whatever happened in between. *)
Lemma redelivery_noop (c : option Computer) (ls : list label) (event : RealtimeEvent) :
  rec_id (record event) ∈ executed (sys_agent (steps (init_system c) ls)) →
  step (steps (init_system c) ls) (Deliver event) = steps (init_system c) ls.
Proof.
  intros Hin. rewrite step_deliver, handled_marked by done.
  pose proof (steps_inv _ ls (init_inv c)) as (Htasks & _).
  rewrite with_new_tasks_none by by eapply Forall2_length.
  by destruct (steps _ _).
Qed.

Lemma NoDup_filter_length (l : list ident) (i : ident) :
  NoDup l → length (filter (λ j, j = i) l) ≤ 1.
Proof.
  induction 1 as [|j l Hj Hl IH]; [simpl; lia|].
  rewrite filter_cons. case_decide as Heq; [|done].
  subst j. simpl.
  destruct (filter (λ j, j = i) l) as [|k ks] eqn:Hf; [simpl; lia|].
  assert (k ∈ filter (λ j, j = i) l) as [-> Hk]%list_elem_of_filter
    by (rewrite Hf; left).
  done.
Qed.

End LoopFacts.

Module DispatchFacts.
Import AgentService AgentFacts LoopFacts.

(** A marked identifier is never dispatched again. *)
Lemma marked_never_dispatched (sys : system) (ls : list label) (i : ident) :
  sys_inv sys →
  i ∈ executed (sys_agent sys) →
  filter (λ j, j = i) (dispatched (steps sys ls))
    = filter (λ j, j = i) (dispatched sys).
Proof.
  intros Hinv Hi. induction ls as [|l ls IH] using rev_ind; [done|].
  rewrite steps_snoc, <- IH.
  pose proof (steps_inv sys ls Hinv) as Hinv'.
  pose proof (steps_executed_mono sys ls Hinv i Hi) as Hi'.
  destruct l as [event|j r]; [|by rewrite step_dispatched_resume].
  rewrite step_deliver. unfold dispatched at 1. simpl.
  rewrite handled_spawned. unfold ExecutionTracker.is_executed.
  fold (executed (sys_agent (steps sys ls))).
  case_bool_decide as Hin; simpl; [done|].
  destruct (truthy _); [done|].
  rewrite fmap_app, filter_app. simpl.
  rewrite filter_cons_False, filter_nil, app_nil_r; [done|].
  intros Heq. apply Hin. by rewrite Heq.
Qed.

Lemma trace_handled (event : RealtimeEvent) (st : agent) :
  trace (handled event st) =
    trace st ++
    (if ExecutionTracker.is_executed (tracker st) (rec_id (record event)) then []
     else if truthy (rec_completed (record event))
          then [EMarkExecuted (rec_id (record event))]
          else [EMarkExecuted (rec_id (record event));
                ECreateTask (rec_id (record event))]).
Proof.
  unfold handled. destruct (ExecutionTracker.is_executed _ _); simpl.
  - by rewrite app_nil_r.
  - destruct (truthy _); simpl; [done|]. by rewrite <- app_assoc.
Qed.

End DispatchFacts.

(** C4: in every run of the event loop, however the deliveries of events
    and the steps of the dispatched tasks interleave, an identifier is
    dispatched at most once. Whenever the handler creates a task it has
    marked the identifier just before, within the same uninterrupted run,
    and once an event for an identifier has been delivered, the delivery
    of another event for it, at any later point, changes nothing. *)
Theorem handle_execution_dispatches_at_most_once
    (c : option Computer) (ls : list label) (i : ident) :
  length (filter (λ j, j = i) (dispatched (steps (init_system c) ls))) ≤ 1
  ∧ (∀ st event,
       rec_id (record event) = i →
       let st' := (run_sync (AgentService.handle_execution event) st).1 in
       ∃ new, trace st' = trace st ++ new
              ∧ (new = [] ∧ spawned st' = spawned st
                 ∨ new = [EMarkExecuted i] ∧ spawned st' = spawned st
                 ∨ new = [EMarkExecuted i; ECreateTask i]
                   ∧ spawned st' = spawned st ++ [(record event, i)]))
  ∧ (∀ ls1 ls2 event event',
       ls = ls1 ++ Deliver event :: ls2 →
       rec_id (record event) = i →
       rec_id (record event') = i →
       step (steps (init_system c) ls) (Deliver event') = steps (init_system c) ls).
Proof.
  split; [|split].
  - apply LoopFacts.NoDup_filter_length.
    by destruct (LoopFacts.steps_inv _ ls (LoopFacts.init_inv c)) as (_ & Hnd & _).
  - intros st event <-. rewrite LoopFacts.handle_execution_run. simpl.
    rewrite DispatchFacts.trace_handled, LoopFacts.handled_spawned.
    eexists; split; [done|].
    destruct (ExecutionTracker.is_executed _ _); simpl; [by left|].
    destruct (truthy _); [right; by left|right; by right].
  - intros ls1 ls2 event event' -> Hi Hi'.
    apply LoopFacts.redelivery_noop. apply LoopFacts.steps_executed.
    exists event. split; [|congruence].
    unfold delivered. rewrite omap_app. simpl. apply elem_of_app. right. left.
Qed.

(** C4 at a run in which the same event arrives before the dispatch has
    started, while it waits, and after it has failed. *)
Lemma handle_execution_dispatches_at_most_once_witness :
  let ev := Sample.job (Some "e1") (Some false) in
  let ls := [Deliver ev; Deliver ev; Resume 0 (Ok VNone); Deliver ev;
             Resume 0 (Ok (VComputer Sample.machine));
             Resume 0 (Raise Sample.unreachable)] in
  step (steps (init_system (Some Sample.machine)) ls) (Deliver ev)
    = steps (init_system (Some Sample.machine)) ls.
Proof.
  intros ev ls.
  destruct (handle_execution_dispatches_at_most_once
              (Some Sample.machine) ls (Some "e1")) as (_ & _ & H).
  apply (H [] (tl ls) ev ev); reflexivity.
Defined.

(** C5: delivered to the handler in any state of the agent, an event whose
    [completed] flag is true creates no task: the handler returns with the
    identifier marked and with the tasks created so far unchanged, and its
    only action, when the identifier was not marked yet, is to mark it. In
    a run of the event loop the identifier is not dispatched afterwards
    either. *)
Theorem completed_event_is_not_dispatched
    (st : agent) (event : RealtimeEvent) :
  truthy (rec_completed (record event)) = true →
  let i := rec_id (record event) in
  let '(st', t) := run_sync (AgentService.handle_execution event) st in
  t = Finished (Returned tt)
  ∧ spawned st' = spawned st
  ∧ i ∈ executed st'
  ∧ trace st' = trace st ++ (if bool_decide (i ∈ executed st) then []
                              else [EMarkExecuted i])
  ∧ (∀ c ls ls',
       st = sys_agent (steps (init_system c) ls) →
       filter (λ j, j = i)
         (dispatched (steps (init_system c) (ls ++ Deliver event :: ls')))
       = filter (λ j, j = i) (dispatched (steps (init_system c) ls))).
Proof.
  intros Hc i. rewrite LoopFacts.handle_execution_run.
  split; [done|].
  rewrite LoopFacts.handled_spawned, LoopFacts.handled_executed,
    DispatchFacts.trace_handled, Hc, orb_true_r.
  split; [done|]. split; [set_solver|]. split.
  { reflexivity. }
  intros c ls ls' ->.
  change (ls ++ Deliver event :: ls') with (ls ++ [Deliver event] ++ ls').
  rewrite app_assoc, LoopFacts.steps_app, LoopFacts.steps_snoc.
  pose proof (LoopFacts.steps_inv _ ls (LoopFacts.init_inv c)) as Hinv.
  rewrite DispatchFacts.marked_never_dispatched.
  - rewrite LoopFacts.step_deliver. unfold dispatched. simpl.
    by rewrite LoopFacts.handled_spawned, Hc, orb_true_r.
  - by apply LoopFacts.step_inv.
  - rewrite LoopFacts.step_executed by done. set_solver.
Qed.

(** C5 at an event that arrives completed before anything else and is
    followed by an event for the same identifier that is not completed. *)
Lemma completed_event_is_not_dispatched_witness :
  filter (λ j, j = Some "e1")
    (dispatched (steps (init_system None)
                   [Deliver (Sample.job (Some "e1") (Some true));
                    Deliver (Sample.job (Some "e1") (Some false))]))
  = filter (λ j, j = Some "e1") (dispatched (init_system None)).
Proof.
  pose proof (completed_event_is_not_dispatched (init_agent None)
                (Sample.job (Some "e1") (Some true)) eq_refl) as H.
  destruct (run_sync _ _) as [st' t]. destruct H as (_ & _ & _ & _ & H).
  exact (H None [] [Deliver (Sample.job (Some "e1") (Some false))] eq_refl).
Defined.

(** C9: in every state that the event loop reaches, by any interleaving
    of deliveries and task steps, every active identifier is marked
    executed; the executed set of a later state includes that of an
    earlier one; and no operation of the ledger takes an identifier out of
    the executed set. *)
Theorem active_subset_executed_and_executed_grows
    (c : option Computer) (ls ls' : list label) :
  let sys := steps (init_system c) ls in
  active (sys_agent sys) ⊆ executed (sys_agent sys)
  ∧ executed (sys_agent sys) ⊆ executed (sys_agent (steps sys ls'))
  ∧ (∀ (t : ExecutionTracker.t) (i : ident),
       ExecutionTracker.executed_tasks t
         ⊆ ExecutionTracker.executed_tasks (ExecutionTracker.mark_executed t i)
       ∧ ExecutionTracker.executed_tasks (ExecutionTracker.add_active t i).1
           = ExecutionTracker.executed_tasks t
       ∧ ExecutionTracker.executed_tasks (ExecutionTracker.remove_active t i).1
           = ExecutionTracker.executed_tasks t).
Proof.
  intros sys.
  pose proof (LoopFacts.steps_inv _ ls (LoopFacts.init_inv c)) as Hinv.
  split; [by destruct Hinv as (_ & _ & _ & Ha)|].
  split; [by apply LoopFacts.steps_executed_mono|].
  intros t i. split; [simpl; set_solver|]. split; [done|].
  apply TrackerFacts.remove_active_executed.
Qed.



(** ** Coroutines run alone *)

Module ExecFacts.
Import AgentService.

Lemma exec_bind {A B : Type} (p : prog A) (f : A → prog B) (ev : env) (st : agent) :
  exec (p ≫= f) ev st =
    let '(st', o) := exec p ev st in
    match o with
    | Returned a => exec (f a) ev st'
    | Raised e => (st', Raised e)
    | Diverged => (st', Diverged)
    end.
Proof.
  revert st. induction p as [a|e|X g k IH|c k IH|]; intros st; simpl;
    [done|done| |apply IH|done].
  destruct (g st) as [st' x]. apply IH.
Qed.

Lemma exec_attempt {A : Type} (p : prog A) (ev : env) (st : agent) :
  exec (attempt p) ev st =
    let '(st', o) := exec p ev st in
    (st', match o with
          | Returned a => Returned (Ok a)
          | Raised e => Returned (Raise e)
          | Diverged => Diverged
          end).
Proof.
  revert st. induction p as [a|e|X g k IH|c k IH|]; intros st; simpl;
    [done|done| |apply IH|done].
  destruct (g st) as [st' x]. apply IH.
Qed.

Lemma exec_atomic {X : Type} (f : agent → agent * X) (ev : env) (st : agent) :
  exec (atomic f) ev st = ((f st).1, Returned (f st).2).
Proof. simpl. by destruct (f st). Qed.

Lemma exec_await (c : call) (ev : env) (st : agent) :
  exec (await c) ev st =
    (emit (ECall c) st,
     match ev (trace st) c with Ok v => Returned v | Raise e => Raised e end).
Proof. simpl. by destruct (ev _ _). Qed.

Local Ltac status_done :=
  eexists _, _; split; [reflexivity|]; split; [reflexivity|];
  split; [simpl; rewrite <- ?app_assoc; reflexivity|];
  intros i logs Hin;
  repeat (apply elem_of_cons in Hin as [Hin|Hin]; [discriminate|]);
  by apply elem_of_nil in Hin.

(** A status update returns whatever the backend does, short of raising
    something that is no [Exception]; it leaves the ledger alone. *)
Lemma exec_update_computer_status (status : Z) (ev : env) (st : agent) :
  status_writes_raise_exceptions ev →
  ∃ st' new,
    exec (update_computer_status status) ev st = (st', Returned tt)
    ∧ tracker st' = tracker st
    ∧ trace st' = trace st ++ new
    ∧ (∀ i logs, ECall (UpdateExecution i logs (Some true)) ∉ new).
Proof.
  intros Hev. unfold update_computer_status, try_except, self_computer_id,
    DatabaseClient.update_computer.
  rewrite exec_bind, exec_attempt. simpl.
  destruct (computer st) as [c|]; simpl.
  - destruct (ev (trace st) (UpdateComputer (c_id c) status)) as [v|e] eqn:Hr; simpl.
    + destruct v; simpl; status_done.
    + unfold except_Exception. rewrite (Hev _ _ _ _ Hr). simpl. status_done.
  - status_done.
Qed.

Lemma exec_status_if (b : bool) (status : Z) (ev : env) (st : agent) :
  status_writes_raise_exceptions ev →
  ∃ st' new,
    exec (if b then update_computer_status status else Ret tt) ev st
      = (st', Returned tt)
    ∧ tracker st' = tracker st
    ∧ trace st' = trace st ++ new
    ∧ (∀ i logs, ECall (UpdateExecution i logs (Some true)) ∉ new).
Proof.
  intros Hev. destruct b; [by apply exec_update_computer_status|].
  exists st, []. split; [done|]. split; [done|].
  split; [by rewrite app_nil_r|]. intros i logs. apply not_elem_of_nil.
Qed.

Lemma exec_bind_atomic {X B : Type} (f : agent → agent * X) (k : X → prog B)
    (ev : env) (st : agent) :
  exec (atomic f ≫= k) ev st = exec (k (f st).2) ev (f st).1.
Proof. rewrite exec_bind, exec_atomic. done. Qed.

Lemma exec_bind_await {B : Type} (c : call) (k : value → prog B)
    (ev : env) (st : agent) (v : value) :
  ev (trace st) c = Ok v →
  exec (await c ≫= k) ev st = exec (k v) ev (emit (ECall c) st).
Proof. intros Hr. rewrite exec_bind, exec_await, Hr. done. Qed.

Lemma exec_bind_count_active {B : Type} (k : nat → prog B) (ev : env) (st : agent) :
  exec (count_active ≫= k) ev st
    = exec (k (ExecutionTracker.count_active (tracker st))) ev st.
Proof. apply (exec_bind_atomic (X:=nat)). Qed.

Lemma exec_bind_print {B : Type} (s : string) (k : unit → prog B)
    (ev : env) (st : agent) :
  exec (print s ≫= k) ev st = exec (k tt) ev (emit (EPrint s) st).
Proof. apply (exec_bind_atomic (X:=unit)). Qed.

Lemma exec_bind_add_active {B : Type} (i : ident) (k : bool → prog B)
    (ev : env) (st : agent) :
  exec (add_active i ≫= k) ev st
    = exec (k (ExecutionTracker.add_active (tracker st) i).2) ev
        (emit (EAddActive i)
           (with_tracker (ExecutionTracker.add_active (tracker st) i).1 st)).
Proof. apply (exec_bind_atomic (X:=bool)). Qed.

Lemma exec_bind_remove_active {B : Type} (i : ident) (k : bool → prog B)
    (ev : env) (st : agent) :
  exec (remove_active i ≫= k) ev st
    = exec (k (ExecutionTracker.remove_active (tracker st) i).2) ev
        (emit (ERemoveActive i)
           (with_tracker (ExecutionTracker.remove_active (tracker st) i).1 st)).
Proof.
  unfold remove_active. rewrite (exec_bind_atomic (X:=bool)).
  by destruct (ExecutionTracker.remove_active _ _).
Qed.

End ExecFacts.

(** C3 at the failing input: the agent is initialised and idle, the
    Running status write returns the record, and a write of the execution
    raises [e]. When it is the write of the started marker,
    [process_execution] raises [e] to the event loop after two calls: the
    runner is not called, the result write is not attempted,
    [remove_active] is not reached and the identifier stays in the active
    set. When it is the result write, [process_execution] raises [e] the
    same way, with the identifier still active. Neither write is guarded,
    whatever the class of [e]. *)
Theorem execution_write_failure_aborts_pipeline (e : exn) (logs : value) :
  let execution := record (Sample.job (Some "e1") (Some false)) in
  let st := init_agent (Some Sample.machine) in
  let started_fails := replies_env [Ok (VComputer Sample.machine); Raise e] in
  let result_fails :=
    replies_env [Ok (VComputer Sample.machine); Ok VNone; Ok logs; Raise e] in
  (let '(st', o) :=
     exec (AgentService.process_execution execution (Some "e1")) started_fails st in
   o = Raised e
   ∧ calls (trace st') = [UpdateComputer "c1" 1; started_write (Some "e1")]
   ∧ (ERemoveActive (Some "e1") ∉ trace st')
   ∧ Some "e1" ∈ active st')
  ∧ (let '(st', o) :=
       exec (AgentService.process_execution execution (Some "e1")) result_fails st in
     o = Raised e
     ∧ calls (trace st')
       = [UpdateComputer "c1" 1; started_write (Some "e1");
          ExecuteCode (Some "print('hello')") (Some "e1");
          result_write (Some "e1") logs]
     ∧ (ERemoveActive (Some "e1") ∉ trace st')
     ∧ Some "e1" ∈ active st').
Proof.
  assert (∀ (a : effect) (l : list effect),
            a ∈ l → (fix mem (l : list effect) : Prop :=
                       match l with
                       | [] => False
                       | b :: l' => a = b ∨ mem l'
                       end) l) as Hmem.
  { intros a l Hin. induction Hin as [|? ? ? _ IH]; [by left|by right]. }
  split.
  - vm_compute exec. split; [done|]. split; [done|]. split.
    + intros Hin. apply Hmem in Hin. simpl in Hin.
      repeat (destruct Hin as [Hin|Hin]; [discriminate|]). done.
    + unfold active. simpl. set_solver.
  - vm_compute exec. split; [done|]. split; [done|]. split.
    + intros Hin. apply Hmem in Hin. simpl in Hin.
      repeat (destruct Hin as [Hin|Hin]; [discriminate|]). done.
    + unfold active. simpl. set_solver.
Qed.

(** At the first of these inputs the pipeline does not complete: neither
    the result write nor [remove_active] is reached. *)
Lemma started_write_failure_aborts_pipeline :
  ¬ pipeline_completes (record (Sample.job (Some "e1") (Some false))) (Some "e1")
      (replies_env [Ok (VComputer Sample.machine); Raise Sample.unreachable])
      (init_agent (Some Sample.machine)).
Proof.
  unfold pipeline_completes. intros (new & Htrace & _ & Hremove).
  vm_compute in Htrace. subst new.
  repeat (apply elem_of_cons in Hremove as [Hremove|Hremove]; [discriminate|]).
  by apply elem_of_nil in Hremove.
Qed.

(** What the code keeps of the failure semantics of the pipeline: an
    [Exception] raised by a write of the machine status is caught and
    logged inside [update_computer_status] and does not abort the
    pipeline. When the two writes of the execution and the runner return,
    the pipeline returns, and between adding the identifier to the active
    set and taking it out again it writes the started marker, calls the
    runner and writes the runner's output with [completed] set, whatever
    the status writes did. *)
Theorem status_write_failure_does_not_abort_pipeline
    (execution : Execution) (i : ident) (ev : env) (st : agent) :
  status_writes_raise_exceptions ev →
  execution_calls_return ev →
  let '(st', o) := exec (AgentService.process_execution execution i) ev st in
  o = Returned tt
  ∧ pipeline_completes execution i ev st
  ∧ ∃ pre logs post,
      trace st' =
        trace st ++ EAddActive i :: pre
        ++ [ECall (started_write i);
            ECall (ExecuteCode (rec_executable execution) i);
            ECall (result_write i logs);
            ERemoveActive i]
        ++ post
      ∧ (∀ j l, ECall (result_write j l) ∉ pre).
Proof.
  intros Hstatus Hexec.
  assert (∃ st' pre logs post,
    exec (AgentService.process_execution execution i) ev st = (st', Returned tt)
    ∧ trace st' =
        trace st ++ EAddActive i :: pre
        ++ [ECall (started_write i);
            ECall (ExecuteCode (rec_executable execution) i);
            ECall (result_write i logs);
            ERemoveActive i]
        ++ post
    ∧ (∀ j l, ECall (result_write j l) ∉ pre)) as (st' & pre & logs & post & Hrun & Htr & Hpre).
  { unfold AgentService.process_execution.
    rewrite ExecFacts.exec_bind_add_active, ExecFacts.exec_bind.
    destruct (ExecFacts.exec_status_if
                (ExecutionTracker.add_active (tracker st) i).2 1 ev
                (emit (EAddActive i)
                   (with_tracker (ExecutionTracker.add_active (tracker st) i).1 st))
                Hstatus)
      as (st1 & new1 & -> & Htk1 & Htr1 & Hnew1).
    cbv beta iota.
    rewrite ExecFacts.exec_bind_count_active, ExecFacts.exec_bind_print.
    unfold DatabaseClient.update_execution.
    match goal with
    | |- context [exec (await ?c ≫= _) ev ?s] =>
        destruct (Hexec (trace s) c) as [v2 Hv2];
        rewrite (ExecFacts.exec_bind_await c _ ev s v2 Hv2)
    end.
    match goal with
    | |- context [exec (await ?c ≫= _) ev ?s] =>
        destruct (Hexec (trace s) c) as [logs Hlogs];
        rewrite (ExecFacts.exec_bind_await c _ ev s logs Hlogs)
    end.
    match goal with
    | |- context [exec (await ?c ≫= _) ev ?s] =>
        destruct (Hexec (trace s) c) as [v4 Hv4];
        rewrite (ExecFacts.exec_bind_await c _ ev s v4 Hv4)
    end.
    rewrite ExecFacts.exec_bind_remove_active, ExecFacts.exec_bind.
    match goal with
    | |- context [exec (if ?b then _ else _) ev ?s] =>
        destruct (ExecFacts.exec_status_if b 2 ev s Hstatus)
          as (st5 & new5 & -> & Htk5 & Htr5 & Hnew5)
    end.
    cbv beta iota.
    rewrite ExecFacts.exec_bind_count_active.
    unfold print. rewrite ExecFacts.exec_atomic. cbn [fst snd].
    eexists _,
      (new1 ++ [EPrint ("🚀 Executing task: " +:+ str_ident i +:+ " (Active tasks: "
                        +:+ pretty (ExecutionTracker.count_active (tracker st1))
                        +:+ ")")]),
      logs, (new5 ++ [_]).
    split; [reflexivity|]. split.
    - simpl. rewrite Htr5. simpl. rewrite Htr1. simpl.
      rewrite <- !app_assoc. simpl. reflexivity.
    - intros j l [Hin|Hin]%elem_of_app; [by eapply Hnew1|].
      apply list_elem_of_singleton in Hin. discriminate. }
  rewrite Hrun. split; [done|]. split; [|by eauto 10].
  unfold pipeline_completes. rewrite Hrun. simpl.
  eexists. split; [exact Htr|]. split.
  - exists logs. rewrite elem_of_cons, !elem_of_app, !elem_of_cons. naive_solver.
  - rewrite elem_of_cons, !elem_of_app, !elem_of_cons. naive_solver.
Qed.

(** The same at a backend that fails every status write and takes the
    writes of the execution. *)
Lemma status_write_failure_does_not_abort_pipeline_witness :
  pipeline_completes (record (Sample.job (Some "e1") (Some false))) (Some "e1")
    (fun _ c => match c with
                | UpdateComputer _ _ => Raise Sample.unreachable
                | _ => Ok (VStr "ok")
                end)
    (init_agent (Some Sample.machine)).
Proof.
  pose proof (status_write_failure_does_not_abort_pipeline
    (record (Sample.job (Some "e1") (Some false))) (Some "e1")
    (fun _ c => match c with
                | UpdateComputer _ _ => Raise Sample.unreachable
                | _ => Ok (VStr "ok")
                end)
    (init_agent (Some Sample.machine))) as H.
  destruct (exec _ _ _) as [st' o].
  apply H.
  - intros tr cid status e [= <-]. reflexivity.
  - intros tr []; simpl; eauto.
Defined.

(** ** Shutdown *)

(** When the write of the Offline status returns, [run] goes on to call
    the unsubscribe handle, once, and an [Exception] raised by that call
    stays inside [run]. *)
Lemma run_unsubscribes_when_offline_write_returns
    (fuel : nat) (e_loop : exn) (unsubscribe : value) (c : Computer)
    (r : result value) :
  let ev := replies_env [Ok unsubscribe; Raise e_loop; Ok (VComputer c); r] in
  let '(st', o) := exec (AgentService.run (S fuel)) ev (init_agent (Some Sample.machine)) in
  calls (trace st')
    = [SubscribeToExecutions "c1"; Sleep 3600; UpdateComputer "c1" 0;
       CallUnsubscribe unsubscribe]
  ∧ (is_Exception e_loop = true →
     (∀ e, r = Raise e → is_Exception e = true) → o = Returned tt).
Proof.
  destruct e_loop as [[] m], r as [v|[[] m']]; vm_compute;
    (split; [reflexivity|]); intros Hloop Hr;
    try reflexivity; try discriminate; by specialize (Hr _ eq_refl).
Qed.

(** C1 at the failing input: the agent is initialised, the subscription
    is established, the loop is interrupted by any exception, and the
    write of the Offline status raises. [run] then makes the Offline write
    once, never calls the unsubscribe handle, and raises the exception of
    the write to its caller. *)
Theorem run_offline_write_failure_skips_unsubscribe
    (fuel : nat) (e_loop e_offline : exn) (unsubscribe : value) :
  let ev := replies_env [Ok unsubscribe; Raise e_loop; Raise e_offline] in
  let '(st', o) := exec (AgentService.run (S fuel)) ev (init_agent (Some Sample.machine)) in
  o = Raised e_offline
  ∧ calls (trace st')
    = [SubscribeToExecutions "c1"; Sleep 3600; UpdateComputer "c1" 0].
Proof.
  destruct e_loop as [[] m]; vm_compute; done.
Qed.

(** ** Hardware addresses *)

Module NetFacts.
Import NetworkUtils.

Lemma hex_length_48 (n : N) : (n < 2 ^ 48)%N → hex_length n ≤ 12.
Proof.
  intros Hn. unfold hex_length.
  assert (N.log2 n < 48)%N as Hlog.
  { destruct (N.eq_dec n 0%N) as [->|Hne]; [done|].
    apply N.log2_lt_pow2; lia. }
  assert (N.log2 n / 4 < 12)%N by (apply N.Div0.div_lt_upper_bound; lia).
  lia.
Qed.

Lemma upper_hex_digit (d : N) : (d < 16)%N → upper_char (hex_digit d) = HEX d.
Proof.
  intros Hd.
  assert (d ∈ [0; 1; 2; 3; 4; 5; 6; 7; 8; 9; 10; 11; 12; 13; 14; 15]%N) as Hin.
  { rewrite !elem_of_cons. lia. }
  repeat (apply elem_of_cons in Hin as [-> |Hin]; [reflexivity|]).
  by apply elem_of_nil in Hin.
Qed.

Lemma nibble_lt (k : nat) (n : N) : (nibble k n < 16)%N.
Proof. revert n. induction k as [|k IH]; intros n; simpl; [|apply IH]. by apply N.mod_lt. Qed.

Lemma nibble_div (k : nat) (n : N) : nibble k n = ((n / 16 ^ N.of_nat k) mod 16)%N.
Proof.
  revert n. induction k as [|k IH]; intros n.
  - simpl. by rewrite N.div_1_r.
  - cbn [nibble]. rewrite IH, N.Div0.div_div, Nat2N.inj_succ, N.pow_succ_r'. done.
Qed.

Lemma HEX_inj (d1 d2 : N) : (d1 < 16)%N → (d2 < 16)%N → HEX d1 = HEX d2 → d1 = d2.
Proof.
  intros H1 H2 Heq. apply (f_equal Ascii.N_of_ascii) in Heq. unfold HEX in Heq.
  destruct (d1 <? 10)%N eqn:E1, (d2 <? 10)%N eqn:E2;
    rewrite !Ascii.N_ascii_embedding in Heq by lia;
    try apply N.ltb_lt in E1; try apply N.ltb_lt in E2;
    try apply N.ltb_ge in E1; try apply N.ltb_ge in E2; lia.
Qed.

(** A number below [16 ^ k] is determined by its last [k] digits. *)
Lemma nibbles_inj (k : nat) (n m : N) :
  (n < 16 ^ N.of_nat k)%N → (m < 16 ^ N.of_nat k)%N →
  (∀ j, j < k → nibble j n = nibble j m) → n = m.
Proof.
  revert n m. induction k as [|k IH]; intros n m Hn Hm Hnib.
  - simpl in *. lia.
  - rewrite Nat2N.inj_succ, N.pow_succ_r' in Hn, Hm.
    assert ((n / 16) = (m / 16))%N as Hdiv.
    { apply IH.
      - apply N.Div0.div_lt_upper_bound; lia.
      - apply N.Div0.div_lt_upper_bound; lia.
      - intros j Hj. apply (Hnib (S j)). lia. }
    pose proof (Hnib 0 ltac:(lia)) as Hmod. simpl in Hmod.
    rewrite (N.div_mod n 16), (N.div_mod m 16) by lia. by rewrite Hdiv, Hmod.
Qed.

(** The address of a 48-bit node, digit by digit. *)
Lemma get_mac_text (node : N) :
  (node < 2 ^ 48)%N →
  N.testbit node 40 = false →
  get_mac node
    = Some (join ":" (map (octet_text node) [5; 4; 3; 2; 1; 0])).
Proof.
  intros Hn Hbit. unfold get_mac.
  assert (N.land (N.shiftr node 40) 1 = 0)%N as ->.
  { apply N.bits_inj_0. intros j. rewrite N.land_spec, N.shiftr_spec by lia.
    destruct j as [|p]; [by rewrite N.add_0_l, Hbit|].
    assert (N.testbit 1 (N.pos p) = false) as -> by by destruct p.
    apply andb_false_r. }
  simpl. f_equal. unfold format_0x.
  rewrite Nat.max_l by by apply hex_length_48.
  cbn -[N.div N.modulo]. unfold octet_text. cbn [Nat.mul Nat.add nibble].
  cbv [String.append]. cbn [upper].
  rewrite !upper_hex_digit by by apply N.mod_lt.
  reflexivity.
Qed.

(** What [get_mac] returns, by the parity of the first octet. *)
Lemma get_mac_cases (node : N) :
  (NetworkUtils.get_mac node = None ↔ N.odd (node / 2 ^ 40) = true)
  ∧ ((node < 2 ^ 48)%N →
     N.odd (node / 2 ^ 40) = false →
     ∃ s, NetworkUtils.get_mac node = Some s
          ∧ s = NetworkUtils.join ":" (map (octet_text node) [5; 4; 3; 2; 1; 0])
          ∧ String.length s = 17
          ∧ ∀ k, nibble k node = ((node / 16 ^ N.of_nat k) mod 16)%N).
Proof.
  assert (N.testbit node 40 = N.odd (node / 2 ^ 40)) as Hbit.
  { by rewrite N.testbit_odd, N.shiftr_div_pow2. }
  split.
  - unfold NetworkUtils.get_mac.
    assert (N.land (N.shiftr node 40) 1 = if N.odd (node / 2 ^ 40) then 1 else 0)%N
      as ->.
    { rewrite <- Hbit, N.testbit_odd.
      change 1%N with (N.ones 1). rewrite N.land_ones, N.pow_1_r.
      generalize (N.shiftr node 40). intros m.
      rewrite <- N.bit0_mod, N.bit0_odd. by destruct (N.odd m). }
    by destruct (N.odd _).
  - intros Hn Hodd. rewrite <- Hbit in Hodd.
    eexists. split; [by apply get_mac_text|]. split; [done|].
    split; [reflexivity|]. intros k. apply nibble_div.
Qed.

End NetFacts.

(** X1: [get_mac] returns [None] exactly when the first octet of the node
    is odd. For a 48-bit node with an even first octet it returns the six
    octets, most significant first, each as two uppercase hexadecimal
    digits, with colons in between: seventeen characters. *)
Theorem get_mac_shape (node : N) :
  (NetworkUtils.get_mac node = None ↔ N.odd (node / 2 ^ 40) = true)
  ∧ ((node < 2 ^ 48)%N →
     N.odd (node / 2 ^ 40) = false →
     ∃ s, NetworkUtils.get_mac node = Some s
          ∧ s = NetworkUtils.join ":" (map (octet_text node) [5; 4; 3; 2; 1; 0])
          ∧ String.length s = 17
          ∧ ∀ k, nibble k node = ((node / 16 ^ N.of_nat k) mod 16)%N).
Proof. apply NetFacts.get_mac_cases. Qed.

(** X1 at the node 00:11:22:AA:BB:CC. *)
Lemma get_mac_shape_witness :
  NetworkUtils.get_mac 0x001122aabbcc = Some "00:11:22:AA:BB:CC".
Proof.
  destruct (get_mac_shape 0x001122aabbcc) as [_ H].
  destruct H as (s & -> & -> & _); [reflexivity|reflexivity|].
  reflexivity.
Defined.

(** X2: two 48-bit nodes with the same address text are the same node. *)
Theorem get_mac_injective (node1 node2 : N) (s : string) :
  (node1 < 2 ^ 48)%N → (node2 < 2 ^ 48)%N →
  NetworkUtils.get_mac node1 = Some s →
  NetworkUtils.get_mac node2 = Some s →
  node1 = node2.
Proof.
  intros H1 H2 Hs1 Hs2.
  destruct (NetFacts.get_mac_cases node1) as [Hnone1 Htext1].
  destruct (NetFacts.get_mac_cases node2) as [Hnone2 Htext2].
  destruct (N.odd (node1 / 2 ^ 40)) eqn:Ho1;
    [rewrite (proj2 Hnone1 eq_refl) in Hs1; discriminate|].
  destruct (N.odd (node2 / 2 ^ 40)) eqn:Ho2;
    [rewrite (proj2 Hnone2 eq_refl) in Hs2; discriminate|].
  destruct (Htext1 H1 eq_refl) as (s1 & Hg1 & -> & _).
  destruct (Htext2 H2 eq_refl) as (s2 & Hg2 & -> & _).
  assert (NetworkUtils.join ":" (map (octet_text node1) [5; 4; 3; 2; 1; 0])
          = NetworkUtils.join ":" (map (octet_text node2) [5; 4; 3; 2; 1; 0]))
    as Heq by congruence.
  cbv [NetworkUtils.join map octet_text String.append] in Heq.
  cbn [Nat.mul Nat.add] in Heq.
  injection Heq as E11 E10 E9 E8 E7 E6 E5 E4 E3 E2 E1 E0.
  apply (NetFacts.nibbles_inj 12); [done|done|].
  intros j Hj.
  assert (j ∈ [0; 1; 2; 3; 4; 5; 6; 7; 8; 9; 10; 11]) as Hin
    by (rewrite !elem_of_cons; lia).
  repeat (apply elem_of_cons in Hin as [-> |Hin];
          [apply NetFacts.HEX_inj; [apply NetFacts.nibble_lt..|assumption]|]).
  by apply elem_of_nil in Hin.
Qed.

(** X2 at one node compared with itself through its text. *)
Lemma get_mac_injective_witness : 0x001122aabbcc%N = 0x001122aabbcc%N.
Proof.
  apply (get_mac_injective 0x001122aabbcc 0x001122aabbcc "00:11:22:AA:BB:CC");
    reflexivity.
Defined.

(** ** More on the ledger *)

(** X3: after [mark_executed i], [is_executed] answers [True] for [i] and
    what it answered before for every other identifier; marking twice is
    marking once; the active set is not touched. *)
Theorem mark_executed_then_is_executed (t : ExecutionTracker.t) (i j : ident) :
  ExecutionTracker.is_executed (ExecutionTracker.mark_executed t i) j
    = bool_decide (i = j) || ExecutionTracker.is_executed t j
  ∧ ExecutionTracker.mark_executed (ExecutionTracker.mark_executed t i) i
    = ExecutionTracker.mark_executed t i
  ∧ ExecutionTracker.active_executions (ExecutionTracker.mark_executed t i)
    = ExecutionTracker.active_executions t.
Proof.
  split; [|split; [|done]].
  - unfold ExecutionTracker.is_executed, ExecutionTracker.mark_executed. simpl.
    apply eq_bool_prop_intro. rewrite orb_True, !bool_decide_spec. set_solver.
  - unfold ExecutionTracker.mark_executed. simpl. f_equal. set_solver.
Qed.

(** X4: [add_active i] answers [True] exactly when no execution was active
    before the call. Afterwards [i] is active, and the number of active
    executions has grown by one, unless [i] was active already, in which
    case it has not changed; the executed set is not touched. *)
Theorem add_active_first_in (t : ExecutionTracker.t) (i : ident) :
  let '(t', was_first) := ExecutionTracker.add_active t i in
  (was_first = true ↔ ExecutionTracker.count_active t = 0)
  ∧ i ∈ ExecutionTracker.active_executions t'
  ∧ ExecutionTracker.count_active t'
    = (if bool_decide (i ∈ ExecutionTracker.active_executions t)
       then ExecutionTracker.count_active t
       else S (ExecutionTracker.count_active t))
  ∧ ExecutionTracker.executed_tasks t' = ExecutionTracker.executed_tasks t.
Proof.
  unfold ExecutionTracker.add_active, ExecutionTracker.count_active. simpl.
  split; [by rewrite bool_decide_eq_true|]. split; [set_solver|]. split; [|done].
  case_bool_decide as Hin.
  - f_equal. set_solver.
  - rewrite size_union by set_solver. by rewrite size_singleton.
Qed.

(** X5: adding an identifier that is not active and removing it again
    gives the ledger back, and [remove_active] then answers what
    [add_active] answered: the execution that finds the set empty on the
    way in leaves it empty on the way out. *)
Theorem add_active_then_remove_active (t : ExecutionTracker.t) (i : ident) :
  i ∉ ExecutionTracker.active_executions t →
  ExecutionTracker.remove_active (ExecutionTracker.add_active t i).1 i
    = (t, (ExecutionTracker.add_active t i).2).
Proof.
  intros Hin. destruct t as [ex act]. simpl in Hin.
  unfold ExecutionTracker.remove_active, ExecutionTracker.add_active. simpl.
  rewrite bool_decide_true by set_solver. simpl.
  assert (({[i]} ∪ act) ∖ {[i]} = act) as -> by set_solver.
  done.
Qed.

(** X5 at a ledger with one other active identifier. *)
Lemma add_active_then_remove_active_witness :
  (ExecutionTracker.remove_active
     (ExecutionTracker.add_active
        (ExecutionTracker.Build {[Some "a"]} {[Some "a"]}) (Some "b")).1
     (Some "b")).2 = false.
Proof.
  rewrite (add_active_then_remove_active
             (ExecutionTracker.Build {[Some "a"]} {[Some "a"]}) (Some "b"));
    [reflexivity|].
  simpl. set_solver.
Defined.

(** ** More on the runner *)

Module RunnerCases.
Import CodeExecutor RunnerSpec.

Lemma plain_is_Exception (e : exn) :
  exn_cls e = ExceptionClass → is_Exception e = true ∧ is_TimeoutExpired e = false.
Proof. unfold is_Exception, is_TimeoutExpired. by intros ->. Qed.

Lemma host_op_run {A : Type} (ev : os_event) (r : result A) (h : host) :
  runR (host_op ev r) h = (r, logged [ev] h).
Proof. unfold host_op. RunnerFacts.unfold_R. by destruct r. Qed.

Section Invocation.

Variable w : world.
Variable code : option string.
Variable execution_id : ident.
Variable timeout : option Z.

Let path := temp_filename w execution_id.

(** The host once the file was opened. *)
Let opened (h : host) : host :=
  {| files := {[path]} ∪ files h; os_trace := os_trace h ++ [OsOpen path] |}.

Lemma spawn_run (h : host) :
  runR (spawn w code execution_id) h =
    match open_result w with
    | Raise e => (Raise e, logged [OsOpen path] h)
    | Ok _ =>
        match code with
        | None =>
            (Raise (TypeError "write() argument must be str, not None"), opened h)
        | Some c =>
            match write_result w with
            | Raise e => (Raise e, logged [OsWrite path c] (opened h))
            | Ok _ => (popen_result w, logged [OsWrite path c; OsPopen path] (opened h))
            end
        end
    end.
Proof.
  unfold spawn, write_code, opened, logged. RunnerFacts.unfold_R. fold path.
  destruct (open_result w) as [[]|e]; simpl; [|done].
  destruct code as [c|]; simpl; [|done].
  destruct (write_result w) as [[]|e]; simpl; [|done].
  destruct (popen_result w) as [[]|e]; simpl; by rewrite <- !app_assoc.
Qed.

Lemma collect_run (h : host) :
  runR (collect w timeout) h =
    (match communicate_result w with
     | Raise e => Raise e
     | Ok (out, err) =>
         match decode w out with
         | Raise e => Raise e
         | Ok stdout_str =>
             match decode w err with
             | Raise e => Raise e
             | Ok stderr_str =>
                 Ok (compose_output stdout_str stderr_str (returncode w))
             end
         end
     end, logged [OsCommunicate timeout] h).
Proof.
  unfold collect, logged. RunnerFacts.unfold_R.
  destruct (communicate_result w) as [[out err]|e]; simpl; [|done].
  destruct (decode w out) as [so|e]; simpl; [|done].
  by destruct (decode w err) as [se|e].
Qed.

Lemma handlers_unbound_run (e : exn) (h : host) :
  runR (handlers timeout None e) h =
    (if is_TimeoutExpired e then
       Raise (Exn ExceptionClass
                "cannot access local variable 'process' where it is not associated with a value")
     else if is_Exception e then Ok ("Error executing code: " +:+ exn_msg e)
     else Raise e, h).
Proof.
  unfold handlers. destruct (is_TimeoutExpired e); [done|].
  by destruct (is_Exception e).
Qed.

Lemma handlers_bound_run (e : exn) (h : host) :
  runR (handlers timeout (Some tt) e) h =
    if is_TimeoutExpired e then
      (Ok ("Execution timed out after " +:+ str_timeout timeout +:+ " seconds."),
       logged [OsKill] h)
    else (if is_Exception e then Ok ("Error executing code: " +:+ exn_msg e)
          else Raise e, h).
Proof.
  unfold handlers. destruct (is_TimeoutExpired e); [done|].
  by destruct (is_Exception e).
Qed.

Lemma try_clauses_run (h : host) :
  runR (try_clauses w code execution_id timeout) h =
    let '(r, h1) := runR (spawn w code execution_id) h in
    match r with
    | Raise e => runR (handlers timeout None e) h1
    | Ok process =>
        let '(r', h2) := runR (collect w timeout) h1 in
        match r' with
        | Ok output => (Ok output, h2)
        | Raise e => runR (handlers timeout (Some process) e) h2
        end
    end.
Proof.
  unfold try_clauses.
  unfold mbind at 1. unfold R_bind at 1. cbn [runR].
  unfold attemptR at 1. cbn [runR].
  destruct (runR (spawn w code execution_id) h) as [[p|e] h1]; [|done].
  unfold mbind at 1. unfold R_bind at 1. cbn [runR].
  unfold attemptR at 1. cbn [runR].
  destruct (runR (collect w timeout) h1) as [[out|e] h2]; done.
Qed.

Lemma cleanup_returns (h : host) :
  cleanup_quiet w → ∃ h', runR (cleanup w execution_id) h = (Ok tt, h').
Proof.
  intros Hq. rewrite RunnerFacts.cleanup_spec.
  case_bool_decide; [|by eexists].
  destruct (unlink_result w) as [[]|e] eqn:Hu; [by eexists|].
  rewrite (Hq e Hu). by eexists.
Qed.

(** The [finally] clause when the file is there and deleting it raises at
    most an [Exception]. *)
Lemma cleanup_present (h : host) :
  cleanup_quiet w →
  path ∈ files h →
  ∃ h' tail,
    runR (cleanup w execution_id) h = (Ok tt, h')
    ∧ os_trace h' = os_trace h ++ [OsExists path; OsUnlink path] ++ tail
    ∧ (∀ ev, ev ∈ tail → ∃ s, ev = OsPrint s)
    ∧ (unlink_result w = Ok tt → path ∉ files h').
Proof.
  intros Hq Hin. rewrite RunnerFacts.cleanup_spec. fold path.
  rewrite bool_decide_true by done.
  destruct (unlink_result w) as [[]|e] eqn:Hu.
  - eexists _, []. split; [done|]. split; [done|].
    split; [by intros ev ?%elem_of_nil|]. intros _. simpl. set_solver.
  - rewrite (Hq e Hu). eexists _, [_]. split; [done|]. split; [done|].
    split; [|done]. intros ev ->%list_elem_of_singleton. by eexists.
Qed.

Lemma try_clauses_returns (h : host) :
  ordinary_host w →
  ∃ text h', runR (try_clauses w code execution_id timeout) h = (Ok text, h').
Proof.
  intros (Ho & Hw & Hp & Hc & Hd & _).
  rewrite try_clauses_run, spawn_run.
  destruct (open_result w) as [[]|e] eqn:Eo.
  2: { rewrite handlers_unbound_run.
       destruct (plain_is_Exception e (Ho e eq_refl)) as [-> ->]. by eexists _, _. }
  destruct code as [c|].
  2: { rewrite handlers_unbound_run. by eexists _, _. }
  destruct (write_result w) as [[]|e] eqn:Ew.
  2: { rewrite handlers_unbound_run.
       destruct (plain_is_Exception e (Hw e eq_refl)) as [-> ->]. by eexists _, _. }
  destruct (popen_result w) as [[]|e] eqn:Ep.
  2: { rewrite handlers_unbound_run.
       destruct (plain_is_Exception e (Hp e eq_refl)) as [-> ->]. by eexists _, _. }
  rewrite collect_run.
  destruct (communicate_result w) as [[out err]|e] eqn:Ec.
  2: { rewrite handlers_bound_run, (Hc e eq_refl).
       destruct (is_TimeoutExpired e); by eexists _, _. }
  destruct (decode w out) as [so|e] eqn:E1.
  2: { rewrite handlers_bound_run.
       destruct (plain_is_Exception e (Hd out e E1)) as [-> ->]. by eexists _, _. }
  destruct (decode w err) as [se|e] eqn:E2.
  2: { rewrite handlers_bound_run.
       destruct (plain_is_Exception e (Hd err e E2)) as [-> ->]. by eexists _, _. }
  by eexists _, _.
Qed.

End Invocation.

(** On an ordinary host the calls inside the [try] statement never make
    [_run_in_process] raise. *)
Lemma run_in_process_returns
    (w : world) (code : option string) (execution_id : ident)
    (timeout : option Z) (h : host) :
  ordinary_host w →
  ∃ text,
    (runR (_run_in_process w code execution_id timeout) h).1 = Ok text.
Proof.
  intros Hw. rewrite RunnerFacts.run_in_process_unfold.
  destruct (try_clauses_returns w code execution_id timeout
              (RunnerSpec.logged
                 [OsPrint ("🔄 Executing code in temporary file: "
                           +:+ temp_filename w execution_id)] h) Hw)
    as (text & h1 & ->).
  destruct (cleanup_returns w execution_id h1) as [h2 ->].
  { by destruct Hw as (_ & _ & _ & _ & _ & Hq). }
  by exists text.
Qed.

End RunnerCases.

(** ** The calls that no [try] protects *)

Module UnprotectedFacts.
Import CodeExecutor RunnerSpec.

Lemma kill_reached_spec (w : world) (code : option string) :
  kill_reached w code = true
  ↔ started w code
    ∧ ∃ e, communicate_result w = Raise e ∧ is_TimeoutExpired e = true.
Proof.
  unfold kill_reached, started. split.
  - destruct (open_result w) as [[]|?]; [|done].
    destruct code as [c|]; [|done].
    destruct (write_result w) as [[]|?]; [|done].
    destruct (popen_result w) as [[]|?]; [|done].
    destruct (communicate_result w) as [?|e]; [done|].
    intros He. repeat split; try done. by exists e.
  - intros ((-> & [c ->] & -> & ->) & e & -> & He). done.
Qed.

Section Invocation.

Variable u : Unprotected.calls.
Variable w : world.
Variable code : option string.
Variable execution_id : ident.
Variable timeout : option Z.

Let path := temp_filename w execution_id.

Lemma unprotected_handlers_run (process : option unit) (e : exn) (h : host) :
  runR (Unprotected.handlers u timeout process e) h =
    let '(r, h1) := runR (handlers timeout process e) h in
    (if is_TimeoutExpired e && bool_decide (is_Some process)
     then match Unprotected.kill_result u with
          | Ok _ => r
          | Raise e' => Raise e'
          end
     else r, h1).
Proof.
  unfold Unprotected.handlers, handlers. RunnerFacts.unfold_R.
  destruct (is_TimeoutExpired e); simpl.
  - destruct process as [[]|]; simpl; [|done].
    by destruct (Unprotected.kill_result u) as [[]|?].
  - by destruct (is_Exception e).
Qed.

(** The [try] clauses differ from those of [CodeExecutor] in the outcome
    of [kill] alone. *)
Lemma unprotected_try_clauses_run (h : host) :
  (∀ b, raises_plainly (decode w b)) →
  runR (Unprotected.try_clauses u w code execution_id timeout) h =
    let '(r, h1) := runR (try_clauses w code execution_id timeout) h in
    (if kill_reached w code
     then match Unprotected.kill_result u with
          | Ok _ => r
          | Raise e => Raise e
          end
     else r, h1).
Proof.
  intros Hd. rewrite RunnerCases.try_clauses_run.
  unfold Unprotected.try_clauses.
  unfold mbind at 1. unfold R_bind at 1. cbn [runR].
  unfold attemptR at 1. cbn [runR].
  rewrite RunnerCases.spawn_run. unfold kill_reached.
  destruct (open_result w) as [[]|e0].
  2: { rewrite unprotected_handlers_run. destruct (runR (handlers _ _ _) _) as [r h1].
       by rewrite andb_false_r. }
  destruct code as [c|].
  2: { rewrite unprotected_handlers_run. destruct (runR (handlers _ _ _) _) as [r h1].
       by rewrite andb_false_r. }
  destruct (write_result w) as [[]|e0].
  2: { rewrite unprotected_handlers_run. destruct (runR (handlers _ _ _) _) as [r h1].
       by rewrite andb_false_r. }
  destruct (popen_result w) as [[]|e0].
  2: { rewrite unprotected_handlers_run. destruct (runR (handlers _ _ _) _) as [r h1].
       by rewrite andb_false_r. }
  unfold mbind at 1. unfold R_bind at 1. cbn [runR].
  unfold attemptR at 1. cbn [runR].
  rewrite RunnerCases.collect_run.
  destruct (communicate_result w) as [[out err]|e0].
  - destruct (decode w out) as [so|e1] eqn:E1.
    + destruct (decode w err) as [se|e2] eqn:E2; [done|].
      rewrite unprotected_handlers_run, RunnerCases.handlers_bound_run.
      by destruct (RunnerCases.plain_is_Exception e2 (Hd err e2 E2)) as [-> ->].
    + rewrite unprotected_handlers_run, RunnerCases.handlers_bound_run.
      by destruct (RunnerCases.plain_is_Exception e1 (Hd out e1 E1)) as [-> ->].
  - rewrite unprotected_handlers_run. destruct (runR (handlers _ _ _) _) as [r h1].
    rewrite bool_decide_true by done. by rewrite andb_true_r.
Qed.

(** The [finally] clause, case by case. *)
Lemma unprotected_cleanup_run (h : host) :
  runR (Unprotected.cleanup u w execution_id) h =
    if bool_decide (path ∈ files h) then
      match unlink_result w with
      | Ok _ =>
          (Ok tt, {| files := files h ∖ {[path]};
                     os_trace := os_trace h ++ [OsExists path; OsUnlink path] |})
      | Raise e =>
          if is_Exception e then
            (Unprotected.print_result u
               ("Error deleting temporary file: " +:+ exn_msg e),
             logged [OsExists path; OsUnlink path;
                     OsPrint ("Error deleting temporary file: " +:+ exn_msg e)] h)
          else (Raise e, logged [OsExists path; OsUnlink path] h)
      end
    else (Ok tt, logged [OsExists path] h).
Proof.
  unfold Unprotected.cleanup, Unprotected.print, logged.
  RunnerFacts.unfold_R. fold path.
  case_bool_decide; simpl; [|done].
  destruct (unlink_result w) as [[]|e]; simpl.
  - by rewrite <- !app_assoc.
  - destruct (is_Exception e); simpl; [|by rewrite <- !app_assoc].
    destruct (Unprotected.print_result u _) as [[]|e']; simpl;
      by rewrite <- !app_assoc.
Qed.

(** The host after the [finally] clause is the one that the clause of
    [CodeExecutor] leaves. *)
Lemma cleanup_host (h : host) :
  (runR (Unprotected.cleanup u w execution_id) h).2
  = (runR (cleanup w execution_id) h).2.
Proof.
  rewrite unprotected_cleanup_run, RunnerFacts.cleanup_spec. fold path.
  case_bool_decide; [|done].
  destruct (unlink_result w) as [[]|e]; [done|]. by destruct (is_Exception e).
Qed.

Lemma run_in_process_run (h : host) :
  runR (Unprotected._run_in_process u w code execution_id timeout) h =
    match Unprotected.gettempdir_result u with
    | Raise e => (Raise e, h)
    | Ok _ =>
        match Unprotected.print_result u (announcement w execution_id) with
        | Raise e => (Raise e, logged [OsPrint (announcement w execution_id)] h)
        | Ok _ =>
            let '(r, h1) :=
              runR (Unprotected.try_clauses u w code execution_id timeout)
                (logged [OsPrint (announcement w execution_id)] h) in
            let '(c, h2) := runR (Unprotected.cleanup u w execution_id) h1 in
            (match c with Ok _ => r | Raise e => Raise e end, h2)
        end
    end.
Proof.
  unfold Unprotected._run_in_process, Unprotected.print.
  fold (announcement w execution_id).
  unfold mbind at 1. unfold R_bind at 1. cbn [runR].
  destruct (Unprotected.gettempdir_result u) as [[]|e]; [|done].
  cbn [mret R_ret runR].
  unfold mbind at 1. unfold R_bind at 1. cbn [runR].
  rewrite RunnerCases.host_op_run.
  destruct (Unprotected.print_result u _) as [[]|e]; [|done].
  apply RunnerFacts.finallyR_run.
Qed.

(** On an ordinary host, once the first line is printed, the outcome is
    that of [CodeExecutor] unless [kill] or the [print] of the [finally]
    clause raises. *)
Lemma run_in_process_ordinary (h : host) :
  ordinary_host w →
  ∃ text h1 h2 c,
    runR (try_clauses w code execution_id timeout)
      (logged [OsPrint (announcement w execution_id)] h) = (Ok text, h1)
    ∧ runR (cleanup w execution_id) h1 = (Ok tt, h2)
    ∧ runR (Unprotected.cleanup u w execution_id) h1 = (c, h2)
    ∧ (c = Ok tt ∨ ∃ s, c = Unprotected.print_result u s)
    ∧ (Unprotected.gettempdir_result u = Ok tt →
       Unprotected.print_result u (announcement w execution_id) = Ok tt →
       runR (Unprotected._run_in_process u w code execution_id timeout) h =
         (match c with
          | Ok _ =>
              if kill_reached w code
              then match Unprotected.kill_result u with
                   | Ok _ => Ok text
                   | Raise e => Raise e
                   end
              else Ok text
          | Raise e => Raise e
          end, h2)).
Proof.
  intros Hw.
  destruct (RunnerCases.try_clauses_returns w code execution_id timeout
              (logged [OsPrint (announcement w execution_id)] h) Hw)
    as (text & h1 & Htry).
  destruct Hw as (_ & _ & _ & _ & Hd & Hq).
  destruct (RunnerCases.cleanup_returns w execution_id h1 Hq) as [h2 Hfin].
  pose proof (cleanup_host h1) as Hhost. rewrite Hfin in Hhost.
  destruct (runR (Unprotected.cleanup u w execution_id) h1) as [c h2'] eqn:Hfin'.
  simpl in Hhost. subst h2'.
  exists text, h1, h2, c. split; [done|]. split; [done|]. split; [done|].
  split.
  { rewrite unprotected_cleanup_run in Hfin'. case_bool_decide.
    - destruct (unlink_result w) as [[]|e] eqn:Hu.
      + left. by injection Hfin' as <- _.
      + rewrite (Hq e Hu) in Hfin'. right. eexists. by injection Hfin' as <- _.
    - left. by injection Hfin' as <- _. }
  intros Hg Hp. rewrite run_in_process_run, Hg, Hp.
  rewrite (unprotected_try_clauses_run _ Hd), Htry. cbv beta iota zeta.
  by rewrite Hfin'.
Qed.

(** When [kill] raises, the [finally] clause still runs. *)
Lemma kill_failure (h : host) (e : exn) :
  ordinary_host w →
  Unprotected.gettempdir_result u = Ok tt →
  (∀ s, Unprotected.print_result u s = Ok tt) →
  Unprotected.kill_result u = Raise e →
  kill_reached w code = true →
  ∃ h', runR (Unprotected._run_in_process u w code execution_id timeout) h
        = (Raise e, h')
        ∧ OsKill ∈ os_trace h'
        ∧ (unlink_result w = Ok tt → path ∉ files h').
Proof.
  intros Hw Hg Hp Hk Hreach.
  destruct (run_in_process_ordinary h Hw)
    as (text & h1 & h2 & c & Htry & Hfin & Hfin' & Hc & Hrun).
  assert (c = Ok tt) as -> by (destruct Hc as [->|[s ->]]; by rewrite ?Hp).
  rewrite (Hrun Hg (Hp _)), Hreach, Hk. exists h2. split; [done|].
  apply kill_reached_spec in Hreach as (Hs & e0 & Hc0 & He0).
  destruct (RunnerFacts.try_clauses_timed_out w code execution_id timeout
              (logged [OsPrint (announcement w execution_id)] h) e0 Hs Hc0 He0)
    as (c0 & _ & Htry').
  rewrite Htry in Htry'. injection Htry' as -> ->.
  destruct Hw as (_ & _ & _ & _ & _ & Hq).
  destruct (RunnerCases.cleanup_present w execution_id
              {| files := {[temp_filename w execution_id]}
                          ∪ files (logged [OsPrint (announcement w execution_id)] h);
                 os_trace :=
                   os_trace (logged [OsPrint (announcement w execution_id)] h)
                   ++ [OsOpen (temp_filename w execution_id);
                       OsWrite (temp_filename w execution_id) c0;
                       OsPopen (temp_filename w execution_id);
                       OsCommunicate timeout; OsKill] |} Hq)
    as (h' & tail & Hrun' & Htr & _ & Hgone).
  { simpl. by apply elem_of_union_l, elem_of_singleton. }
  assert ((Ok tt, h2) = (Ok tt, h')) as [= <-]
    by (rewrite <- Hfin; exact Hrun').
  split; [|done]. rewrite Htr. cbn [os_trace].
  apply elem_of_app. left. apply elem_of_app. right.
  do 4 right. left.
Qed.

End Invocation.
End UnprotectedFacts.



Section RunnerExtras.

Import CodeExecutor.

(** X7: for an execution without code ([None], as [get("executable")]
    yields for a missing key) the runner opens the file, fails to write,
    and returns the text of the [TypeError]: no child is started, and the
    file it has just created is deleted again. *)
Theorem run_in_process_without_code
    (w : world) (execution_id : ident) (timeout : option Z) (h : host) :
  open_result w = Ok tt →
  unlink_result w = Ok tt →
  let path := temp_filename w execution_id in
  runR (_run_in_process w None execution_id timeout) h =
    (Ok "Error executing code: write() argument must be str, not None",
     {| files := files h ∖ {[path]};
        os_trace :=
          os_trace h
          ++ [OsPrint ("🔄 Executing code in temporary file: " +:+ path);
              OsOpen path; OsExists path; OsUnlink path] |}).
Proof.
  intros Ho Hu path.
  rewrite RunnerFacts.run_in_process_unfold, RunnerCases.try_clauses_run,
    RunnerCases.spawn_run, Ho, RunnerCases.handlers_unbound_run.
  cbv beta iota zeta delta [TypeError is_TimeoutExpired is_Exception exn_cls exn_msg].
  rewrite RunnerFacts.cleanup_spec. fold path. simpl.
  rewrite bool_decide_true by set_solver. rewrite Hu.
  f_equal. f_equal; [set_solver|]. by rewrite <- !app_assoc.
Qed.

(** X7 at the sample host. *)
Lemma run_in_process_without_code_witness :
  (runR (_run_in_process (Sample.obliging "" "" 0) None (Some "e1") None)
     Sample.empty_host).1
  = Ok "Error executing code: write() argument must be str, not None".
Proof.
  rewrite (run_in_process_without_code (Sample.obliging "" "" 0) (Some "e1") None
             Sample.empty_host eq_refl eq_refl).
  reflexivity.
Defined.

(** X8: when the child has finished and one of its streams does not
    decode, the runner returns the text of the decoding error alone: the
    stream that did decode and the exit code are not part of it, and the
    child, which has finished, is not killed. The deletion of the file is
    attempted, and the file is gone when the deletion returns. *)
Theorem run_in_process_undecodable_output
    (w : world) (code : option string) (execution_id : ident)
    (timeout : option Z) (h : host) (out err : list Byte.byte) (e : exn) :
  RunnerSpec.started w code →
  communicate_result w = Ok (out, err) →
  decode w out = Raise e ∨ (∃ s, decode w out = Ok s) ∧ decode w err = Raise e →
  exn_cls e = ExceptionClass →
  RunnerSpec.cleanup_quiet w →
  let path := temp_filename w execution_id in
  let '(r, h') := runR (_run_in_process w code execution_id timeout) h in
  r = Ok ("Error executing code: " +:+ exn_msg e)
  ∧ (unlink_result w = Ok tt → path ∉ files h')
  ∧ ∃ c tail,
      code = Some c
      ∧ os_trace h' =
          os_trace h
          ++ [OsPrint ("🔄 Executing code in temporary file: " +:+ path);
              OsOpen path; OsWrite path c; OsPopen path;
              OsCommunicate timeout; OsExists path; OsUnlink path]
          ++ tail
      ∧ (∀ ev, ev ∈ tail → ∃ s, ev = OsPrint s).
Proof.
  intros (Ho & [c ->] & Hw & Hp) Hc Hd He Hq path.
  destruct (RunnerCases.plain_is_Exception e He) as [Hex Hto].
  rewrite RunnerFacts.run_in_process_unfold, RunnerCases.try_clauses_run,
    RunnerCases.spawn_run, Ho, Hw, Hp.
  cbv beta iota zeta. rewrite RunnerCases.collect_run, Hc.
  assert (match decode w out with
          | Ok stdout_str =>
              match decode w err with
              | Ok stderr_str => Ok (compose_output stdout_str stderr_str (returncode w))
              | Raise e0 => Raise e0
              end
          | Raise e0 => Raise e0
          end = Raise e) as ->.
  { destruct Hd as [-> |[[s ->] ->]]; done. }
  cbv beta iota zeta. rewrite RunnerCases.handlers_bound_run, Hto, Hex.
  edestruct (RunnerCases.cleanup_present w execution_id)
    as (h' & tail & -> & Htr & Htail & Hgone); [done| |].
  { simpl. fold path. set_solver. }
  split; [done|]. split; [done|]. exists c, tail. split; [done|]. split; [|done].
  rewrite Htr. simpl. fold path. by rewrite <- !app_assoc.
Qed.

(** X8 at a child that writes bytes that are not UTF-8 and exits with 3:
    the result is the text of the decoding error, and the file is gone. *)
Lemma run_in_process_undecodable_output_witness :
  let '(r, h') :=
    runR (_run_in_process Sample2.garbled (Some "pass") (Some "e1") None)
      Sample.empty_host in
  r = Ok "Error executing code: 'utf-8' codec can't decode byte 0xff"
  ∧ temp_filename Sample2.garbled (Some "e1") ∉ files h'.
Proof.
  pose proof (run_in_process_undecodable_output Sample2.garbled (Some "pass")
                (Some "e1") None Sample.empty_host [Byte.xff] []
                (Exn ExceptionClass "'utf-8' codec can't decode byte 0xff")) as H.
  destruct (runR _ _) as [r h'].
  destruct H as (Hr & Hgone & _).
  - repeat split; try reflexivity. by eexists.
  - reflexivity.
  - by left.
  - reflexivity.
  - intros e He. discriminate He.
  - split; [exact Hr|]. by apply Hgone.
Defined.

(** X9: when the interpreter cannot be started, the runner returns the
    text of the error of [Popen]; it does not wait for any child, kills
    none, and deletes the file it wrote. *)
Theorem run_in_process_popen_failure
    (w : world) (c : string) (execution_id : ident)
    (timeout : option Z) (h : host) (e : exn) :
  open_result w = Ok tt →
  write_result w = Ok tt →
  popen_result w = Raise e →
  exn_cls e = ExceptionClass →
  RunnerSpec.cleanup_quiet w →
  let path := temp_filename w execution_id in
  let '(r, h') := runR (_run_in_process w (Some c) execution_id timeout) h in
  r = Ok ("Error executing code: " +:+ exn_msg e)
  ∧ (unlink_result w = Ok tt → path ∉ files h')
  ∧ ∃ tail,
      os_trace h' =
        os_trace h
        ++ [OsPrint ("🔄 Executing code in temporary file: " +:+ path);
            OsOpen path; OsWrite path c; OsPopen path;
            OsExists path; OsUnlink path]
        ++ tail
      ∧ (∀ ev, ev ∈ tail → ∃ s, ev = OsPrint s).
Proof.
  intros Ho Hw Hp He Hq path.
  destruct (RunnerCases.plain_is_Exception e He) as [Hex Hto].
  rewrite RunnerFacts.run_in_process_unfold, RunnerCases.try_clauses_run,
    RunnerCases.spawn_run, Ho, Hw, Hp.
  cbv beta iota zeta. rewrite RunnerCases.handlers_unbound_run, Hto, Hex.
  edestruct (RunnerCases.cleanup_present w execution_id) as (h' & tail & -> & Htr & Htail & Hgone);
    [done| |].
  { simpl. fold path. set_solver. }
  split; [done|]. split; [done|]. exists tail. split; [|done].
  rewrite Htr. simpl. fold path. by rewrite <- !app_assoc.
Qed.

(** X9 at the host without interpreter. *)
Lemma run_in_process_popen_failure_witness :
  (runR (_run_in_process Sample2.no_interpreter (Some "pass") (Some "e1") None)
     Sample.empty_host).1
  = Ok "Error executing code: [Errno 2] No such file or directory".
Proof.
  pose proof (run_in_process_popen_failure Sample2.no_interpreter "pass"
                (Some "e1") None Sample.empty_host
                (Exn ExceptionClass "[Errno 2] No such file or directory")) as H.
  destruct (runR _ _) as [r h']. simpl. apply H; try reflexivity.
  intros e He. discriminate He.
Defined.

End RunnerExtras.

Module RunnerTrace.
Import CodeExecutor RunnerSpec.

Local Ltac absent Hin :=
  repeat (apply elem_of_cons in Hin as [Hin|Hin]; [discriminate Hin|]);
  by apply elem_of_nil in Hin.

Lemma cleanup_trace (w : world) (execution_id : ident) (h : host) :
  ∃ new, os_trace (runR (cleanup w execution_id) h).2 = os_trace h ++ new
         ∧ OsKill ∉ new.
Proof.
  rewrite RunnerFacts.cleanup_spec. case_bool_decide.
  - destruct (unlink_result w) as [[]|e]; [|destruct (is_Exception e)];
      eexists; (split; [reflexivity|]); intros Hin; absent Hin.
  - eexists; (split; [reflexivity|]); intros Hin; absent Hin.
Qed.

Lemma try_clauses_trace (w : world) (code : option string)
    (execution_id : ident) (timeout : option Z) (h : host) :
  (∀ b, raises_plainly (decode w b)) →
  ∃ new,
    os_trace (runR (try_clauses w code execution_id timeout) h).2 = os_trace h ++ new
    ∧ (OsKill ∈ new ↔
       started w code
       ∧ ∃ e, communicate_result w = Raise e ∧ is_TimeoutExpired e = true).
Proof.
  intros Hd. unfold started.
  rewrite RunnerCases.try_clauses_run, RunnerCases.spawn_run.
  destruct (open_result w) as [[]|e] eqn:Eo.
  2: { rewrite RunnerCases.handlers_unbound_run. eexists. split; [reflexivity|].
       split; [intros Hin; absent Hin|naive_solver]. }
  destruct code as [c|].
  2: { rewrite RunnerCases.handlers_unbound_run.
       exists [OsOpen (temp_filename w execution_id)]. split; [reflexivity|].
       split; [intros Hin; absent Hin|].
       intros ((_ & [? ?] & _) & _). discriminate. }
  destruct (write_result w) as [[]|e] eqn:Ew.
  2: { rewrite RunnerCases.handlers_unbound_run. eexists. split.
       { simpl. rewrite <- app_assoc. reflexivity. }
       split; [intros Hin; absent Hin|naive_solver]. }
  destruct (popen_result w) as [[]|e] eqn:Ep.
  2: { rewrite RunnerCases.handlers_unbound_run. eexists. split.
       { simpl. rewrite <- app_assoc. reflexivity. }
       split; [intros Hin; absent Hin|naive_solver]. }
  rewrite RunnerCases.collect_run.
  destruct (communicate_result w) as [[out err]|e] eqn:Ec.
  - destruct (decode w out) as [so|e] eqn:E1.
    2: { rewrite RunnerCases.handlers_bound_run.
         destruct (RunnerCases.plain_is_Exception e (Hd out e E1)) as [-> ->].
         eexists. split.
         { simpl. rewrite <- !app_assoc. reflexivity. }
         split; [intros Hin; absent Hin|naive_solver]. }
    destruct (decode w err) as [se|e] eqn:E2.
    2: { rewrite RunnerCases.handlers_bound_run.
         destruct (RunnerCases.plain_is_Exception e (Hd err e E2)) as [-> ->].
         eexists. split.
         { simpl. rewrite <- !app_assoc. reflexivity. }
         split; [intros Hin; absent Hin|naive_solver]. }
    eexists. split.
    { simpl. rewrite <- !app_assoc. reflexivity. }
    split; [intros Hin; absent Hin|naive_solver].
  - rewrite RunnerCases.handlers_bound_run.
    destruct (is_TimeoutExpired e) eqn:Et.
    + eexists. split.
      { simpl. rewrite <- !app_assoc. reflexivity. }
      split; [|intros _; rewrite !elem_of_app, !elem_of_cons; naive_solver].
      intros _. split; [by eauto|]. by exists e.
    + eexists. split.
      { simpl. rewrite <- !app_assoc. reflexivity. }
      split; [intros Hin; absent Hin|].
      intros (_ & e' & [= <-] & He'). congruence.
Qed.

End RunnerTrace.

Section RunnerExtras2.

Import CodeExecutor.

(** X10: the runner kills the child exactly when the child was started and
    [communicate] raised [TimeoutExpired]: a child that could not be
    started, that finished, or whose output does not decode is never
    killed. *)
Theorem run_in_process_kills_only_on_timeout
    (w : world) (code : option string) (execution_id : ident)
    (timeout : option Z) (h : host) :
  (∀ b, raises_plainly (decode w b)) →
  OsKill ∈ invocation_trace w code execution_id timeout h
  ↔ RunnerSpec.started w code
    ∧ ∃ e, communicate_result w = Raise e ∧ is_TimeoutExpired e = true.
Proof.
  intros Hd. unfold invocation_trace.
  rewrite RunnerFacts.run_in_process_unfold.
  destruct (RunnerTrace.try_clauses_trace w code execution_id timeout
              (RunnerSpec.logged
                 [OsPrint ("🔄 Executing code in temporary file: "
                           +:+ temp_filename w execution_id)] h) Hd)
    as (new1 & Htr1 & Hkill).
  destruct (runR (try_clauses w code execution_id timeout) _) as [r h1].
  destruct (RunnerTrace.cleanup_trace w execution_id h1) as (new2 & Htr2 & Hno).
  destruct (runR (cleanup w execution_id) h1) as [c h2].
  simpl in *. rewrite Htr2, Htr1, <- !app_assoc, drop_app_length.
  rewrite <- Hkill, !elem_of_app, list_elem_of_singleton. naive_solver.
Qed.

(** X10 at the child that outlives its timeout. *)
Lemma run_in_process_kills_only_on_timeout_witness :
  OsKill ∈ invocation_trace Sample.sleepy (Some "import time") (Some "e1")
             (Some 1%Z) Sample.empty_host.
Proof.
  apply run_in_process_kills_only_on_timeout.
  - intros b e He. discriminate He.
  - split; [repeat split; try reflexivity; by eexists|].
    exists Sample.timed_out. split; reflexivity.
Defined.

End RunnerExtras2.

Module StringFacts.

Lemma append_cons (c : Ascii.ascii) (s t : string) :
  String c s +:+ t = String c (s +:+ t).
Proof. reflexivity. Qed.

Lemma length_append (s t : string) :
  String.length (s +:+ t) = String.length s + String.length t.
Proof.
  induction s as [|c s IH]; [done|]. rewrite append_cons. simpl. by rewrite IH.
Qed.

(** Strings with the same suffix appended are equal. *)
Lemma append_inj_r (s1 s2 t : string) : s1 +:+ t = s2 +:+ t → s1 = s2.
Proof.
  revert s2. induction s1 as [|c s1 IH]; intros [|c' s2] Heq; [done| | |].
  - apply (f_equal String.length) in Heq.
    rewrite append_cons in Heq. simpl in Heq. rewrite !length_append in Heq.
    simpl in Heq. lia.
  - apply (f_equal String.length) in Heq.
    rewrite append_cons in Heq. simpl in Heq. rewrite !length_append in Heq.
    simpl in Heq. lia.
  - rewrite !append_cons in Heq. injection Heq as -> Heq. f_equal. by apply IH.
Qed.

End StringFacts.

Section RunnerExtras3.

Import CodeExecutor.

(** X11: the file of an invocation is named after the text of the
    identifier, and two identifiers with different texts get different
    files. The identifier [None] is written as the text [None], so an
    execution without identifier shares its file with one whose
    identifier is the string "None". *)
Theorem temp_filename_injective (w : world) (i j : ident) :
  (temp_filename w i = temp_filename w j ↔ str_ident i = str_ident j)
  ∧ (∀ a b : string, temp_filename w (Some a) = temp_filename w (Some b) → a = b)
  ∧ temp_filename w None = temp_filename w (Some "None").
Proof.
  assert (∀ i j, temp_filename w i = temp_filename w j → str_ident i = str_ident j)
    as Hinj.
  { clear i j. intros i j. unfold temp_filename, os_path_join.
    destruct (nonempty (tempdir w) && negb (ends_with_slash (tempdir w)));
      intros Heq; repeat apply (inj (String.app _)) in Heq;
      by apply StringFacts.append_inj_r in Heq. }
  split; [|split].
  - split; [apply Hinj|]. unfold temp_filename. by intros ->.
  - intros a b Heq. apply (Hinj (Some a) (Some b) Heq).
  - reflexivity.
Qed.

(** X12: the text composed from a finished child is empty exactly when the
    child wrote nothing to either stream and exited with code 0. *)
Theorem compose_output_empty_iff_silent (stdout_str stderr_str : string) (rc : Z) :
  compose_output stdout_str stderr_str rc = ""
  ↔ stdout_str = "" ∧ stderr_str = "" ∧ rc = 0%Z.
Proof.
  unfold compose_output. split.
  - destruct stdout_str as [|c s], stderr_str as [|c' s'];
      case_bool_decide as Hrc; simpl;
      rewrite ?StringFacts.append_cons; unfold LF;
      rewrite ?StringFacts.append_cons; try discriminate.
    intros _. split; [done|]. split; [done|].
    destruct (decide (rc = 0%Z)); [done|]. by destruct Hrc.
  - intros (-> & -> & ->). reflexivity.
Qed.

End RunnerExtras3.

(** ** More on the agent *)

Module StatusFacts.
Import AgentService.

Lemma calls_app (tr1 tr2 : list effect) : calls (tr1 ++ tr2) = calls tr1 ++ calls tr2.
Proof. unfold calls. apply omap_app. Qed.

(** [update_computer_status], case by case. *)
Lemma exec_update_computer_status_cases (status : Z) (ev : env) (st : agent) :
  exec (update_computer_status status) ev st =
    match computer st with
    | None =>
        (emit (EPrint ("❌ Failed to update computer status: "
                       +:+ "'NoneType' object is not subscriptable")) st,
         Returned tt)
    | Some c =>
        let st1 := emit (ECall (UpdateComputer (c_id c) status)) st in
        match ev (trace st) (UpdateComputer (c_id c) status) with
        | Ok (VComputer c') =>
            (emit (EPrint ("💻 Computer status updated to: " +:+ pretty status))
               {| tracker := tracker st1; computer := Some c';
                  spawned := spawned st1; trace := trace st1 |},
             Returned tt)
        | Ok _ =>
            (emit (EPrint ("❌ Failed to update computer status: "
                           +:+ "type object argument after ** must be a mapping"))
               st1,
             Returned tt)
        | Raise e =>
            if is_Exception e
            then (emit (EPrint ("❌ Failed to update computer status: "
                                +:+ exn_msg e)) st1,
                  Returned tt)
            else (st1, Raised e)
        end
    end.
Proof.
  unfold update_computer_status, try_except, self_computer_id,
    DatabaseClient.update_computer.
  rewrite ExecFacts.exec_bind, ExecFacts.exec_attempt. simpl.
  destruct (computer st) as [c|]; simpl; [|done].
  destruct (ev (trace st) (UpdateComputer (c_id c) status)) as [v|e]; simpl.
  - by destruct v.
  - unfold except_Exception. by destruct (is_Exception e).
Qed.

End StatusFacts.

(** X13: [update_computer_status] makes one write to the backend, for the
    machine of the mirror, and returns whatever the backend does short of
    raising something that is no [Exception]. The record that a
    successful write returns replaces the mirror; a failed write leaves the
    mirror as it was. Without a mirror no write is made. The ledger and the
    created tasks are never touched. *)
Theorem update_computer_status_mirror (status : Z) (ev : env) (st : agent) :
  status_writes_raise_exceptions ev →
  let '(st', o) := exec (AgentService.update_computer_status status) ev st in
  o = Returned tt
  ∧ tracker st' = tracker st
  ∧ spawned st' = spawned st
  ∧ match computer st with
    | None => computer st' = None ∧ calls (trace st') = calls (trace st)
    | Some c =>
        calls (trace st') = calls (trace st) ++ [UpdateComputer (c_id c) status]
        ∧ computer st'
          = match ev (trace st) (UpdateComputer (c_id c) status) with
            | Ok (VComputer c') => Some c'
            | _ => Some c
            end
    end.
Proof.
  intros Hev. rewrite StatusFacts.exec_update_computer_status_cases.
  destruct (computer st) as [c|] eqn:Hc.
  - cbv zeta.
    destruct (ev (trace st) (UpdateComputer (c_id c) status)) as [v|e] eqn:Hr.
    + destruct v; simpl; rewrite ?Hc, !StatusFacts.calls_app; simpl;
        by rewrite ?app_nil_r.
    + rewrite (Hev _ _ _ _ Hr). simpl. rewrite Hc, !StatusFacts.calls_app. simpl.
      by rewrite ?app_nil_r.
  - simpl. rewrite Hc, StatusFacts.calls_app. simpl. by rewrite app_nil_r.
Qed.

(** X13 at a backend that refuses the write. *)
Lemma update_computer_status_mirror_witness :
  computer (exec (AgentService.update_computer_status 1)
              (fun _ _ => Raise Sample.unreachable)
              (init_agent (Some Sample.machine))).1
  = Some Sample.machine.
Proof.
  pose proof (update_computer_status_mirror 1 (fun _ _ => Raise Sample.unreachable)
                (init_agent (Some Sample.machine))) as H.
  destruct (exec _ _ _) as [st' o]. simpl in *.
  destruct H as (_ & _ & _ & _ & H); [|exact H].
  intros tr cid s e [= <-]. reflexivity.
Defined.

(** X14: a pipeline that runs alone on an idle agent, against a backend
    that takes every call, returns after exactly five calls: the status
    write Running to the machine of the agent's record, the started
    marker, the runner, the result write with what the runner returned,
    and the status write Idle, which is addressed to the machine of the
    record [c1] that the Running write returned. The record [c2] that the
    Idle write returns is the agent's record in the end. The pipeline
    leaves the active set empty and the executed set as it was. *)
Theorem process_execution_alone_on_idle_agent
    (execution : Execution) (i : ident) (ev : env) (st : agent) (c : Computer) :
  computer st = Some c →
  active st = ∅ →
  status_writes_return ev →
  execution_calls_return ev →
  let '(st', o) := exec (AgentService.process_execution execution i) ev st in
  o = Returned tt
  ∧ active st' = ∅
  ∧ executed st' = executed st
  ∧ ∃ c1 c2 logs,
      ev (trace st ++ [EAddActive i]) (UpdateComputer (c_id c) 1)
        = Ok (VComputer c1)
      ∧ calls (trace st')
        = calls (trace st)
          ++ [UpdateComputer (c_id c) 1; started_write i;
              ExecuteCode (rec_executable execution) i; result_write i logs;
              UpdateComputer (c_id c1) 2]
      ∧ computer st' = Some c2
      ∧ (∃ tr1 tr2,
           trace st' = tr1 ++ ECall (ExecuteCode (rec_executable execution) i) :: tr2
           ∧ ev tr1 (ExecuteCode (rec_executable execution) i) = Ok logs)
      ∧ (∃ tr3 tr4,
           trace st' = tr3 ++ ECall (UpdateComputer (c_id c1) 2) :: tr4
           ∧ ev tr3 (UpdateComputer (c_id c1) 2) = Ok (VComputer c2)).
Proof.
  intros Hc Hidle Hstatus Hexec. unfold active in Hidle.
  unfold AgentService.process_execution.
  rewrite ExecFacts.exec_bind_add_active.
  assert ((ExecutionTracker.add_active (tracker st) i).2 = true) as ->.
  { rewrite TrackerFacts.add_active_result. by apply bool_decide_eq_true. }
  rewrite ExecFacts.exec_bind, StatusFacts.exec_update_computer_status_cases.
  cbn [computer emit with_tracker]. rewrite Hc. cbv zeta.
  match goal with
  | |- context [ev ?tr (UpdateComputer ?cid 1)] =>
      destruct (Hstatus tr cid 1%Z) as [c1 Hc1]; rewrite Hc1
  end.
  rewrite ExecFacts.exec_bind_count_active, ExecFacts.exec_bind_print.
  unfold DatabaseClient.update_execution.
  match goal with
  | |- context [exec (await ?c ≫= _) ev ?s] =>
      destruct (Hexec (trace s) c) as [v2 Hv2];
      rewrite (ExecFacts.exec_bind_await c _ ev s v2 Hv2)
  end.
  match goal with
  | |- context [exec (await ?c ≫= _) ev ?s] =>
      destruct (Hexec (trace s) c) as [logs Hlogs];
      rewrite (ExecFacts.exec_bind_await c _ ev s logs Hlogs)
  end.
  match goal with
  | |- context [exec (await ?c ≫= _) ev ?s] =>
      destruct (Hexec (trace s) c) as [v4 Hv4];
      rewrite (ExecFacts.exec_bind_await c _ ev s v4 Hv4)
  end.
  rewrite ExecFacts.exec_bind_remove_active.
  cbn [tracker computer spawned trace emit with_tracker].
  assert (ExecutionTracker.active_executions
            (ExecutionTracker.remove_active
               (ExecutionTracker.add_active (tracker st) i).1 i).1 = ∅) as Hempty.
  { rewrite TrackerFacts.remove_active_active. simpl. rewrite Hidle. set_solver. }
  assert ((ExecutionTracker.remove_active
             (ExecutionTracker.add_active (tracker st) i).1 i).2 = true) as ->.
  { rewrite TrackerFacts.remove_active_result. apply bool_decide_eq_true.
    simpl. rewrite Hidle. set_solver. }
  rewrite ExecFacts.exec_bind, StatusFacts.exec_update_computer_status_cases.
  cbn [tracker computer spawned trace emit with_tracker]. cbv zeta.
  match goal with
  | |- context [ev ?tr (UpdateComputer ?cid 2)] =>
      destruct (Hstatus tr cid 2%Z) as [c2 Hc2]; rewrite Hc2
  end.
  rewrite ExecFacts.exec_bind_count_active.
  unfold print. rewrite ExecFacts.exec_atomic.
  cbn [tracker computer spawned trace emit with_tracker fst snd].
  split; [done|]. split; [unfold active; cbn [tracker emit]; exact Hempty|]. split.
  { unfold executed. cbn [tracker emit]. by rewrite TrackerFacts.remove_active_executed. }
  exists c1, c2, logs.
  cbn [tracker computer spawned trace emit with_tracker] in Hc1, Hlogs, Hc2.
  cbn [trace computer emit]. split; [exact Hc1|]. split; [|split; [done|split]].
  - rewrite !StatusFacts.calls_app. simpl. by rewrite <- !app_assoc.
  - eexists _, _. split; [|exact Hlogs]. by rewrite <- !app_assoc.
  - eexists _, _. split; [|exact Hc2]. by rewrite <- !app_assoc.
Qed.

(** X14 at a backend that renames the machine: the Idle write goes to the
    identifier that the Running write returned. *)
Lemma process_execution_alone_on_idle_agent_witness :
  calls (trace (exec (AgentService.process_execution
                        (record (Sample.job (Some "e1") None)) (Some "e1"))
                  Sample2.renaming (init_agent (Some Sample.machine))).1)
  = [UpdateComputer "c1" 1; started_write (Some "e1");
     ExecuteCode (Some "print('hello')") (Some "e1");
     result_write (Some "e1") (VStr "ok"); UpdateComputer "c2" 2].
Proof.
  pose proof (process_execution_alone_on_idle_agent
                (record (Sample.job (Some "e1") None)) (Some "e1")
                Sample2.renaming (init_agent (Some Sample.machine))
                Sample.machine eq_refl eq_refl) as H.
  destruct (exec _ _ _) as [st' o].
  destruct H as (_ & _ & _ & c1 & c2 & logs & Hc1 & Hcalls
                 & _ & (tr1 & tr2 & _ & Hlogs) & _).
  - intros tr cid s. unfold Sample2.renaming.
    destruct s as [|[]|]; by eexists.
  - intros tr []; simpl; eauto.
  - injection Hc1 as <-. injection Hlogs as <-. exact Hcalls.
Defined.

Module PipelineFacts.
Import AgentService.

(** What the optional status write of [process_execution] adds to the
    trace: prints, and at most writes of that status. *)
Lemma exec_status_if_trace (b : bool) (status : Z) (ev : env) (st : agent) :
  status_writes_raise_exceptions ev →
  ∃ st' new,
    exec (if b then update_computer_status status else Ret tt) ev st
      = (st', Returned tt)
    ∧ tracker st' = tracker st
    ∧ trace st' = trace st ++ new
    ∧ (∀ a, a ∈ new →
         (∃ s, a = EPrint s) ∨ (∃ cid, a = ECall (UpdateComputer cid status))).
Proof.
  intros Hev. destruct b.
  2: { exists st, []. split; [done|]. split; [done|]. split; [by rewrite app_nil_r|].
       by intros a ?%elem_of_nil. }
  rewrite StatusFacts.exec_update_computer_status_cases.
  destruct (computer st) as [c|].
  2: { eexists _, [_]. split; [done|]. split; [done|]. split; [done|].
       intros a ->%list_elem_of_singleton. left. by eexists. }
  cbv zeta.
  destruct (ev (trace st) (UpdateComputer (c_id c) status)) as [v|e] eqn:Hr.
  - destruct v; eexists _, [_; _];
      (split; [done|]); (split; [done|]);
      (split; [simpl; by rewrite <- app_assoc|]);
      intros a [-> | ->%list_elem_of_singleton]%elem_of_cons; eauto.
  - rewrite (Hev _ _ _ _ Hr). eexists _, [_; _].
    split; [done|]. split; [done|]. split; [simpl; by rewrite <- app_assoc|].
    intros a [-> | ->%list_elem_of_singleton]%elem_of_cons; eauto.
Qed.

Lemma exec_bind_await_raise {B : Type} (c : call) (k : value → prog B)
    (ev : env) (st : agent) (e : exn) :
  ev (trace st) c = Raise e →
  exec (await c ≫= k) ev st = (emit (ECall c) st, Raised e).
Proof. intros Hr. rewrite ExecFacts.exec_bind, ExecFacts.exec_await, Hr. done. Qed.

End PipelineFacts.

(** X15: when the write of the started marker, the runner or the result
    write raises, [process_execution] raises that exception to the event
    loop with the identifier still in the active set: [remove_active] is
    never reached and no Idle status is written. *)
Theorem process_execution_failure_leaves_active
    (execution : Execution) (i : ident) (ev : env) (st : agent) (e : exn) :
  status_writes_raise_exceptions ev →
  pipeline_call_raises ev execution i e →
  let '(st', o) := exec (AgentService.process_execution execution i) ev st in
  o = Raised e
  ∧ active st' = {[i]} ∪ active st
  ∧ ∃ new, trace st' = trace st ++ new
           ∧ (ERemoveActive i ∉ new)
           ∧ (∀ cid, ECall (UpdateComputer cid 2) ∉ new).
Proof.
  intros Hstatus Hraise. unfold AgentService.process_execution.
  rewrite ExecFacts.exec_bind_add_active, ExecFacts.exec_bind.
  destruct (PipelineFacts.exec_status_if_trace
              (ExecutionTracker.add_active (tracker st) i).2 1 ev
              (emit (EAddActive i)
                 (with_tracker (ExecutionTracker.add_active (tracker st) i).1 st))
              Hstatus)
    as (st1 & new1 & -> & Htk1 & Htr1 & Hnew1).
  cbv beta iota.
  rewrite ExecFacts.exec_bind_count_active, ExecFacts.exec_bind_print.
  unfold DatabaseClient.update_execution.
  assert (∀ new2,
            (∀ a, a ∈ new2 → (∃ s, a = EPrint s) ∨ (∃ c, a = ECall c ∧ ∀ cid, c ≠ UpdateComputer cid 2)) →
            (ERemoveActive i ∉ EAddActive i :: new1 ++ new2)
            ∧ ∀ cid, ECall (UpdateComputer cid 2) ∉ EAddActive i :: new1 ++ new2)
    as Hclean.
  { intros new2 Hnew2. split; [|intros cid];
      intros [Hin|[Hin|Hin]%elem_of_app]%elem_of_cons; try discriminate.
    - destruct (Hnew1 _ Hin) as [[s Hs]|[cid Hs]]; discriminate.
    - destruct (Hnew2 _ Hin) as [[s Hs]|(c & Hs & _)]; discriminate.
    - destruct (Hnew1 _ Hin) as [[s Hs]|[cid' Hs]]; discriminate.
    - destruct (Hnew2 _ Hin) as [[s Hs]|(c & [= <-] & Hc)]; [discriminate|].
      by apply (Hc cid). }
  assert (active st1 = {[i]} ∪ active st) as Hact.
  { unfold active. by rewrite Htk1. }
  destruct Hraise as [H1|[H1 [H2|[H2 H3]]]].
  - rewrite (PipelineFacts.exec_bind_await_raise _ _ _ _ e) by apply H1.
    split; [done|]. split; [exact Hact|].
    eexists (EAddActive i :: new1 ++ [_; _]). split.
    { simpl. rewrite Htr1. simpl. by rewrite <- !app_assoc. }
    apply Hclean. intros a [-> | ->%list_elem_of_singleton]%elem_of_cons; [eauto|].
    right. eexists. split; [done|]. intros cid. discriminate.
  - match goal with
    | |- context [exec (await ?c ≫= _) ev ?s] =>
        destruct (H1 (trace s)) as [v2 Hv2];
        rewrite (ExecFacts.exec_bind_await c _ ev s v2 Hv2)
    end.
    rewrite (PipelineFacts.exec_bind_await_raise _ _ _ _ e) by apply H2.
    split; [done|]. split; [exact Hact|].
    eexists (EAddActive i :: new1 ++ [_; _; _]). split.
    { simpl. rewrite Htr1. simpl. by rewrite <- !app_assoc. }
    apply Hclean.
    intros a [-> |[-> | ->%list_elem_of_singleton]%elem_of_cons]%elem_of_cons;
      [eauto|right; eexists; split; [done|]; intros cid; discriminate..].
  - match goal with
    | |- context [exec (await ?c ≫= _) ev ?s] =>
        destruct (H1 (trace s)) as [v2 Hv2];
        rewrite (ExecFacts.exec_bind_await c _ ev s v2 Hv2)
    end.
    match goal with
    | |- context [exec (await ?c ≫= _) ev ?s] =>
        destruct (H2 (trace s)) as [logs Hlogs];
        rewrite (ExecFacts.exec_bind_await c _ ev s logs Hlogs)
    end.
    rewrite (PipelineFacts.exec_bind_await_raise _ _ _ _ e) by apply H3.
    split; [done|]. split; [exact Hact|].
    eexists (EAddActive i :: new1 ++ [_; _; _; _]). split.
    { simpl. rewrite Htr1. simpl. by rewrite <- !app_assoc. }
    apply Hclean.
    intros a [-> |[-> |[-> | ->%list_elem_of_singleton]%elem_of_cons]%elem_of_cons]%elem_of_cons;
      [eauto|right; eexists; split; [done|]; intros cid; discriminate..].
Qed.

(** X15 at a backend that refuses the writes of executions. *)
Lemma process_execution_failure_leaves_active_witness :
  active (exec (AgentService.process_execution
                  (record (Sample.job (Some "e1") None)) (Some "e1"))
            Sample2.read_only (init_agent (Some Sample.machine))).1
  = {[Some "e1"]} ∪ ∅.
Proof.
  pose proof (process_execution_failure_leaves_active
                (record (Sample.job (Some "e1") None)) (Some "e1")
                Sample2.read_only (init_agent (Some Sample.machine))
                Sample.unreachable) as H.
  destruct (exec _ _ _) as [st' o].
  apply H.
  - intros tr cid s e He. discriminate He.
  - left. intros tr. reflexivity.
Defined.

(** ** More on the service loop *)

Module RunFacts.
Import AgentService.

(** While every sleep returns, the loop goes on. *)
Lemma exec_service_loop (fuel : nat) (ev : env) (st : agent) :
  (∀ tr s, ∃ v, ev tr (Sleep s) = Ok v) →
  ∃ st', exec (service_loop fuel) ev st = (st', Diverged)
         ∧ calls (trace st') = calls (trace st) ++ replicate fuel (Sleep 3600)
         ∧ tracker st' = tracker st ∧ computer st' = computer st
         ∧ spawned st' = spawned st.
Proof.
  intros Hsleep. revert st. induction fuel as [|fuel IH]; intros st.
  - exists st. simpl. by rewrite app_nil_r.
  - cbn [service_loop].
    destruct (Hsleep (trace st) (60 * 60)%Z) as [v Hv].
    rewrite (ExecFacts.exec_bind_await _ _ _ _ v Hv).
    destruct (IH (emit (ECall (Sleep (60 * 60))) st)) as (st' & -> & Hc & Ht & Hm & Hs).
    exists st'. split; [done|]. split; [|done].
    rewrite Hc. simpl. rewrite StatusFacts.calls_app. simpl.
    by rewrite <- app_assoc.
Qed.

(** [exec_bind] for a bind that shows its instance. *)
Lemma exec_prog_mbind {A B : Type} (p : prog A) (f : A → prog B) (ev : env) (st : agent) :
  exec (prog_mbind A B f p) ev st =
    let '(st', o) := exec p ev st in
    match o with
    | Returned a => exec (f a) ev st'
    | Raised e => (st', Raised e)
    | Diverged => (st', Diverged)
    end.
Proof. apply (ExecFacts.exec_bind p f). Qed.

End RunFacts.

(** X16: [run] on an agent without a machine record (one that was not
    initialised) makes no call at all: the failure to read the record's
    identifier is printed, the [finally] clause skips both the Offline
    write and the unsubscribe, and [run] returns. *)
Theorem run_without_computer (fuel : nat) (ev : env) (st : agent) :
  computer st = None →
  let '(st', o) := exec (AgentService.run fuel) ev st in
  o = Returned tt
  ∧ calls (trace st') = calls (trace st)
  ∧ tracker st' = tracker st
  ∧ computer st' = None.
Proof.
  intros Hc. unfold AgentService.run, AgentService.self_computer_id.
  rewrite ExecFacts.exec_bind, ExecFacts.exec_attempt. simpl. rewrite Hc. simpl.
  rewrite Hc. simpl. rewrite !StatusFacts.calls_app. simpl.
  by rewrite !app_nil_r.
Qed.

(** X16 at the agent as its constructor leaves it. *)
Lemma run_without_computer_witness :
  (exec (AgentService.run 1) Sample2.healthy (init_agent None)).2 = Returned tt.
Proof.
  pose proof (run_without_computer 1 Sample2.healthy (init_agent None) eq_refl) as H.
  destruct (exec _ _ _) as [st' o]. apply H.
Defined.

(** X17: when the subscription cannot be established, [run] still writes
    the Offline status, once, and calls no unsubscribe handle, for there is
    none; an [Exception] of the subscription is printed and, when the
    Offline write returns the record, [run] returns. *)
Theorem run_subscription_failure
    (fuel : nat) (ev : env) (st : agent) (c : Computer) (e : exn) :
  computer st = Some c →
  (∀ tr, ev tr (SubscribeToExecutions (c_id c)) = Raise e) →
  let '(st', o) := exec (AgentService.run fuel) ev st in
  calls (trace st')
    = calls (trace st) ++ [SubscribeToExecutions (c_id c); UpdateComputer (c_id c) 0]
  ∧ (is_Exception e = true →
     status_writes_return ev →
     o = Returned tt).
Proof.
  intros Hc Hsub. unfold AgentService.run, AgentService.self_computer_id,
    DatabaseClient.subscribe_to_executions.
  rewrite ExecFacts.exec_bind, ExecFacts.exec_attempt. simpl. rewrite Hc. simpl.
  rewrite Hsub. simpl. unfold except_Exception.
  destruct (is_Exception e) eqn:He; simpl; rewrite Hc; simpl.
  - match goal with
    | |- context [ev ?tr (UpdateComputer ?cid 0)] =>
        destruct (ev tr (UpdateComputer cid 0%Z)) as [v|e'] eqn:Hoff
    end.
    + destruct v; simpl; rewrite !StatusFacts.calls_app; simpl;
        (split; [by rewrite <- !app_assoc|]); intros _ Hret;
        try done;
        match type of Hoff with
        | ev ?tr _ = _ => destruct (Hret tr (c_id c) 0%Z) as [c' Hc']
        end; congruence.
    + simpl. rewrite !StatusFacts.calls_app; simpl.
      split; [by rewrite <- !app_assoc|]. intros _ Hret.
      match type of Hoff with
      | ev ?tr _ = _ => destruct (Hret tr (c_id c) 0%Z) as [c' Hc']
      end; congruence.
  - match goal with
    | |- context [ev ?tr (UpdateComputer ?cid 0)] =>
        destruct (ev tr (UpdateComputer cid 0%Z)) as [v|e'] eqn:Hoff
    end.
    + destruct v; simpl; rewrite !StatusFacts.calls_app; simpl;
        (split; [by rewrite <- !app_assoc|]); intros; discriminate.
    + simpl. rewrite !StatusFacts.calls_app; simpl.
      split; [by rewrite <- !app_assoc|]. intros; discriminate.
Qed.

(** X17 at a backend without connection. *)
Lemma run_subscription_failure_witness :
  calls (trace (exec (AgentService.run 1) (fun _ _ => Raise Sample.unreachable)
                  (init_agent (Some Sample.machine))).1)
  = [SubscribeToExecutions "c1"; UpdateComputer "c1" 0].
Proof.
  pose proof (run_subscription_failure 1 (fun _ _ => Raise Sample.unreachable)
                (init_agent (Some Sample.machine)) Sample.machine
                Sample.unreachable eq_refl (fun _ => eq_refl)) as H.
  destruct (exec _ _ _) as [st' o]. apply H.
Defined.

(** X18: the loop of [run] has no exit of its own. While the subscription
    is established and every sleep returns, [run] does not return, however
    much fuel it is given: it subscribes, sleeps once per unit of fuel, and
    makes neither the Offline write nor the unsubscribe call. *)
Theorem run_does_not_return_while_sleeps_return
    (fuel : nat) (ev : env) (st : agent) (c : Computer) :
  computer st = Some c →
  (∀ tr cid, ∃ v, ev tr (SubscribeToExecutions cid) = Ok v) →
  (∀ tr s, ∃ v, ev tr (Sleep s) = Ok v) →
  let '(st', o) := exec (AgentService.run fuel) ev st in
  o = Diverged
  ∧ calls (trace st')
    = calls (trace st)
      ++ SubscribeToExecutions (c_id c) :: replicate fuel (Sleep 3600).
Proof.
  intros Hc Hsub Hsleep. unfold AgentService.run, AgentService.self_computer_id,
    DatabaseClient.subscribe_to_executions.
  rewrite ExecFacts.exec_bind, ExecFacts.exec_attempt. simpl. rewrite Hc. simpl.
  match goal with
  | |- context [ev ?tr (SubscribeToExecutions ?cid)] =>
      destruct (Hsub tr cid) as [u ->]
  end.
  simpl.
  rewrite RunFacts.exec_prog_mbind, ExecFacts.exec_attempt,
    RunFacts.exec_prog_mbind, ExecFacts.exec_attempt.
  match goal with
  | |- context [exec (AgentService.service_loop fuel) ev ?s] =>
      destruct (RunFacts.exec_service_loop fuel ev s Hsleep)
        as (st' & -> & Hcalls & _)
  end.
  split; [done|]. rewrite Hcalls. simpl. rewrite !StatusFacts.calls_app. simpl.
  by rewrite !app_nil_r, <- app_assoc.
Qed.

(** X18 with fuel for three sleeps. *)
Lemma run_does_not_return_while_sleeps_return_witness :
  (exec (AgentService.run 3) Sample2.healthy (init_agent (Some Sample.machine))).2
  = Diverged.
Proof.
  pose proof (run_does_not_return_while_sleeps_return 3 Sample2.healthy
                (init_agent (Some Sample.machine)) Sample.machine eq_refl) as H.
  destruct (exec _ _ _) as [st' o]. apply H.
  - intros tr cid. by eexists.
  - intros tr s. by eexists.
Defined.

(** ** More on the event loop *)

Module DeliveryFacts.

Lemma union_seen_l (seen ids : gset ident) (a b : ident) :
  a ∈ seen → b ∈ seen ∪ ({[a]} ∪ ids) ↔ b ∈ seen ∪ ids.
Proof.
  intros Hin. rewrite !elem_of_union, elem_of_singleton. split; [|tauto].
  intros [?|[->|?]]; tauto.
Qed.

Lemma union_seen_r (seen ids : gset ident) (a b : ident) :
  b ∈ seen ∪ ({[a]} ∪ ids) ↔ b ∈ ({[a]} ∪ seen) ∪ ids.
Proof. rewrite !elem_of_union. tauto. Qed.

Lemma first_events_snoc (seen : gset ident) (evs : list RealtimeEvent)
    (event : RealtimeEvent) :
  first_events seen (evs ++ [event]) =
    first_events seen evs
    ++ (if bool_decide (rec_id (record event)
                          ∈ seen ∪ list_to_set ((λ ev, rec_id (record ev)) <$> evs))
        then [] else [event]).
Proof.
  revert seen. induction evs as [|ev evs IH]; intros seen.
  - simpl. rewrite union_empty_r_L. by case_bool_decide.
  - rewrite fmap_cons, list_to_set_cons. cbn [app first_events].
    case_bool_decide as Hin.
    + rewrite IH. f_equal.
      apply (f_equal (λ b : bool, if b then [] else [event])).
      apply bool_decide_ext. symmetry. by apply union_seen_l.
    + rewrite IH. cbn [app]. f_equal. f_equal.
      apply (f_equal (λ b : bool, if b then [] else [event])).
      apply bool_decide_ext. symmetry. apply union_seen_r.
Qed.

Lemma delivered_snoc (ls : list label) (l : label) :
  delivered (ls ++ [l]) =
    delivered ls ++ match l with Deliver event => [event] | Resume _ _ => [] end.
Proof. unfold delivered. rewrite omap_app. by destruct l. Qed.

(** A step of a task creates no task and adds at most a dispatched
    identifier to the active set. *)
Lemma step_resume_frame (sys : system) (j : nat) (r : result value) :
  sys_inv sys →
  spawned (sys_agent (step sys (Resume j r))) = spawned (sys_agent sys)
  ∧ ∀ k, k ∈ active (sys_agent (step sys (Resume j r))) →
         k ∈ active (sys_agent sys) ∨ k ∈ dispatched sys.
Proof.
  intros (Htasks & _). unfold step.
  destruct (sys_tasks sys !! j) as [t|] eqn:Hj; [|by eauto].
  destruct (Forall2_lookup_l _ _ _ _ _ Htasks Hj) as ([e i] & Hd & Hconf).
  destruct (AgentFacts.resume_confined i r t (sys_agent sys) Hconf) as [Hf _].
  destruct (resume r t (sys_agent sys)) as [st t']. simpl in *.
  destruct Hf as (_ & Hs & Ha). split; [done|].
  intros k Hk. apply Ha in Hk. apply elem_of_union in Hk as [Hk|Hk]; [by left|].
  apply elem_of_singleton in Hk as ->. right.
  unfold dispatched. apply list_elem_of_fmap. exists (e, i).
  split; [done|]. by eapply list_elem_of_lookup_2.
Qed.

Lemma spawned_closed_form (c : option Computer) (ls : list label) :
  spawned (sys_agent (steps (init_system c) ls))
  = task_arguments
      <$> filter (λ ev, truthy (rec_completed (record ev)) = false)
            (first_events ∅ (delivered ls)).
Proof.
  induction ls as [|l ls IH] using rev_ind; [done|].
  rewrite LoopFacts.steps_snoc, delivered_snoc.
  pose proof (LoopFacts.steps_inv _ ls (LoopFacts.init_inv c)) as Hinv.
  destruct l as [event|j r].
  - rewrite LoopFacts.step_deliver. simpl.
    rewrite LoopFacts.handled_spawned, IH, first_events_snoc.
    rewrite filter_app, fmap_app, union_empty_l_L.
    unfold ExecutionTracker.is_executed.
    fold (executed (sys_agent (steps (init_system c) ls))).
    assert (bool_decide (rec_id (record event)
                           ∈ executed (sys_agent (steps (init_system c) ls)))
            = bool_decide (rec_id (record event)
                             ∈ (list_to_set ((λ ev, rec_id (record ev)) <$> delivered ls)
                                : gset ident))) as ->.
    { apply bool_decide_ext. rewrite LoopFacts.steps_executed, elem_of_list_to_set,
        list_elem_of_fmap. naive_solver. }
    case_bool_decide; simpl; [by rewrite app_nil_r|].
    rewrite filter_cons, filter_nil.
    destruct (truthy _) eqn:Hc; simpl; rewrite ?app_nil_r; done.
  - rewrite app_nil_r, <- IH. by apply step_resume_frame.
Qed.

End DeliveryFacts.

(** X19: the tasks created in a run of the event loop are, in the order
    of arrival, those of the events that are the first with their
    identifier and are not completed; each task gets the record of that
    first event. Steps of the tasks create none. *)
Theorem spawned_tasks_are_first_uncompleted_events
    (c : option Computer) (ls : list label) :
  spawned (sys_agent (steps (init_system c) ls))
  = task_arguments
      <$> filter (λ ev, truthy (rec_completed (record ev)) = false)
            (first_events ∅ (delivered ls)).
Proof. apply DeliveryFacts.spawned_closed_form. Qed.

(** X19 at a run with a repeated, a completed and a late event. *)
Lemma spawned_tasks_are_first_uncompleted_events_witness :
  dispatched
    (steps (init_system None)
       [Deliver (Sample.job (Some "a") None);
        Deliver (Sample.job (Some "b") (Some true));
        Resume 0 (Ok VNone);
        Deliver (Sample.job (Some "a") None);
        Deliver (Sample.job (Some "b") None);
        Deliver (Sample.job None (Some false))])
  = [Some "a"; None].
Proof.
  unfold dispatched. rewrite spawned_tasks_are_first_uncompleted_events.
  reflexivity.
Defined.

(** X20: in every state that the event loop reaches, every active
    identifier is one that was dispatched: an identifier whose first event
    arrived completed is never active. *)
Theorem active_identifiers_were_dispatched
    (c : option Computer) (ls : list label) (i : ident) :
  i ∈ active (sys_agent (steps (init_system c) ls)) →
  i ∈ dispatched (steps (init_system c) ls)
  ∧ ∃ event, event ∈ first_events ∅ (delivered ls)
             ∧ rec_id (record event) = i
             ∧ truthy (rec_completed (record event)) = false.
Proof.
  assert (∀ ls k, k ∈ active (sys_agent (steps (init_system c) ls))
                  → k ∈ dispatched (steps (init_system c) ls)) as Hsub.
  { clear ls i. intros ls. induction ls as [|l ls IH] using rev_ind; intros k.
    - unfold active. simpl. by intros ?%not_elem_of_empty.
    - rewrite LoopFacts.steps_snoc.
      pose proof (LoopFacts.steps_inv _ ls (LoopFacts.init_inv c)) as Hinv.
      destruct l as [event|j r].
      + rewrite LoopFacts.step_deliver. unfold dispatched in *. simpl.
        rewrite LoopFacts.handled_active, LoopFacts.handled_spawned.
        intros Hk%IH. destruct (_ || _); [done|].
        rewrite fmap_app. apply elem_of_app. by left.
      + destruct (DeliveryFacts.step_resume_frame _ j r Hinv) as [Hs Ha].
        intros [Hk|Hk]%Ha; unfold dispatched in *; rewrite Hs; [by apply IH|done]. }
  intros Hin. apply Hsub in Hin. split; [done|].
  unfold dispatched in Hin.
  rewrite DeliveryFacts.spawned_closed_form in Hin.
  apply list_elem_of_fmap in Hin as ([e k] & -> & Hin).
  apply list_elem_of_fmap in Hin as (event & [= -> ->] & Hin).
  apply list_elem_of_filter in Hin as [Hc Hin]. by exists event.
Qed.

(** X20 at an identifier that is in flight. *)
Lemma active_identifiers_were_dispatched_witness :
  Some "a" ∈ dispatched
    (steps (init_system None)
       [Deliver (Sample.job (Some "a") None); Resume 0 (Ok VNone)]).
Proof.
  apply (active_identifiers_were_dispatched None
           [Deliver (Sample.job (Some "a") None); Resume 0 (Ok VNone)] (Some "a")).
  vm_compute. reflexivity.
Defined.

(** ** Status transitions *)

Module StatusDiscipline.
Import AgentService.

Lemma active_at_snoc (tr : list effect) (a : effect) :
  active_at (tr ++ [a]) =
    match a with
    | EAddActive i => {[i]} ∪ active_at tr
    | ERemoveActive i => active_at tr ∖ {[i]}
    | _ => active_at tr
    end.
Proof. unfold active_at. by rewrite foldl_app. Qed.

Lemma due_snoc (tr : list effect) (a : effect) :
  due (tr ++ [a]) =
    match a with
    | EAddActive _ => if bool_decide (active_at tr = ∅) then Some 1%Z else None
    | ERemoveActive i =>
        if bool_decide (active_at tr ∖ {[i]} = ∅) then Some 2%Z else None
    | _ => None
    end.
Proof.
  unfold due. rewrite last_snoc, removelast_last, active_at_snoc. by destruct a.
Qed.

Lemma disciplined_nil : disciplined [].
Proof. intros tr1 a tr2 Heq. by destruct tr1. Qed.

Lemma disciplined_snoc (tr : list effect) (a : effect) :
  disciplined tr → follows_due tr a → disciplined (tr ++ [a]).
Proof.
  intros Htr Ha tr1 b tr2 Heq.
  destruct tr2 as [|x tr2 _] using rev_ind.
  - apply app_inj_tail in Heq as [-> ->]. done.
  - rewrite app_comm_cons, app_assoc in Heq.
    apply app_inj_tail in Heq as [-> _]. by eapply Htr.
Qed.

(** An action that is no call follows a trace after which nothing is
    due. *)
Lemma follows_due_quiet (tr : list effect) (a : effect) :
  due tr = None → (∀ c, a ≠ ECall c) → follows_due tr a.
Proof.
  intros Hdue Ha s. rewrite Hdue. split; [done|]. intros [cid ->]. by destruct (Ha (UpdateComputer cid s)).
Qed.

Lemma follows_due_other_call (tr : list effect) (c : call) :
  due tr = None → (∀ cid s, c ≠ UpdateComputer cid s) → follows_due tr (ECall c).
Proof.
  intros Hdue Hc s. rewrite Hdue. split; [done|]. intros [cid [= ->]]. by destruct (Hc cid s).
Qed.

Lemma follows_due_status (tr : list effect) (cid : string) (s : Z) :
  due tr = Some s → follows_due tr (ECall (UpdateComputer cid s)).
Proof.
  intros Hdue s'. rewrite Hdue. split.
  - intros [= ->]. by exists cid.
  - by intros [cid' [= -> ->]].
Qed.

Lemma wp_mono {A : Type} (p : prog A) (st : agent)
    (Q Q' : A → agent → Prop) (Qe Qe' : exn → agent → Prop) :
  (∀ a st', Q a st' → Q' a st') →
  (∀ e st', Qe e st' → Qe' e st') →
  wp p st Q Qe → wp p st Q' Qe'.
Proof.
  intros HQ HQe. revert st.
  induction p as [a|e|X g k IH|c k IH|]; intros st; simpl; [by auto..| | |done].
  - intros [Hq Hk]. split; [done|]. by apply IH.
  - intros [Hc Hk]. split; [done|]. intros r st' Hst'. by apply IH, Hk.
Qed.

Lemma wp_bind {A B : Type} (p : prog A) (f : A → prog B) (st : agent)
    (Q : B → agent → Prop) (Qe : exn → agent → Prop) :
  wp p st (λ a st', wp (f a) st' Q Qe) Qe → wp (p ≫= f) st Q Qe.
Proof.
  revert st. induction p as [a|e|X g k IH|c k IH|]; intros st; simpl; [done..| | |done].
  - intros [Hq Hk]. split; [done|]. by apply IH.
  - intros [Hc Hk]. split; [done|]. intros r st' Hst'. by apply IH, Hk.
Qed.

Lemma wp_attempt {A : Type} (p : prog A) (st : agent)
    (Q : result A → agent → Prop) (Qe : exn → agent → Prop) :
  wp p st (λ a, Q (Ok a)) (λ e, Q (Raise e)) → wp (attempt p) st Q Qe.
Proof.
  revert st. induction p as [a|e|X g k IH|c k IH|]; intros st; simpl; [done..| | |done].
  - intros [Hq Hk]. split; [done|]. by apply IH.
  - intros [Hc Hk]. split; [done|]. intros r st' Hst'. by apply IH, Hk.
Qed.

Lemma sound_emit (a : effect) (st : agent) :
  sound st →
  (∀ i, a ≠ EAddActive i) → (∀ i, a ≠ ERemoveActive i) →
  sound (emit a st).
Proof.
  intros [Ha Hc] Hadd Hrem. split; [|done]. unfold active in *. simpl.
  rewrite active_at_snoc, Ha. destruct a; try done.
  - by destruct (Hadd i).
  - by destruct (Hrem i).
Qed.

(** A step that emits one action that is neither a call, an add nor a
    remove. *)
Lemma quiet_emit (a : effect) (st : agent) :
  settled st →
  (∀ c, a ≠ ECall c) → (∀ i, a ≠ EAddActive i) → (∀ i, a ≠ ERemoveActive i) →
  quiet_step st (emit a st) ∧ settled (emit a st).
Proof.
  intros [Hs Hd] Hc Hadd Hrem.
  pose proof (sound_emit a st Hs Hadd Hrem) as Hs'.
  split; [split; [done|]; right; by exists a|]. split; [done|].
  simpl. rewrite due_snoc. destruct a; try done.
  - by destruct (Hadd i).
  - by destruct (Hrem i).
Qed.

Lemma wp_atomic {X : Type} (f : agent → agent * X) (st : agent)
    (Q : X → agent → Prop) (Qe : exn → agent → Prop) :
  quiet_step st (f st).1 → Q (f st).2 (f st).1 → wp (atomic f) st Q Qe.
Proof. by split. Qed.

Lemma wp_print (s : string) (st : agent)
    (Q : unit → agent → Prop) (Qe : exn → agent → Prop) :
  settled st →
  (∀ st', settled st' → Q tt st') →
  wp (print s) st Q Qe.
Proof.
  intros Hst HQ. destruct (quiet_emit (EPrint s) st Hst) as [Hq Hs']; [done..|].
  apply wp_atomic; [done|]. by apply HQ.
Qed.

Lemma wp_await (c : call) (st : agent)
    (Q : value → agent → Prop) (Qe : exn → agent → Prop) :
  follows_due (trace st) (ECall c) →
  (∀ v st', settled st' → Q v st') →
  (∀ e st', settled st' → Qe e st') →
  wp (await c) st Q Qe.
Proof.
  intros Hc HQ HQe. split; [done|]. intros [v|e] st' Hst'; simpl; auto.
Qed.

Lemma wp_silent {X : Type} (g : agent → X) (st : agent)
    (Q : X → agent → Prop) (Qe : exn → agent → Prop) :
  sound st → Q (g st) st → wp (atomic (λ st0, (st0, g st0))) st Q Qe.
Proof. intros Hs HQ. apply wp_atomic; [|done]. split; [done|by left]. Qed.

Lemma wp_ret {A : Type} (a : A) (st : agent)
    (Q : A → agent → Prop) (Qe : exn → agent → Prop) :
  Q a st → wp (Ret a) st Q Qe.
Proof. done. Qed.

Lemma wp_throw {A : Type} (e : exn) (st : agent)
    (Q : A → agent → Prop) (Qe : exn → agent → Prop) :
  Qe e st → wp (Throw e : prog A) st Q Qe.
Proof. done. Qed.

Lemma wp_set_computer (c : Computer) (st : agent)
    (Q : unit → agent → Prop) (Qe : exn → agent → Prop) :
  settled st →
  (∀ st', settled st' → Q tt st') →
  wp (set_computer c) st Q Qe.
Proof.
  intros [[Ha Hc] Hd] HQ.
  assert (settled {| tracker := tracker st; computer := Some c;
                     spawned := spawned st; trace := trace st |}) as Hset
    by (by repeat split).
  apply wp_atomic; [|by apply HQ]. split; [apply Hset|by left].
Qed.

(** The handler of [update_computer_status] prints and goes on. *)
Lemma wp_status_handler (e : exn) (st : agent) :
  settled st →
  wp (except_Exception
        (λ e0, print ("❌ Failed to update computer status: " +:+ exn_msg e0)) e)
     st (λ _ st', settled st') (λ _ st', settled st').
Proof.
  intros Hst. unfold except_Exception.
  destruct (is_Exception e); [by apply wp_print|by apply wp_throw].
Qed.

(** The status write that is due is made, and whatever the backend
    answers the coroutine goes on with nothing due. *)
Lemma wp_update_computer_status (status : Z) (st : agent) :
  sound st →
  due (trace st) = Some status →
  ends_settled (update_computer_status status) st.
Proof.
  intros Hs Hdue. unfold ends_settled, update_computer_status, try_except.
  apply wp_bind, wp_attempt, wp_bind.
  unfold self_computer_id, get_computer. apply wp_bind, wp_silent; [done|].
  cbv beta. destruct Hs as [Ha Hc].
  destruct (computer st) as [c|] eqn:Ec; [|done].
  apply wp_ret. apply wp_bind. unfold DatabaseClient.update_computer.
  apply wp_bind, wp_await; [by apply follows_due_status| |].
  - intros v st' Hst'.
    destruct v; try (apply wp_throw; by apply wp_status_handler).
    apply wp_ret, wp_bind, wp_set_computer; [done|]. intros st'' Hst''.
    apply wp_print; [done|]. intros st3 Hst3. by apply wp_ret.
  - intros e st' Hst'. by apply wp_status_handler.
Qed.

Lemma wp_status_if (b : bool) (status : Z) (st : agent) :
  sound st →
  due (trace st) = (if b then Some status else None) →
  ends_settled (if b then update_computer_status status else Ret tt) st.
Proof.
  intros Hs Hdue. destruct b; [by apply wp_update_computer_status|].
  by apply wp_ret.
Qed.

Lemma wp_add_active (i : ident) (st : agent)
    (Q : bool → agent → Prop) (Qe : exn → agent → Prop) :
  settled st →
  (∀ (b : bool) st', sound st' → due (trace st') = (if b then Some 1%Z else None) → Q b st') →
  wp (add_active i) st Q Qe.
Proof.
  intros [[Ha Hc] Hd] HQ. unfold add_active.
  assert (sound (emit (EAddActive i)
                   (with_tracker (ExecutionTracker.add_active (tracker st) i).1 st)))
    as Hs'.
  { split; [|done]. unfold active in *. simpl. by rewrite active_at_snoc, Ha. }
  apply wp_atomic.
  - split; [done|]. right. exists (EAddActive i). by repeat split.
  - apply HQ; [done|]. simpl. rewrite due_snoc.
    apply (f_equal (λ b : bool, if b then Some 1%Z else None)).
    rewrite <- Ha. apply bool_decide_ext.
    unfold active. by rewrite TrackerFacts.size_zero_empty.
Qed.

Lemma wp_remove_active (i : ident) (st : agent)
    (Q : bool → agent → Prop) (Qe : exn → agent → Prop) :
  settled st →
  (∀ (b : bool) st', sound st' → due (trace st') = (if b then Some 2%Z else None) → Q b st') →
  wp (remove_active i) st Q Qe.
Proof.
  intros [[Ha Hc] Hd] HQ. unfold remove_active.
  pose proof (TrackerFacts.remove_active_active (tracker st) i) as Hact.
  pose proof (TrackerFacts.remove_active_result (tracker st) i) as Hres.
  assert (sound (emit (ERemoveActive i)
                   (with_tracker (ExecutionTracker.remove_active (tracker st) i).1 st)))
    as Hs'.
  { split; [|done]. unfold active in *. cbn [tracker emit with_tracker trace].
    by rewrite active_at_snoc, Hact, Ha. }
  apply wp_atomic; cbv beta;
    destruct (ExecutionTracker.remove_active (tracker st) i) as [t last];
    cbn [fst snd] in *.
  - split; [done|]. right. exists (ERemoveActive i). by repeat split.
  - apply HQ; [done|]. cbn [trace emit with_tracker]. rewrite due_snoc, Hres.
    unfold active in Ha. by rewrite Ha.
Qed.

Lemma wp_count_active (st : agent)
    (Q : nat → agent → Prop) (Qe : exn → agent → Prop) :
  sound st → Q (ExecutionTracker.count_active (tracker st)) st →
  wp count_active st Q Qe.
Proof. intros Hs HQ. by apply wp_silent. Qed.

Lemma wp_plain_await (c : call) (st : agent)
    (Q : value → agent → Prop) (Qe : exn → agent → Prop) :
  settled st →
  (∀ cid s, c ≠ UpdateComputer cid s) →
  (∀ v st', settled st' → Q v st') →
  (∀ e st', settled st' → Qe e st') →
  wp (await c) st Q Qe.
Proof.
  intros [_ Hd] Hc HQ HQe. apply wp_await; [|done..].
  by apply follows_due_other_call.
Qed.

(** The pipeline writes a status only when it is due. *)
Lemma wp_process_execution (execution : Execution) (i : ident) (st : agent) :
  settled st → ends_settled (process_execution execution i) st.
Proof.
  intros Hst. unfold ends_settled, process_execution.
  apply wp_bind, wp_add_active; [done|]. intros first st1 Hs1 Hd1.
  apply wp_bind. eapply wp_mono; [| |by apply wp_status_if].
  2: { intros e st' Hst'. exact Hst'. }
  intros [] st2 Hst2. cbv beta.
  apply wp_bind, wp_count_active; [apply Hst2|].
  apply wp_bind, wp_print; [done|]. intros st3 Hst3.
  unfold DatabaseClient.update_execution.
  apply wp_bind, wp_plain_await; [done|done| |by auto]. intros v2 st4 Hst4.
  apply wp_bind, wp_plain_await; [done|done| |by auto]. intros logs st5 Hst5.
  apply wp_bind, wp_plain_await; [done|done| |by auto]. intros v4 st6 Hst6.
  apply wp_bind, wp_remove_active; [done|]. intros last st7 Hs7 Hd7.
  apply wp_bind. eapply wp_mono; [| |by apply wp_status_if].
  2: { intros e st' Hst'. exact Hst'. }
  intros [] st8 Hst8. cbv beta.
  apply wp_bind, wp_count_active; [apply Hst8|].
  apply wp_print; [done|]. by intros st9 Hst9.
Qed.

(** The handler makes no call. *)
(** As [quiet_emit], from a state that differs from [st] in what the
    discipline does not look at. *)
Lemma quiet_emit_from (a : effect) (st st0 : agent) :
  settled st →
  active st0 = active st → computer st0 = computer st → trace st0 = trace st →
  (∀ c, a ≠ ECall c) → (∀ i, a ≠ EAddActive i) → (∀ i, a ≠ ERemoveActive i) →
  quiet_step st (emit a st0) ∧ settled (emit a st0).
Proof.
  intros Hst Ha Hc Ht Hcall Hadd Hrem.
  assert (settled st0) as Hst0.
  { destruct Hst as [[Hs1 Hs2] Hd]. repeat split.
    - by rewrite Ha, Ht.
    - by rewrite Hc.
    - by rewrite Ht. }
  destruct (quiet_emit a st0 Hst0 Hcall Hadd Hrem) as [[Hs Hq] Hs'].
  split; [|done]. split; [done|]. rewrite <- Ht.
  destruct Hq as [Hq|Hq]; [by left|by right].
Qed.

Lemma wp_handle_execution (event : RealtimeEvent) (st : agent) :
  settled st → ends_settled (handle_execution event) st.
Proof.
  intros Hst. unfold ends_settled, handle_execution, is_executed.
  apply wp_bind, wp_silent; [apply Hst|]. cbv beta.
  destruct (ExecutionTracker.is_executed _ _); [by apply wp_ret|].
  apply wp_bind. unfold mark_executed.
  destruct (quiet_emit_from (EMarkExecuted (rec_id (record event))) st
              (with_tracker
                 (ExecutionTracker.mark_executed (tracker st)
                    (rec_id (record event))) st)) as [Hq Hs]; [done..|].
  apply wp_atomic; [done|].
  cbv beta. cbn [fst snd].
  destruct (truthy _); [by apply wp_ret|].
  unfold create_task.
  match goal with
  | |- wp (atomic _) ?s _ _ =>
      destruct (quiet_emit_from (ECreateTask (rec_id (record event))) s
                  {| tracker := tracker s; computer := computer s;
                     spawned := spawned s
                                ++ [(record event, rec_id (record event))];
                     trace := trace s |}) as [Hq' Hs']; [done..|]
  end.
  by apply wp_atomic.
Qed.

(** A coroutine that keeps the discipline, run until its next [await]. *)
Lemma run_sync_wp (p : prog unit) (st : agent) :
  sound st → disciplined (trace st) → ends_settled p st →
  settled (run_sync p st).1 ∧ disciplined (trace (run_sync p st).1)
  ∧ task_disciplined (run_sync p st).2.
Proof.
  unfold ends_settled. revert st.
  induction p as [a|e|X f k IH|c k IH|]; intros st Hs Hd Hwp; simpl in Hwp.
  - done.
  - done.
  - destruct Hwp as [[Hs' Hq] Hk]. simpl.
    destruct (f st) as [st' x] eqn:Hf. simpl in *.
    apply IH; [done| |done].
    destruct Hq as [->|(a & -> & Hdue & Ha)]; [done|].
    by apply disciplined_snoc, follows_due_quiet.
  - destruct Hwp as [Hc Hk]. simpl. split; [|split].
    + split; [by apply sound_emit|]. simpl. by rewrite due_snoc.
    + by apply disciplined_snoc.
    + intros r st' Hst'. by apply Hk.
  - done.
Qed.

Lemma resume_inv (r : result value) (t : task) (st : agent) :
  settled st → disciplined (trace st) → task_disciplined t →
  settled (resume r t st).1 ∧ disciplined (trace (resume r t st).1)
  ∧ task_disciplined (resume r t st).2.
Proof.
  intros Hst Hd Ht. destruct t as [p|c k|o]; simpl.
  - apply run_sync_wp; [apply Hst|done|by apply Ht].
  - apply run_sync_wp; [apply Hst|done|by apply Ht].
  - done.
Qed.

Lemma with_new_tasks_inv (st : agent) (tasks : list task) :
  Forall task_disciplined tasks →
  Forall task_disciplined (with_new_tasks st tasks).
Proof.
  intros Hts. unfold with_new_tasks. apply Forall_app. split; [done|].
  apply Forall_forall. intros t [[e i] [-> _]]%list_elem_of_fmap.
  intros st' Hst'. by apply wp_process_execution.
Qed.

Lemma status_inv_init (c : Computer) : status_inv (init_system (Some c)).
Proof.
  split; [|split].
  - by repeat split.
  - apply disciplined_nil.
  - constructor.
Qed.

Lemma status_inv_step (sys : system) (l : label) :
  status_inv sys → status_inv (step sys l).
Proof.
  intros (Hst & Hd & Hts). destruct l as [event|j r]; simpl.
  - pose proof (run_sync_wp (handle_execution event) (sys_agent sys)
                  (proj1 Hst) Hd (wp_handle_execution _ _ Hst))
      as (Hst' & Hd' & _).
    destruct (run_sync _ _) as [st' t']. simpl in *.
    split; [done|]. split; [done|]. by apply with_new_tasks_inv.
  - destruct (sys_tasks sys !! j) as [t|] eqn:Hj; [|done].
    pose proof (resume_inv r t (sys_agent sys) Hst Hd
                  (proj1 (Forall_lookup _ _) Hts j t Hj))
      as (Hst' & Hd' & Ht').
    destruct (resume r t _) as [st' t']. simpl in *.
    split; [done|]. split; [done|]. apply with_new_tasks_inv.
    by apply Forall_insert.
Qed.

Lemma status_inv_steps (sys : system) (ls : list label) :
  status_inv sys → status_inv (steps sys ls).
Proof.
  revert sys. induction ls as [|l ls IH]; intros sys Hsys; [done|].
  simpl. apply IH. by apply status_inv_step.
Qed.

End StatusDiscipline.

(** X21. The status writes of the event loop follow the transitions of the
    active set, in every interleaving of event deliveries and task
    resumptions of an initialised agent: at every point of the trace, the
    next action is the status write [update_computer(id, {"status": s})]
    exactly when [s] is due, that is [s = 1] (Running) right after an
    [add_active] into an empty active set and [s = 2] (Idle) right after a
    [remove_active] that leaves it empty. No other action comes between
    the transition and its write, no status write is made at any other
    point, between two steps of the loop nothing is due, and the tracker's
    active set is the one the adds and removes of the trace give. *)
Theorem status_writes_exactly_when_due (c0 : Computer) (ls : list label) :
  let st := sys_agent (steps (init_system (Some c0)) ls) in
  active st = active_at (trace st)
  ∧ due (trace st) = None
  ∧ ∀ tr1 a tr2 s,
      trace st = tr1 ++ a :: tr2 →
      (due tr1 = Some s ↔ ∃ cid, a = ECall (UpdateComputer cid s)).
Proof.
  destruct (StatusDiscipline.status_inv_steps (init_system (Some c0)) ls
              (StatusDiscipline.status_inv_init c0))
    as ([[Ha _] Hdue] & Hd & _).
  split; [done|]. split; [done|]. intros tr1 a tr2 s Heq.
  by apply (Hd tr1 a tr2 Heq).
Qed.

(** ** Start-up *)

Module StartupFacts.
Import Startup.

Lemma runM_bind {A B : Type} (m : M A) (f : A → M B) (p : process) :
  runM (m ≫= f) p =
    match runM m p with
    | (Ok a, p') => runM (f a) p'
    | (Raise e, p') => (Raise e, p')
    end.
Proof. done. Qed.

(** [get_local_ip], by what the network answers. *)
Lemma get_local_ip_run (w : world) (p : process) :
  runM (get_local_ip w) p =
    let after evs := {| self_computer := self_computer p;
                        io_trace := io_trace p ++ evs |} in
    let closing (r : result string) (evs : list io_event) :=
      match close_result w with
      | Ok _ => (r, after (evs ++ [IoClose]))
      | Raise e => (Raise e, after (evs ++ [IoClose]))
      end in
    match socket_result w with
    | Raise e => (Raise e, after [IoSocket])
    | Ok _ =>
        match connect_result w with
        | Raise e => closing (Raise e) [IoSocket; IoConnect "8.8.8.8" 80]
        | Ok _ =>
            match getsockname_result w with
            | Raise e =>
                closing (Raise e) [IoSocket; IoConnect "8.8.8.8" 80; IoGetsockname]
            | Ok sockname =>
                closing (Ok sockname.1)
                  [IoSocket; IoConnect "8.8.8.8" 80; IoGetsockname]
            end
        end
    end.
Proof.
  unfold get_local_ip, finallyM, io, log. cbn.
  destruct (socket_result w) as [[]|e]; cbn; [|done].
  destruct (connect_result w) as [[]|e]; cbn.
  - destruct (getsockname_result w) as [sockname|e]; cbn.
    + destruct (close_result w) as [[]|e]; cbn; by rewrite <- !app_assoc.
    + destruct (close_result w) as [[]|e']; cbn; by rewrite <- !app_assoc.
  - destruct (close_result w) as [[]|e']; cbn; by rewrite <- !app_assoc.
Qed.

Lemma get_local_ip_computer (w : world) (p : process) :
  self_computer (runM (get_local_ip w) p).2 = self_computer p.
Proof.
  rewrite get_local_ip_run. cbv zeta.
  destruct (socket_result w) as [[]|?]; [|done].
  destruct (connect_result w) as [[]|?].
  - destruct (getsockname_result w) as [?|?]; by destruct (close_result w) as [[]|?].
  - by destruct (close_result w) as [[]|?].
Qed.

(** The outcome of [get_local_ip] is that of [local_ip], whatever the
    process has done before. *)
Lemma get_local_ip_result (w : world) (p : process) :
  (runM (get_local_ip w) p).1 = local_ip w.
Proof.
  unfold local_ip. rewrite !get_local_ip_run. cbv zeta.
  destruct (socket_result w) as [[]|?]; [|done].
  destruct (connect_result w) as [[]|?].
  - destruct (getsockname_result w) as [?|?]; by destruct (close_result w) as [[]|?].
  - by destruct (close_result w) as [[]|?].
Qed.

(** [get_local_ip] writes nothing to the backend. *)
Lemma get_local_ip_trace (w : world) (p : process) :
  ∃ new, io_trace (runM (get_local_ip w) p).2 = io_trace p ++ new
         ∧ updates new = [].
Proof.
  rewrite get_local_ip_run. cbv zeta.
  destruct (socket_result w) as [[]|?]; [|by eexists].
  destruct (connect_result w) as [[]|?].
  - destruct (getsockname_result w) as [?|?];
      by destruct (close_result w) as [[]|?]; eexists.
  - by destruct (close_result w) as [[]|?]; eexists.
Qed.

(** [initialize], by what the backend and the network answer. *)
Lemma initialize_run (w : world) (p : process) :
  runM (initialize w) p =
    let p0 := {| self_computer := self_computer p;
                 io_trace := io_trace p ++ [IoGetFirst] |} in
    match get_first_result w with
    | Raise e => (Raise e, p0)
    | Ok (VComputer c) =>
        let '(r, p1) :=
          runM (get_local_ip w)
            {| self_computer := Some c; io_trace := io_trace p0 |} in
        match r with
        | Raise e => (Raise e, p1)
        | Ok ip =>
            let mac := NetworkUtils.get_mac (getnode w) in
            let tr := io_trace p1 ++ [IoGetnode; IoUpdate (c_id c) ip mac 2] in
            match update_result w (c_id c) ip mac 2 with
            | Raise e => (Raise e, {| self_computer := Some c; io_trace := tr |})
            | Ok (VComputer c') =>
                (Ok tt,
                 {| self_computer := Some c';
                    io_trace :=
                      tr ++ [IoPrint ("📟 Agent initialized for computer: "
                                      +:+ c_name c' +:+ " (" +:+ c_ip c' +:+ ")")] |})
            | Ok _ =>
                (Raise (TypeError "type object argument after ** must be a mapping"),
                 {| self_computer := Some c; io_trace := tr |})
            end
        end
    | Ok _ =>
        (Raise (TypeError "type object argument after ** must be a mapping"), p0)
    end.
Proof.
  unfold initialize, get_computer, io, log. cbn -[get_local_ip].
  destruct (get_first_result w) as [v|e]; cbn -[get_local_ip]; [|done].
  destruct v as [|s|c|x|h]; cbn -[get_local_ip]; try done.
  pose proof (get_local_ip_computer w
                {| self_computer := Some c; io_trace := io_trace p ++ [IoGetFirst] |})
    as Hc.
  rewrite runM_bind.
  destruct (runM (get_local_ip w) _) as [[ip|e] p1]; cbn -[get_local_ip] in *; [|done].
  rewrite Hc. cbn -[get_local_ip].
  destruct (update_result w _ _ _ _) as [v|e]; cbn -[get_local_ip];
    [|by rewrite <- !app_assoc].
  destruct v as [|s|c'|x|h]; cbn -[get_local_ip]; by rewrite <- !app_assoc.
Qed.

End StartupFacts.

(** When [initialize] returns, the agent holds the record that the
    registration returned. *)
Lemma initialize_cases_entered (w : Startup.world) :
  (Startup.runM (Startup.initialize w) entered).1 = Ok tt →
  ∃ c ip c',
    Startup.get_first_result w = Ok (VComputer c)
    ∧ Startup.update_result w (c_id c) ip
        (NetworkUtils.get_mac (Startup.getnode w)) 2 = Ok (VComputer c')
    ∧ Startup.self_computer (Startup.runM (Startup.initialize w) entered).2
      = Some c'.
Proof.
  rewrite StartupFacts.initialize_run. cbv zeta.
  destruct (Startup.get_first_result w) as [v|e0]; [|done].
  destruct v as [|s|c|x|h]; try done.
  destruct (Startup.runM (Startup.get_local_ip w) _) as [[ip|e1] p1]; [|done].
  destruct (Startup.update_result w (c_id c) ip _ 2) as [v|e2] eqn:Hup; [|done].
  destruct v as [|s|c'|x|h]; try done.
  intros _. by exists c, ip, c'.
Qed.

(** X22: [get_local_ip] closes the socket it has created exactly once, as
    its last action, on every path: when [connect] or [getsockname] raises
    as well as when they return. It returns the host part of the socket's
    name exactly when all four operations return; an exception of [close]
    replaces whatever the body returned or raised. When the socket cannot
    be created nothing else is attempted. The agent's record is not
    touched. *)
Theorem get_local_ip_closes_socket (w : Startup.world) (p : Startup.process) :
  let '(r, p') := Startup.runM (Startup.get_local_ip w) p in
  Startup.self_computer p' = Startup.self_computer p
  ∧ ∃ new,
      Startup.io_trace p' = Startup.io_trace p ++ Startup.IoSocket :: new
      ∧ (∀ e, Startup.socket_result w = Raise e → new = [] ∧ r = Raise e)
      ∧ (Startup.socket_result w = Ok tt →
         (∃ body, new = body ++ [Startup.IoClose] ∧ (Startup.IoClose ∉ body))
         ∧ (Startup.IoGetsockname ∈ new ↔ Startup.connect_result w = Ok tt)
         ∧ ∀ e, Startup.close_result w = Raise e → r = Raise e)
      ∧ ∀ ip, r = Ok ip
              ↔ Startup.socket_result w = Ok tt
                ∧ Startup.connect_result w = Ok tt
                ∧ (∃ port, Startup.getsockname_result w = Ok (ip, port))
                ∧ Startup.close_result w = Ok tt.
Proof.
  rewrite StartupFacts.get_local_ip_run. cbv zeta.
  destruct (Startup.socket_result w) as [[]|e0] eqn:Hsocket.
  2: { split; [done|]. exists []. split; [done|]. split; [by intros e [= ->]|].
       split; [done|]. intros ip. split; [done|]. by intros (? & _). }
  assert (∀ x : Startup.io_event, x ∉ @nil Startup.io_event) as Hnil.
  { intros x Hx. apply elem_of_nil in Hx. destruct Hx. }
  destruct (Startup.connect_result w) as [[]|e1] eqn:Hconnect.
  - destruct (Startup.getsockname_result w) as [[ip0 port0]|e2] eqn:Hname.
    + destruct (Startup.close_result w) as [[]|e3] eqn:Hclose; simpl;
        (split; [done|]; eexists; split; [done|]; split; [done|]; split;
         [intros _; split;
          [exists [Startup.IoConnect "8.8.8.8" 80; Startup.IoGetsockname];
           split; [done|];
           intros Hin; apply elem_of_cons in Hin as [Hin|Hin]; [done|];
           apply elem_of_cons in Hin as [Hin|Hin]; [done|]; by apply Hnil in Hin
          |split; [split; [done|]; intros _; set_solver|by intros e [= ->]]]
         |]).
      * intros ip. split.
        -- intros [= ->]. repeat split; try done. by exists port0.
        -- intros (_ & _ & [port [= -> ->]] & _). done.
      * intros ip. split; [done|]. by intros (_ & _ & _ & ?).
    + destruct (Startup.close_result w) as [[]|e3] eqn:Hclose; simpl;
        (split; [done|]; eexists; split; [done|]; split; [done|]; split;
         [intros _; split;
          [exists [Startup.IoConnect "8.8.8.8" 80; Startup.IoGetsockname];
           split; [done|];
           intros Hin; apply elem_of_cons in Hin as [Hin|Hin]; [done|];
           apply elem_of_cons in Hin as [Hin|Hin]; [done|]; by apply Hnil in Hin
          |split; [split; [done|]; intros _; set_solver|by intros e [= ->]]]
         |]);
        (intros ip; split; [done|]; by intros (_ & _ & [port ?] & _)).
  - destruct (Startup.close_result w) as [[]|e3] eqn:Hclose; simpl;
      (split; [done|]; eexists; split; [done|]; split; [done|]; split;
       [intros _; split;
        [exists [Startup.IoConnect "8.8.8.8" 80];
         split; [done|];
         intros Hin; apply elem_of_cons in Hin as [Hin|Hin]; [done|];
         by apply Hnil in Hin
        |split; [split; [|done]; intros Hin;
                 apply elem_of_cons in Hin as [Hin|Hin]; [done|];
                 apply elem_of_cons in Hin as [Hin|Hin]; [done|];
                 by apply Hnil in Hin
                |by intros e [= ->]]]
       |]);
      (intros ip; split; [done|]; by intros (_ & ? & _)).
Qed.

(** X23: once the record of the machine is fetched and the local address
    is known, [initialize] makes exactly one write to the backend: to the
    identifier of the fetched record, with the local address, the hardware
    address that [get_mac] gives for the node of the host ([None] for a
    node with the multicast bit) and the status 2 (Idle). When the write
    returns a record, that record becomes [self.computer], its name and
    address are printed last, and [initialize] returns; when the write
    fails, [initialize] raises and [self.computer] is the fetched
    record. *)
Theorem initialize_registers_machine
    (w : Startup.world) (p : Startup.process) (c : Computer) (ip : string) :
  Startup.get_first_result w = Ok (VComputer c) →
  local_ip w = Ok ip →
  let mac := NetworkUtils.get_mac (Startup.getnode w) in
  let '(r, p') := Startup.runM (Startup.initialize w) p in
  ∃ new,
    Startup.io_trace p' = Startup.io_trace p ++ new
    ∧ updates new = [(c_id c, ip, mac, 2%Z)]
    ∧ match Startup.update_result w (c_id c) ip mac 2 with
      | Ok (VComputer c') =>
          r = Ok tt
          ∧ Startup.self_computer p' = Some c'
          ∧ last new
            = Some (Startup.IoPrint
                      ("📟 Agent initialized for computer: "
                       +:+ c_name c' +:+ " (" +:+ c_ip c' +:+ ")"))
      | Ok _ => (∃ e, r = Raise e) ∧ Startup.self_computer p' = Some c
      | Raise e => r = Raise e ∧ Startup.self_computer p' = Some c
      end.
Proof.
  intros Hfirst Hip mac. rewrite StartupFacts.initialize_run, Hfirst. cbv zeta.
  pose proof (StartupFacts.get_local_ip_result w
                {| Startup.self_computer := Some c;
                   Startup.io_trace := Startup.io_trace p ++ [Startup.IoGetFirst] |})
    as Hr.
  destruct (StartupFacts.get_local_ip_trace w
                {| Startup.self_computer := Some c;
                   Startup.io_trace := Startup.io_trace p ++ [Startup.IoGetFirst] |})
    as (new1 & Htr & Hup).
  destruct (Startup.runM (Startup.get_local_ip w) _) as [r1 p1].
  simpl in Hr, Htr. rewrite Hip in Hr. subst r1. fold mac.
  assert (∀ tail,
            updates (Startup.IoGetFirst
                     :: new1 ++ [Startup.IoGetnode;
                                 Startup.IoUpdate (c_id c) ip mac 2] ++ tail)
            = (c_id c, ip, mac, 2%Z) :: updates tail) as Hupd.
  { intros tail. unfold updates in *. simpl. by rewrite omap_app, Hup. }
  destruct (Startup.update_result w (c_id c) ip mac 2) as [v|e].
  - destruct v as [|s|c'|x|h];
      try (exists (Startup.IoGetFirst
                   :: new1 ++ [Startup.IoGetnode;
                               Startup.IoUpdate (c_id c) ip mac 2] ++ []);
           split; [simpl; rewrite Htr, <- !app_assoc; done|];
           split; [by rewrite Hupd|]; split; [by eexists|done]).
    exists (Startup.IoGetFirst
            :: new1 ++ [Startup.IoGetnode; Startup.IoUpdate (c_id c) ip mac 2]
               ++ [Startup.IoPrint
                     ("📟 Agent initialized for computer: "
                      +:+ c_name c' +:+ " (" +:+ c_ip c' +:+ ")")]).
    split; [simpl; rewrite Htr, <- !app_assoc; done|].
    split; [by rewrite Hupd|]. split; [done|]. split; [done|].
    change (Startup.IoGetFirst :: new1 ++ ?l) with ((Startup.IoGetFirst :: new1) ++ l).
    by rewrite !app_assoc, last_snoc.
  - exists (Startup.IoGetFirst
            :: new1 ++ [Startup.IoGetnode;
                        Startup.IoUpdate (c_id c) ip mac 2] ++ []).
    split; [simpl; rewrite Htr, <- !app_assoc; done|].
    split; [by rewrite Hupd|]. done.
Qed.

(** X23 at the sample host: the record that the backend returns holds the
    local address and the address text of the node. *)
Lemma initialize_registers_machine_witness :
  Startup.self_computer
    (Startup.runM (Startup.initialize Sample2.online) entered).2
  = Some {| c_id := "c1"; c_name := "lab-1"; c_ip := "192.168.1.20";
            c_mac := "00:11:22:AA:BB:CC"; c_status := 2 |}.
Proof.
  pose proof (initialize_registers_machine Sample2.online entered
                Sample.machine "192.168.1.20" eq_refl eq_refl) as H.
  cbv zeta in H.
  destruct (Startup.runM (Startup.initialize Sample2.online) entered) as [r p'].
  destruct H as (new & _ & _ & H). exact (proj1 (proj2 H)).
Defined.

(** X24: [initialize] returns exactly when the record is fetched, the
    local address is found and the write returns a record; in every other
    case it raises. When the record cannot be fetched nothing else is
    attempted and [self.computer] stays as it was. When the local address
    cannot be found, the exception of [get_local_ip] is raised, the node
    is not read, no write reaches the backend, and [self.computer] is the
    fetched record. *)
Theorem initialize_returns_only_when_registered
    (w : Startup.world) (p : Startup.process) :
  let '(r, p') := Startup.runM (Startup.initialize w) p in
  (r = Ok tt
   ↔ ∃ c ip c',
       Startup.get_first_result w = Ok (VComputer c)
       ∧ local_ip w = Ok ip
       ∧ Startup.update_result w (c_id c) ip
           (NetworkUtils.get_mac (Startup.getnode w)) 2 = Ok (VComputer c'))
  ∧ ((∀ c, Startup.get_first_result w ≠ Ok (VComputer c)) →
     (∃ e, r = Raise e)
     ∧ p' = {| Startup.self_computer := Startup.self_computer p;
               Startup.io_trace := Startup.io_trace p ++ [Startup.IoGetFirst] |})
  ∧ (∀ c e,
       Startup.get_first_result w = Ok (VComputer c) →
       local_ip w = Raise e →
       r = Raise e
       ∧ Startup.self_computer p' = Some c
       ∧ ∃ new, Startup.io_trace p' = Startup.io_trace p ++ new
                ∧ updates new = []
                ∧ (Startup.IoGetnode ∉ new)).
Proof.
  rewrite StartupFacts.initialize_run. cbv zeta.
  destruct (Startup.get_first_result w) as [v|e0] eqn:Hfirst.
  2: { split; [split; [done|by intros (? & ? & ? & ? & _)]|].
       split; [by intros _; split; [eexists|]|]. by intros c e ?. }
  destruct v as [|s|c|x|h];
    try (split; [split; [done|by intros (? & ? & ? & ? & _)]|];
         split; [by intros _; split; [eexists|]|]; by intros c e ?).
  pose proof (StartupFacts.get_local_ip_result w
                {| Startup.self_computer := Some c;
                   Startup.io_trace := Startup.io_trace p ++ [Startup.IoGetFirst] |})
    as Hr.
  pose proof (StartupFacts.get_local_ip_computer w
                {| Startup.self_computer := Some c;
                   Startup.io_trace := Startup.io_trace p ++ [Startup.IoGetFirst] |})
    as Hc.
  pose proof (StartupFacts.get_local_ip_run w
                {| Startup.self_computer := Some c;
                   Startup.io_trace := Startup.io_trace p ++ [Startup.IoGetFirst] |})
    as Hrun.
  destruct (Startup.runM (Startup.get_local_ip w) _) as [r1 p1].
  simpl in Hr, Hc. subst r1.
  destruct (local_ip w) as [ip|e1] eqn:Hip.
  - destruct (Startup.update_result w (c_id c) ip _ 2) as [v|e2] eqn:Hup.
    + destruct v as [|s|c'|x|h];
        try (split; [split; [done|];
                     intros (c0 & ip0 & c'0 & [= <-] & [= <-] & Hup');
                     rewrite Hup in Hup'; discriminate|];
             split; [intros Hno; by destruct (Hno c)|]; by intros c0 e ?).
      split; [split; [by intros _; exists c, ip, c'|done]|].
      split; [intros Hno; by destruct (Hno c)|]. by intros c0 e ?.
    + split; [split; [done|];
              intros (c0 & ip0 & c'0 & [= <-] & [= <-] & Hup');
              rewrite Hup in Hup'; discriminate|].
      split; [intros Hno; by destruct (Hno c)|]. by intros c0 e ?.
  - split; [split; [done|by intros (? & ? & ? & _ & ? & _)]|].
    split; [intros Hno; by destruct (Hno c)|].
    intros c0 e [= <-] [= <-]. split; [done|]. split; [done|].
    cbv zeta in Hrun. simpl in Hrun.
    assert (∀ x : Startup.io_event, x ∉ @nil Startup.io_event) as Hnil.
    { intros x Hx. apply elem_of_nil in Hx. destruct Hx. }
    destruct (Startup.socket_result w) as [[]|?];
      [|injection Hrun as _ ->; eexists (_ :: _); simpl;
        split; [by rewrite <- app_assoc|]; split; [done|];
        intros Hin; apply elem_of_cons in Hin as [Hin|Hin]; [done|];
        apply elem_of_cons in Hin as [Hin|Hin]; [done|]; by apply Hnil in Hin].
    destruct (Startup.connect_result w) as [[]|?].
    + destruct (Startup.getsockname_result w) as [?|?];
        destruct (Startup.close_result w) as [[]|?];
        injection Hrun as _ ->; eexists (_ :: _); simpl;
        (split; [by rewrite <- app_assoc|]); (split; [done|]);
        intros Hin; repeat (apply elem_of_cons in Hin as [Hin|Hin]; [done|]);
        by apply Hnil in Hin.
    + destruct (Startup.close_result w) as [[]|?];
        injection Hrun as _ ->; eexists (_ :: _); simpl;
        (split; [by rewrite <- app_assoc|]); (split; [done|]);
        intros Hin; repeat (apply elem_of_cons in Hin as [Hin|Hin]; [done|]);
        by apply Hnil in Hin.
Qed.

(** X24 at the host without a route: the record is fetched, nothing is
    written. *)
Lemma initialize_returns_only_when_registered_witness :
  (Startup.runM (Startup.initialize Sample2.offline) entered).1
  = Raise Sample.unreachable.
Proof.
  pose proof (initialize_returns_only_when_registered Sample2.offline entered)
    as H.
  destruct (Startup.runM (Startup.initialize Sample2.offline) entered) as [r p'].
  destruct H as (_ & _ & H).
  by destruct (H Sample.machine Sample.unreachable eq_refl eq_refl) as [-> _].
Defined.

(** X25: [main] constructs the agent exactly when the token is set and
    not empty; without one it prints the error and returns, having
    contacted nothing. With a token, an exception of [initialize] is
    raised by [main] as it is, and the service is never entered: no
    subscription is made and no Offline status is written, whatever
    [initialize] had fetched. When [initialize] returns, [run] starts on
    a fresh ledger with the record that the registration returned, and
    [main] ends as [run] does. *)
Theorem main_runs_service_only_when_initialized
    (w : Startup.world) (fuel : nat) (ev : env) :
  let m := Startup.main w fuel ev in
  (Startup.service m = None ↔ ¬ has_token w)
  ∧ (¬ has_token w →
     Startup.outcome_of_main m = Returned tt
     ∧ Startup.io_trace (Startup.startup m)
       = [Startup.IoGetenv "TOKEN";
          Startup.IoPrint "❌ ERROR: TOKEN environment variable is not set"])
  ∧ (has_token w →
     ∀ e, (Startup.runM (Startup.initialize w) entered).1 = Raise e →
          Startup.outcome_of_main m = Raised e
          ∧ ∃ st, Startup.service m = Some st
                  ∧ trace st = []
                  ∧ computer st = Startup.self_computer (Startup.startup m))
  ∧ (has_token w →
     (Startup.runM (Startup.initialize w) entered).1 = Ok tt →
     ∃ c c',
       Startup.get_first_result w = Ok (VComputer c)
       ∧ (∃ ip, Startup.update_result w (c_id c) ip
                  (NetworkUtils.get_mac (Startup.getnode w)) 2
                = Ok (VComputer c'))
       ∧ Startup.self_computer (Startup.startup m) = Some c'
       ∧ ∃ st, Startup.service m = Some st
               ∧ exec (AgentService.run fuel) ev (init_agent (Some c'))
                 = (st, Startup.outcome_of_main m)).
Proof.
  intros m.
  assert (has_token w
          ↔ match Startup.getenv_TOKEN w with
            | Some TOKEN => CodeExecutor.nonempty TOKEN
            | None => false
            end = true) as Htoken.
  { unfold has_token. destruct (Startup.getenv_TOKEN w) as [[|a s]|]; simpl.
    - split; [by intros (? & [= <-] & ?)|done].
    - split; [done|]. intros _. by eexists.
    - split; [by intros (? & ? & _)|done]. }
  pose proof (initialize_cases_entered w) as Hinit.
  subst m. unfold Startup.main. fold entered.
  destruct (match Startup.getenv_TOKEN w with
            | Some TOKEN => CodeExecutor.nonempty TOKEN
            | None => false
            end) eqn:Ht.
  - assert (has_token w) as Hw by by apply Htoken.
    destruct (Startup.runM (Startup.initialize w) entered) as [[[]|e0] p'] eqn:Hrun.
    + destruct (exec (AgentService.run fuel) ev
                  (init_agent (Startup.self_computer p'))) as [st o] eqn:Hexec.
      cbn [Startup.service Startup.startup Startup.outcome_of_main fst snd].
      split; [split; [done|by intros Hno]|]. split; [by intros Hno|].
      split; [by intros _ e|]. intros _ _.
      destruct Hinit as (c & ip & c' & Hfirst & Hup & Hc); [done|].
      cbn [snd] in Hc.
      exists c, c'. split; [done|]. split; [by exists ip|]. split; [done|].
      exists st. split; [done|]. by rewrite <- Hc.
    + simpl. split; [split; [done|by intros Hno]|]. split; [by intros Hno|].
      split; [|by intros _ ?]. intros _ e [= ->]. split; [done|]. by eexists.
  - assert (¬ has_token w) as Hw by (rewrite Htoken; by intros ?).
    simpl. split; [done|]. split; [done|]. split; by intros ?.
Qed.

(** X25 at the host without a route: [main] raises what [get_local_ip]
    raised. *)
Lemma main_runs_service_only_when_initialized_witness :
  Startup.outcome_of_main (Startup.main Sample2.offline 1 Sample2.healthy)
  = Raised Sample.unreachable.
Proof.
  destruct (main_runs_service_only_when_initialized Sample2.offline 1
              Sample2.healthy) as (_ & _ & H & _).
  apply H; [|reflexivity]. by exists "secret".
Defined.

(** ** Pipelines that have failed *)

Module StuckFacts.
Import AgentService AgentFacts LoopFacts.

Lemma removes_own_bind {A B : Type} (i : ident) (p : prog A) (f : A → prog B) :
  removes_own i p → (∀ a, removes_own i (f a)) → removes_own i (p ≫= f).
Proof.
  intros Hp Hf. induction p as [a|e|X g k IH|c k IH|]; simpl in *.
  - apply Hf.
  - done.
  - destruct Hp as [Hg Hk]. split; [done|]. intros x. by apply IH.
  - intros r. by apply IH.
  - done.
Qed.

Lemma removes_own_attempt {A : Type} (i : ident) (p : prog A) :
  removes_own i p → removes_own i (attempt p).
Proof.
  intros Hp. induction p as [a|e|X g k IH|c k IH|]; simpl in *.
  - done.
  - done.
  - destruct Hp as [Hg Hk]. split; [done|]. intros x. by apply IH.
  - intros r. by apply IH.
  - done.
Qed.

Lemma removes_own_try_except {A : Type} (i : ident) (p : prog A) (h : exn → prog A) :
  removes_own i p → (∀ e, removes_own i (h e)) → removes_own i (try_except p h).
Proof.
  intros Hp Hh. unfold try_except. apply removes_own_bind.
  - by apply removes_own_attempt.
  - intros [a|e]; [done|]. unfold except_Exception. by destruct (is_Exception e).
Qed.

(** A step that leaves the trace alone. *)
Lemma removes_own_silent {X : Type} (i : ident) (f : agent → agent * X) :
  (∀ st, trace (f st).1 = trace st) → removes_own i (atomic f).
Proof.
  intros Hf. split; [|done]. intros st. exists []. rewrite app_nil_r.
  split; [done|]. intros i' Hin. apply elem_of_nil in Hin. destruct Hin.
Qed.

(** A step that adds one action. *)
Lemma removes_own_emit {X : Type} (i : ident) (a : effect) (f : agent → agent * X) :
  (∀ st, trace (f st).1 = trace st ++ [a]) →
  (∀ i', a = ERemoveActive i' → i' = i) →
  removes_own i (atomic f).
Proof.
  intros Hf Ha. split; [|done]. intros st. exists [a]. split; [done|].
  intros i' Hin. apply list_elem_of_singleton in Hin. by apply Ha.
Qed.

Lemma removes_own_await (i : ident) (c : call) : removes_own i (await c).
Proof. simpl. by intros [v|e]. Qed.

Lemma removes_own_print (i : ident) (s : string) : removes_own i (print s).
Proof. by apply (removes_own_emit i (EPrint s)). Qed.

Lemma removes_own_update_computer_status (i : ident) (status : Z) :
  removes_own i (update_computer_status status).
Proof.
  apply removes_own_try_except; [|intros e; apply removes_own_print].
  apply removes_own_bind.
  { apply removes_own_bind; [by apply removes_own_silent|]. by intros [c|]. }
  intros cid. apply removes_own_bind.
  { apply removes_own_bind; [apply removes_own_await|]. by intros []. }
  intros c. apply removes_own_bind; [|intros _; apply removes_own_print].
  by apply removes_own_silent.
Qed.

Lemma removes_own_process_execution (execution : Execution) (i : ident) :
  removes_own i (process_execution execution i).
Proof.
  unfold process_execution.
  apply removes_own_bind.
  { apply (removes_own_emit i (EAddActive i)); [|done].
    intros st. by destruct (ExecutionTracker.add_active _ _). }
  intros first. apply removes_own_bind.
  { destruct first; [apply removes_own_update_computer_status|done]. }
  intros _. apply removes_own_bind; [by apply removes_own_silent|]. intros n.
  apply removes_own_bind; [apply removes_own_print|]. intros _.
  apply removes_own_bind; [apply removes_own_await|]. intros _.
  apply removes_own_bind; [apply removes_own_await|]. intros logs.
  apply removes_own_bind; [apply removes_own_await|]. intros _.
  apply removes_own_bind.
  { apply (removes_own_emit i (ERemoveActive i)); [|by intros i' [= ->]].
    intros st. by destruct (ExecutionTracker.remove_active _ _). }
  intros last. apply removes_own_bind.
  { destruct last; [apply removes_own_update_computer_status|done]. }
  intros _. apply removes_own_bind; [by apply removes_own_silent|]. intros n'.
  apply removes_own_print.
Qed.

(** Run to its next [await], such a coroutine has added to the trace no
    removal but of its own identifier. *)
Lemma run_sync_removes_own (i : ident) (p : prog unit) (st : agent) :
  removes_own i p →
  (∃ new, trace (run_sync p st).1 = trace st ++ new
          ∧ ∀ i', ERemoveActive i' ∈ new → i' = i)
  ∧ task_removes_own i (run_sync p st).2.
Proof.
  assert (∀ st0 : agent, ∃ new, trace st0 = trace st0 ++ new
                                ∧ ∀ i', ERemoveActive i' ∈ new → i' = i) as Hrefl.
  { intros st0. exists []. rewrite app_nil_r. split; [done|].
    intros i' Hin. apply elem_of_nil in Hin. destruct Hin. }
  revert st. induction p as [a|e|X g k IH|c k IH|]; intros st Hp; simpl in *.
  - by split.
  - by split.
  - destruct Hp as [Hg Hk]. destruct (Hg st) as (new1 & Htr1 & Hnew1).
    destruct (g st) as [st' x]. simpl in Htr1.
    destruct (IH x st' (Hk x)) as [(new2 & Htr2 & Hnew2) Ht].
    split; [|done]. exists (new1 ++ new2).
    split; [by rewrite Htr2, Htr1, app_assoc|].
    intros i' [Hin|Hin]%elem_of_app; auto.
  - split; [|done]. exists [ECall c]. split; [done|].
    intros i' Hin. by apply list_elem_of_singleton in Hin.
  - by split.
Qed.

Lemma resume_removes_own (i : ident) (r : result value) (t : task) (st : agent) :
  task_removes_own i t →
  (∃ new, trace (resume r t st).1 = trace st ++ new
          ∧ ∀ i', ERemoveActive i' ∈ new → i' = i)
  ∧ task_removes_own i (resume r t st).2.
Proof.
  destruct t as [p|c k|o]; simpl; intros Ht.
  - by apply run_sync_removes_own.
  - apply run_sync_removes_own, Ht.
  - split; [|done]. exists []. rewrite app_nil_r. split; [done|].
    intros i' Hin. apply elem_of_nil in Hin. destruct Hin.
Qed.

Lemma own_inv_init (c : option Computer) : own_inv (init_system c).
Proof. constructor. Qed.

Lemma own_inv_step (sys : system) (l : label) :
  sys_inv sys → own_inv sys → own_inv (step sys l).
Proof.
  intros (Htasks & Hnd & Hdisp & Hact) Hown. unfold own_inv in *.
  pose proof (Forall2_length _ _ _ Htasks) as Hlen.
  destruct l as [event|j r].
  - rewrite step_deliver. simpl. rewrite handled_spawned.
    destruct (ExecutionTracker.is_executed _ _ || truthy _) eqn:Hskip.
    + rewrite with_new_tasks_none; [done|]. by rewrite handled_spawned, Hskip.
    + rewrite (with_new_tasks_one _ _ (spawned (sys_agent sys)) (record event)
                 (rec_id (record event)));
        [|done|by rewrite handled_spawned, Hskip].
      apply Forall2_app; [done|]. constructor; [|constructor].
      simpl. apply removes_own_process_execution.
  - unfold step. destruct (sys_tasks sys !! j) as [t|] eqn:Hj; [|done].
    destruct (Forall2_lookup_l _ _ _ _ _ Htasks Hj) as ([e i] & Hd & Hconf).
    destruct (Forall2_lookup_l _ _ _ _ _ Hown Hj) as (d' & Hd' & Hrem).
    rewrite Hd in Hd'. injection Hd' as <-. simpl in Hconf, Hrem.
    destruct (resume_confined i r t (sys_agent sys) Hconf) as [(_ & Hs & _) _].
    destruct (resume_removes_own i r t (sys_agent sys) Hrem) as [_ Ht].
    destruct (resume r t (sys_agent sys)) as [st t']. simpl in Hs, Ht.
    rewrite with_new_tasks_none by (rewrite length_insert, Hs; done).
    simpl. rewrite Hs. rewrite <- (list_insert_id _ _ _ Hd).
    by apply Forall2_insert.
Qed.

(** A step of the loop leaves a task that has ended as it is, and adds to
    the trace no removal of its identifier. *)
Lemma step_keeps_ended (sys : system) (l : label) (j : nat) (i : ident) :
  sys_inv sys → own_inv sys →
  (∃ o, sys_tasks sys !! j = Some (Finished o)) →
  dispatched sys !! j = Some i →
  (∃ o, sys_tasks (step sys l) !! j = Some (Finished o))
  ∧ dispatched (step sys l) !! j = Some i
  ∧ ∃ new, trace (sys_agent (step sys l)) = trace (sys_agent sys) ++ new
           ∧ (ERemoveActive i ∉ new).
Proof.
  intros (Htasks & Hnd & Hdisp & Hact) Hown [o Hj] Hi. unfold own_inv in *.
  pose proof (Forall2_length _ _ _ Htasks) as Hlen.
  destruct l as [event|j' r].
  - rewrite step_deliver. unfold dispatched in *. simpl.
    split; [|split].
    + exists o. unfold with_new_tasks. by apply lookup_app_l_Some.
    + rewrite handled_spawned.
      destruct (_ || _); [done|]. rewrite fmap_app. by apply lookup_app_l_Some.
    + eexists. split; [apply DispatchFacts.trace_handled|].
      destruct (ExecutionTracker.is_executed _ _).
      { intros Hin. apply elem_of_nil in Hin. destruct Hin. }
      destruct (truthy _); intros Hin;
        repeat (apply elem_of_cons in Hin as [Hin|Hin]; [done|]);
        apply elem_of_nil in Hin; destruct Hin.
  - unfold step. destruct (sys_tasks sys !! j') as [t|] eqn:Hj'.
    2: { split; [by exists o|]. split; [done|]. exists []. rewrite app_nil_r.
         split; [done|]. intros Hin. apply elem_of_nil in Hin. destruct Hin. }
    destruct (Forall2_lookup_l _ _ _ _ _ Htasks Hj') as ([e i'] & Hd & Hconf).
    destruct (Forall2_lookup_l _ _ _ _ _ Hown Hj') as (d' & Hd' & Hrem).
    rewrite Hd in Hd'. injection Hd' as <-. simpl in Hconf, Hrem.
    destruct (resume_confined i' r t (sys_agent sys) Hconf) as [(_ & Hs & _) _].
    destruct (resume_removes_own i' r t (sys_agent sys) Hrem)
      as [(new & Htr & Hnew) _].
    destruct (decide (j' = j)) as [->|Hne].
    + rewrite Hj in Hj'. injection Hj' as <-. simpl in *.
      rewrite with_new_tasks_none by (rewrite length_insert; done).
      rewrite list_insert_id by done.
      split; [by exists o|]. split; [done|]. exists []. rewrite app_nil_r.
      split; [done|]. intros Hin. apply elem_of_nil in Hin. destruct Hin.
    + destruct (resume r t (sys_agent sys)) as [st t']. simpl in Hs, Htr.
      rewrite with_new_tasks_none by (rewrite length_insert, Hs; done).
      unfold dispatched in *. simpl. rewrite Hs.
      split; [exists o; by rewrite list_lookup_insert_ne|]. split; [done|].
      exists new. split; [done|]. intros Hin. apply Hnew in Hin. subst i'.
      apply Hne. eapply NoDup_lookup; [exact Hnd| |exact Hi].
      by rewrite list_lookup_fmap, Hd.
Qed.

Lemma steps_keep_ended (sys : system) (ls : list label) (j : nat) (i : ident) :
  sys_inv sys → own_inv sys →
  (∃ o, sys_tasks sys !! j = Some (Finished o)) →
  dispatched sys !! j = Some i →
  ∃ new, trace (sys_agent (steps sys ls)) = trace (sys_agent sys) ++ new
         ∧ (ERemoveActive i ∉ new).
Proof.
  intros Hinv Hown Hj Hi.
  assert (sys_inv (steps sys ls) ∧ own_inv (steps sys ls)
          ∧ (∃ o, sys_tasks (steps sys ls) !! j = Some (Finished o))
          ∧ dispatched (steps sys ls) !! j = Some i
          ∧ ∃ new, trace (sys_agent (steps sys ls)) = trace (sys_agent sys) ++ new
                   ∧ (ERemoveActive i ∉ new)) as H; [|by destruct H as (_ & _ & _ & _ & H)].
  induction ls as [|l ls IH] using rev_ind.
  - split; [done|]. split; [done|]. split; [done|]. split; [done|].
    exists []. rewrite app_nil_r. split; [done|].
    intros Hin. apply elem_of_nil in Hin. destruct Hin.
  - destruct IH as (Hinv' & Hown' & Hj' & Hi' & new & Htr & Hnew).
    rewrite steps_snoc.
    destruct (step_keeps_ended (steps sys ls) l j i Hinv' Hown' Hj' Hi')
      as (Hj'' & Hi'' & new' & Htr' & Hnew').
    split; [by apply step_inv|]. split; [by apply own_inv_step|].
    split; [done|]. split; [done|]. exists (new ++ new').
    split; [by rewrite Htr', Htr, app_assoc|].
    intros [Hin|Hin]%elem_of_app; auto.
Qed.

Lemma steps_ended (sys : system) (ls : list label) (j : nat) (i : ident) :
  sys_inv sys → own_inv sys →
  (∃ o, sys_tasks sys !! j = Some (Finished o)) →
  dispatched sys !! j = Some i →
  (∃ o, sys_tasks (steps sys ls) !! j = Some (Finished o))
  ∧ dispatched (steps sys ls) !! j = Some i.
Proof.
  intros Hinv Hown Hj Hi.
  assert (sys_inv (steps sys ls) ∧ own_inv (steps sys ls)
          ∧ (∃ o, sys_tasks (steps sys ls) !! j = Some (Finished o))
          ∧ dispatched (steps sys ls) !! j = Some i) as H;
    [|by destruct H as (_ & _ & H)].
  induction ls as [|l ls IH] using rev_ind; [done|].
  destruct IH as (Hinv' & Hown' & Hj' & Hi').
  rewrite steps_snoc.
  destruct (step_keeps_ended (steps sys ls) l j i Hinv' Hown' Hj' Hi')
    as (Hj'' & Hi'' & _).
  split; [by apply step_inv|]. split; [by apply own_inv_step|]. done.
Qed.

Lemma steps_own_inv (sys : system) (ls : list label) :
  sys_inv sys → own_inv sys → own_inv (steps sys ls).
Proof.
  intros Hinv Hown. induction ls as [|l ls IH] using rev_ind; [done|].
  rewrite steps_snoc. apply own_inv_step; [by apply steps_inv|done].
Qed.

(** An identifier stays in the active set of a trace as long as it is not
    removed. *)
Lemma active_at_keeps (tr new : list effect) (i : ident) :
  i ∈ active_at tr → (ERemoveActive i ∉ new) → i ∈ active_at (tr ++ new).
Proof.
  unfold active_at. rewrite foldl_app. generalize (foldl
    (λ (A : gset ident) (a : effect),
       match a with
       | EAddActive i0 => {[i0]} ∪ A
       | ERemoveActive i0 => A ∖ {[i0]}
       | _ => A
       end) ∅ tr) as A.
  induction new as [|a new IH]; intros A HA Hnew; [done|].
  simpl. apply IH.
  - destruct a as [c|s|i0|i0|i0|i0]; try done.
    + by apply elem_of_union_r.
    + apply elem_of_difference. split; [done|].
      intros ->%elem_of_singleton. apply Hnew. by left.
  - intros Hin. apply Hnew. by right.
Qed.

(** The status Idle is due only after a trace that leaves the active set
    empty. *)
Lemma due_idle_empty (tr : list effect) : due tr = Some 2%Z → active_at tr = ∅.
Proof.
  unfold due. destruct (last tr) as [[c|s|i0|i0|i0|i0]|]; try done.
  - by case_bool_decide.
  - by case_bool_decide.
Qed.

End StuckFacts.

(** X26: a pipeline that has ended with its identifier still in the
    active set (as it does when one of its execution calls raises) keeps
    the machine from ever being reported Idle again. In every
    continuation of the run, whatever events arrive and however the other
    tasks proceed, the identifier stays active, so the active set never
    becomes empty, and no status write Idle (2) is made. *)
Theorem ended_pipeline_blocks_idle
    (c0 : Computer) (ls1 ls2 : list label) (j : nat) (i : ident) :
  let sys1 := steps (init_system (Some c0)) ls1 in
  let sys2 := steps sys1 ls2 in
  stuck sys1 j i →
  stuck sys2 j i
  ∧ ∃ new, trace (sys_agent sys2) = trace (sys_agent sys1) ++ new
           ∧ (ERemoveActive i ∉ new)
           ∧ ∀ cid, ECall (UpdateComputer cid 2) ∉ new.
Proof.
  intros sys1 sys2 (Hj & Hi & Hact).
  pose proof (LoopFacts.steps_inv _ ls1 (LoopFacts.init_inv (Some c0))) as Hinv1.
  pose proof (StuckFacts.steps_own_inv _ ls1 (LoopFacts.init_inv (Some c0))
                (StuckFacts.own_inv_init (Some c0))) as Hown1.
  fold sys1 in Hinv1, Hown1.
  destruct (StuckFacts.steps_keep_ended sys1 ls2 j i Hinv1 Hown1 Hj Hi)
    as (new & Htr & Hnew).
  destruct (StuckFacts.steps_ended sys1 ls2 j i Hinv1 Hown1 Hj Hi) as [Hj2 Hi2].
  fold sys2 in Htr, Hj2, Hi2.
  destruct (StatusDiscipline.status_inv_steps (init_system (Some c0)) ls1
              (StatusDiscipline.status_inv_init c0)) as ([[Ha1 _] _] & _ & _).
  destruct (StatusDiscipline.status_inv_steps (init_system (Some c0)) (ls1 ++ ls2)
              (StatusDiscipline.status_inv_init c0)) as ([[Ha2 _] _] & Hd2 & _).
  rewrite LoopFacts.steps_app in Ha2, Hd2. fold sys1 in Ha1, Ha2, Hd2.
  fold sys2 in Ha2, Hd2.
  rewrite Ha1 in Hact.
  split.
  { split; [done|]. split; [done|]. rewrite Ha2, Htr.
    by apply StuckFacts.active_at_keeps. }
  exists new. split; [done|]. split; [done|].
  intros cid Hin. apply list_elem_of_split in Hin as (n1 & n2 & ->).
  rewrite Htr, app_assoc in Hd2.
  assert (due (trace (sys_agent sys1) ++ n1) = Some 2%Z) as Hdue.
  { apply (Hd2 _ _ n2 eq_refl). by exists cid. }
  apply StuckFacts.due_idle_empty in Hdue.
  assert (i ∈ active_at (trace (sys_agent sys1) ++ n1)) as Hin.
  { apply StuckFacts.active_at_keeps; [done|].
    intros Hin. apply Hnew, elem_of_app. by left. }
  rewrite Hdue in Hin. by apply elem_of_empty in Hin.
Qed.

(** X26 at a run in which the started marker of [a] is refused, and [b]
    is then executed to its end. *)
Lemma ended_pipeline_blocks_idle_witness :
  Some "a" ∈ active
    (sys_agent
       (steps
          (steps (init_system (Some Sample.machine))
             [Deliver (Sample.job (Some "a") None);
              Resume 0 (Ok VNone);
              Resume 0 (Ok (VComputer Sample.machine));
              Resume 0 (Raise Sample.unreachable)])
          [Deliver (Sample.job (Some "b") None);
           Resume 1 (Ok VNone);
           Resume 1 (Ok VNone);
           Resume 1 (Ok (VStr "done"));
           Resume 1 (Ok VNone)])).
Proof.
  apply (ended_pipeline_blocks_idle Sample.machine
           [Deliver (Sample.job (Some "a") None);
            Resume 0 (Ok VNone);
            Resume 0 (Ok (VComputer Sample.machine));
            Resume 0 (Raise Sample.unreachable)]
           [Deliver (Sample.job (Some "b") None);
            Resume 1 (Ok VNone);
            Resume 1 (Ok VNone);
            Resume 1 (Ok (VStr "done"));
            Resume 1 (Ok VNone)] 0 (Some "a")).
  split; [|split].
  - eexists. vm_compute. reflexivity.
  - vm_compute. reflexivity.
  - vm_compute. reflexivity.
Defined.
